(** * MHG_partition: a shallow embedding of the module partitioner

    The development follows [MHG_partition.py].  Python values are
    modelled as the program has them: coordinates are integers ([Z]),
    bit arrays are Python strings (lists of characters), networkx
    [MultiDiGraph] objects are insertion-ordered adjacency dictionaries,
    and Python dictionaries are insertion-ordered association lists.
    A call that can raise returns a [result]. *)

From Stdlib Require Import ZArith List Bool Ascii String Lia FinFun.
From Stdlib Require Import Floats.SpecFloat.
Import ListNotations.

Local Open Scope Z_scope.

(** ** Python exceptions and results *)

Inductive PyExn : Type :=
| ValueError (msg : string)
| KeyError
| TypeError
| IndexError
| OutOfFuel.

Inductive result (A : Type) : Type :=
| Ok (a : A)
| Raise (e : PyExn).

Arguments Ok {A} a.
Arguments Raise {A} e.

Definition bind {A B : Type} (r : result A) (k : A -> result B) : result B :=
  match r with
  | Ok a => k a
  | Raise e => Raise e
  end.

Declare Scope py_scope.
Delimit Scope py_scope with py.
Notation "'let*' x ':=' c1 'in' c2" := (bind c1 (fun x => c2))
  (at level 61, x name, c1 at next level, right associativity) : py_scope.
Notation "'let*' ' x ':=' c1 'in' c2" := (bind c1 (fun x => c2))
  (at level 61, x strict pattern, c1 at next level, right associativity) : py_scope.
Local Open Scope py_scope.

(** ** Python sequences: lengths, slices, counting *)

Definition len {A : Type} (l : list A) : Z := Z.of_nat (List.length l).

(** Normalisation of a slice bound as CPython does it for a step of 1:
    a negative bound counts from the end, and the result is clamped
    to [0 .. len]. *)
Definition slice_bound (n : Z) (i : Z) : Z :=
  let j := if i <? 0 then i + n else i in
  Z.max 0 (Z.min n j).

(** [l[:i]] *)
Definition slice_to {A : Type} (i : Z) (l : list A) : list A :=
  firstn (Z.to_nat (slice_bound (len l) i)) l.

(** [l[i:]] *)
Definition slice_from {A : Type} (i : Z) (l : list A) : list A :=
  skipn (Z.to_nat (slice_bound (len l) i)) l.

(** [l[i:j]]: empty when the normalised bounds cross. *)
Definition slice {A : Type} (i j : Z) (l : list A) : list A :=
  let lo := slice_bound (len l) i in
  let hi := slice_bound (len l) j in
  firstn (Z.to_nat (hi - lo)) (skipn (Z.to_nat lo) l).

(** A bit array is a Python [str] over the characters '0' and '1'. *)
Abbreviation bitarray := (list ascii) (only parsing).

Definition bits (s : string) : bitarray := list_ascii_of_string s.

Definition one : ascii := "1"%char.

(** [blockArray.count('1')] *)
Fixpoint count_ones (m : bitarray) : Z :=
  match m with
  | [] => 0
  | c :: t => (if Ascii.eqb c one then 1 else 0) + count_ones t
  end.

(** ** Bitmask slicing primitive *)

(** [compress(count(), map(partial(eq, item), iterable))]: the positions,
    counted from [i], at which [iterable] holds [item]. *)
Fixpoint indices_from (i : Z) (item : ascii) (iterable : list ascii) : list Z :=
  match iterable with
  | [] => []
  | c :: t =>
      if Ascii.eqb item c then i :: indices_from (i + 1) item t
      else indices_from (i + 1) item t
  end.

(** [sys.maxsize] of a 64-bit CPython: the largest start [islice]
    takes, and the largest number of items a list holds. *)
Definition sys_maxsize : Z := 2 ^ 63 - 1.

(** [next(islice(indicies, n, None), -1)]: [islice] refuses a start that
    is negative or above [sys.maxsize] with a [ValueError]; an exhausted
    iterator gives the default. A start above [sys.maxsize] is past the
    end of every list Python holds, so the refusal is placed where the
    positions are exhausted. *)
Definition nth_item (n : Z) (item : ascii) (iterable : list ascii) : result Z :=
  let indicies := indices_from 0 item iterable in
  if n <? 0 then Raise (ValueError "Indices for islice() must be None or an integer")
  else
    match nth_error indicies (Z.to_nat n) with
    | Some index => Ok index
    | None =>
        if sys_maxsize <? n
        then Raise (ValueError "Indices for islice() must be None or an integer")
        else Ok (-1)
    end.

Definition choppedIndex (blockArray : bitarray) (offset : Z) : result Z :=
  let offset := if offset =? 0 then 1 else offset in
  match nth_item (offset - 1) one blockArray with
  | Ok chopIndex => Ok (chopIndex + 1)
  | Raise _ => Raise (ValueError "offset is negative")
  end.


(** ** Equality tests on the values used as dictionary keys *)

Class Eqb (A : Type) : Type := eqb : A -> A -> bool.

#[export] Instance Eqb_Z : Eqb Z := Z.eqb.
#[export] Instance Eqb_nat : Eqb nat := Nat.eqb.
#[export] Instance Eqb_string : Eqb string := String.eqb.
#[export] Instance Eqb_ascii : Eqb ascii := Ascii.eqb.
#[export] Instance Eqb_prod {A B : Type} `{Eqb A} `{Eqb B} : Eqb (A * B) :=
  fun x y => eqb (fst x) (fst y) && eqb (snd x) (snd y).

Fixpoint list_eqb {A : Type} `{Eqb A} (l1 l2 : list A) : bool :=
  match l1, l2 with
  | [], [] => true
  | x :: t1, y :: t2 => eqb x y && list_eqb t1 t2
  | _, _ => false
  end.

#[export] Instance Eqb_list {A : Type} `{Eqb A} : Eqb (list A) := list_eqb.

(** [x in l] *)
Definition mem {A : Type} `{Eqb A} (x : A) (l : list A) : bool :=
  existsb (eqb x) l.

(** [l.remove(x)]: drops the first occurrence, [ValueError] if there is none. *)
Fixpoint list_remove {A : Type} `{Eqb A} (x : A) (l : list A) : result (list A) :=
  match l with
  | [] => Raise (ValueError "list.remove(x): x not in list")
  | y :: t =>
      if eqb y x then Ok t
      else match list_remove x t with
           | Ok t' => Ok (y :: t')
           | Raise e => Raise e
           end
  end.

(** Python sets are kept as duplicate-free lists. [s.add(x)]: *)
Definition set_add {A : Type} `{Eqb A} (x : A) (s : list A) : list A :=
  if mem x s then s else s ++ [x].

(** [s.discard(x)] *)
Definition discard {A : Type} `{Eqb A} (x : A) (s : list A) : list A :=
  filter (fun y => negb (eqb y x)) s.

(** [set(l)] (also [list(set(l))], up to the iteration order of the set) *)
Fixpoint dedup {A : Type} `{Eqb A} (l : list A) : list A :=
  match l with
  | [] => []
  | x :: t => if mem x t then dedup t else x :: dedup t
  end.

(** ** Python dictionaries

    A [dict] keeps its keys in insertion order; assigning to a key that
    is present replaces the value in place. *)

Abbreviation dict K V := (list (K * V)%type) (only parsing).

Definition keys {K V : Type} (d : dict K V) : list K := map fst d.
Definition values {K V : Type} (d : dict K V) : list V := map snd d.

Fixpoint dict_get {K V : Type} `{Eqb K} (d : dict K V) (k : K) : option V :=
  match d with
  | [] => None
  | (k', v) :: t => if eqb k' k then Some v else dict_get t k
  end.

(** [k in d] *)
Definition dict_mem {K V : Type} `{Eqb K} (d : dict K V) (k : K) : bool :=
  match dict_get d k with Some _ => true | None => false end.

(** [d[k]] *)
Definition dict_item {K V : Type} `{Eqb K} (d : dict K V) (k : K) : result V :=
  match dict_get d k with
  | Some v => Ok v
  | None => Raise KeyError
  end.

(** [d[k] = v] *)
Fixpoint dict_set {K V : Type} `{Eqb K} (d : dict K V) (k : K) (v : V) : dict K V :=
  match d with
  | [] => [(k, v)]
  | (k', v') :: t =>
      if eqb k' k then (k', v) :: t else (k', v') :: dict_set t k v
  end.

(** [d.pop(k, None)] *)
Fixpoint dict_pop {K V : Type} `{Eqb K} (d : dict K V) (k : K) : dict K V :=
  match d with
  | [] => []
  | (k', v') :: t => if eqb k' k then t else (k', v') :: dict_pop t k
  end.

(** ** networkx.MultiDiGraph

    The graph is its adjacency dictionary [_adj]: node -> neighbour ->
    edge key -> weight, every level in insertion order. networkx keeps
    an entry (possibly empty) for every node, so the node list is the
    key list. The only edge attribute the program uses is ['weight']. *)

Abbreviation MultiDiGraph N W := (list (N * list (N * list (nat * W)))) (only parsing).

Section Graph.
Context {N W : Type} `{Eqb N}.

(** [nx.MultiDiGraph()] *)
Definition empty_graph : MultiDiGraph N W := [].

(** [list(G.nodes)] *)
Definition nodes (G : MultiDiGraph N W) : list N := keys G.

(** [G.add_node(n)] *)
Definition add_node (G : MultiDiGraph N W) (n : N) : MultiDiGraph N W :=
  if dict_mem G n then G else G ++ [(n, [])].

(** [G.add_nodes_from(ns)] *)
Definition add_nodes_from (G : MultiDiGraph N W) (ns : list N) : MultiDiGraph N W :=
  fold_left add_node ns G.

(** The loop [while key in keydict: key += 1] of [new_edge_key]; among
    the [len(keydict) + 1] candidates tried one is free. *)
Fixpoint free_key (fuel : nat) (key : nat) (keydict : dict nat W) : nat :=
  match fuel with
  | O => key
  | S f => if dict_mem keydict key then free_key f (S key) keydict else key
  end.

(** [G.new_edge_key(u, v)] *)
Definition new_edge_key (G : MultiDiGraph N W) (u v : N) : nat :=
  match dict_get G u with
  | Some nbrs =>
      match dict_get nbrs v with
      | Some keydict => free_key (S (List.length keydict)) (List.length keydict) keydict
      | None => 0%nat
      end
  | None => 0%nat
  end.

(** [G.add_edge(u, v, key, weight = w)] *)
Definition add_edge_key (G : MultiDiGraph N W) (u v : N) (key : nat) (w : W)
  : MultiDiGraph N W :=
  let G := add_node G u in
  let G := add_node G v in
  let nbrs := match dict_get G u with Some x => x | None => [] end in
  let keydict := match dict_get nbrs v with Some kd => kd | None => [] end in
  dict_set G u (dict_set nbrs v (dict_set keydict key w)).

(** [G.add_edge(u, v, weight = w)] *)
Definition add_edge (G : MultiDiGraph N W) (u v : N) (w : W) : MultiDiGraph N W :=
  add_edge_key G u v (new_edge_key G u v) w.

(** [G.edges(n, keys=True)] for one node, with the weights. *)
Definition out_edges_data (u : N) (nbrs : dict N (dict nat W)) : list (N * N * nat * W) :=
  flat_map (fun vk => map (fun kw => (u, fst vk, fst kw, snd kw)) (snd vk)) nbrs.

(** [G.edges(keys=True, data='weight')] *)
Definition edges_data (G : MultiDiGraph N W) : list (N * N * nat * W) :=
  flat_map (fun un => out_edges_data (fst un) (snd un)) G.

(** [list(G.edges)] *)
Definition edges (G : MultiDiGraph N W) : list (N * N * nat) :=
  map fst (edges_data G).

Definition out_edges (G : MultiDiGraph N W) (u : N) : list (N * N * nat) :=
  match dict_get G u with
  | Some nbrs => map fst (out_edges_data u nbrs)
  | None => []
  end.

(** [G[u][v][key]['weight']] *)
Definition get_weight (G : MultiDiGraph N W) (u v : N) (key : nat) : result W :=
  let* nbrs := dict_item G u in
  let* keydict := dict_item nbrs v in
  dict_item keydict key.

(** The [for edge in children_edges] loop of [nx.edge_bfs] for a
    directed graph and [orientation=None]: a child seen for the first
    time joins the queue, an edge seen for the first time is yielded. *)
Fixpoint bfs_children (children_edges : list (N * N * nat))
  (visited_nodes : list N) (visited_edges : list (N * N * nat))
  (queue : list N) (yielded : list (N * N * nat))
  : list N * list (N * N * nat) * list N * list (N * N * nat) :=
  match children_edges with
  | [] => (visited_nodes, visited_edges, queue, yielded)
  | edge :: rest =>
      let child := snd (fst edge) in
      let '(visited_nodes, queue) :=
        if mem child visited_nodes then (visited_nodes, queue)
        else (child :: visited_nodes, queue ++ [child]) in
      let '(visited_edges, yielded) :=
        if mem edge visited_edges then (visited_edges, yielded)
        else (edge :: visited_edges, yielded ++ [edge]) in
      bfs_children rest visited_nodes visited_edges queue yielded
  end.

(** The [while queue] loop. Every pass takes a node that was queued at
    most once, so one more pass than there are edges is enough. *)
Fixpoint bfs_loop (fuel : nat) (G : MultiDiGraph N W) (queue : list N)
  (visited_nodes : list N) (visited_edges : list (N * N * nat))
  : list (N * N * nat) :=
  match fuel with
  | O => []
  | S f =>
      match queue with
      | [] => []
      | parent :: queue =>
          let '(visited_nodes, visited_edges, queue, yielded) :=
            bfs_children (out_edges G parent) visited_nodes visited_edges queue [] in
          yielded ++ bfs_loop f G queue visited_nodes visited_edges
      end
  end.

(** [list(nx.edge_bfs(G, source))]. A [source] that is no node of [G]
    is read by [nbunch_iter] as a collection of nodes; the components
    of a block-vertex are no nodes, so nothing is traversed. *)
Definition edge_bfs (G : MultiDiGraph N W) (source : N) : list (N * N * nat) :=
  if dict_mem G source
  then bfs_loop (S (S (List.length (edges G)))) G [source] [source] []
  else [].

End Graph.

(** ** Blocks and modules *)

(** Orientation of a block: ["+"] or ["-"]. *)
Inductive Direction : Type := Plus | Minus.

#[export] Instance Eqb_Direction : Eqb Direction :=
  fun a b => match a, b with
             | Plus, Plus | Minus, Minus => true
             | _, _ => false
             end.

Abbreviation Interval := (Z * Z)%type (only parsing).

(** A node of the alignment graph: (accession, (start, end)). *)
Abbreviation Node := (string * Interval)%type (only parsing).

(** A node of a module: (nodeName, pathTuple, direction). *)
Abbreviation BlockVertex := (Node * Interval * Direction)%type (only parsing).

Abbreviation Module := (MultiDiGraph BlockVertex bitarray) (only parsing).

Definition bv_name (b : BlockVertex) : Node := fst (fst b).
Definition bv_path (b : BlockVertex) : Interval := snd (fst b).
Definition bv_dir (b : BlockVertex) : Direction := snd b.

(** ["+" if d == "-" else "-"] *)
Definition flip (d : Direction) : Direction :=
  match d with Minus => Plus | Plus => Minus end.

(** [signReverse]: the nodes with their sign swapped, in the order of
    [module.nodes], then every edge of [module.edges] under its own key
    with the bit array reversed. [nodeMapping] is tabulated on all
    nodes, which hold both ends of every edge. *)
Definition nodeMapping (node : BlockVertex) : BlockVertex :=
  (bv_name node, bv_path node, flip (bv_dir node)).

Definition signReverse (module : Module) : Module :=
  let newNodes := map nodeMapping (nodes module) in
  let reverseSign := add_nodes_from empty_graph newNodes in
  fold_left
    (fun reverseSign edge =>
       let '(s, d, i, weight) := edge in
       add_edge_key reverseSign (nodeMapping s) (nodeMapping d) i (rev weight))
    (edges_data module) reverseSign.

(** ** Two-way module chop *)

(** The state of the [while edgeList] loop of [partitionToTwoModules].
    [seg_distance_dic] is a [defaultdict] with default [-1]. *)
Record ptm_state : Type := {
  edgeList : list (BlockVertex * BlockVertex * nat);
  nodeSet : list BlockVertex;
  seg_distance_dic : dict BlockVertex Z;
  first_node_dic : dict BlockVertex BlockVertex;
  second_node_dic : dict BlockVertex BlockVertex;
  firstPart : Module;
  secondPart : Module
}.

Inductive ptm_outcome : Type :=
| Returns (parts : list Module)
| Continues (st : ptm_state).

(** [seg_distance_dic[seg]] *)
Definition seg_distance (d : dict BlockVertex Z) (seg : BlockVertex) : Z :=
  match dict_get d seg with Some x => x | None => -1 end.

(** The body of [if seg_distance_dic[sourceSeg] != -1:]. *)
Definition ptm_split (st : ptm_state) (sourceSeg destSeg : BlockVertex)
  (sourceToDestArray destToSourceArray : bitarray) : result ptm_state :=
  let '(destNode, (destStart, destEnd), destSegDirection) := destSeg in
  let sourceSegDirection := bv_dir sourceSeg in
  let cutpoint := seg_distance (seg_distance_dic st) sourceSeg in
  let* sourceFirstNode := dict_item (first_node_dic st) sourceSeg in
  let* sourceSecNode := dict_item (second_node_dic st) sourceSeg in
  let* '(source_first_array, source_second_array,
         dest_first_array, dest_second_array,
         dest_first_node, dest_second_node, dest_distance) :=
    match sourceSegDirection with
    | Plus =>
        let* boundary := choppedIndex sourceToDestArray cutpoint in
        let source_first_array := slice_to boundary sourceToDestArray in
        let source_second_array := slice_from boundary sourceToDestArray in
        let dest_first_array := slice_to boundary destToSourceArray in
        let dest_second_array := slice_from boundary destToSourceArray in
        let destOffset := count_ones dest_first_array in
        match destSegDirection with
        | Plus =>
            let dest_midpoint := destStart + destOffset in
            Ok (source_first_array, source_second_array,
                dest_first_array, dest_second_array,
                (destNode, (destStart, dest_midpoint), destSegDirection),
                (destNode, (dest_midpoint, destEnd), destSegDirection),
                destOffset)
        | Minus =>
            let dest_midpoint := destEnd - destOffset in
            Ok (source_first_array, source_second_array,
                dest_first_array, dest_second_array,
                (destNode, (dest_midpoint, destEnd), destSegDirection),
                (destNode, (destStart, dest_midpoint), destSegDirection),
                dest_midpoint - destStart)
        end
    | Minus =>
        let* boundary :=
          match choppedIndex (rev sourceToDestArray) cutpoint with
          | Ok b => Ok b
          | Raise _ => Raise (ValueError "source seg not in seg dic")
          end in
        let source_first_array := slice_to (- boundary) sourceToDestArray in
        let source_second_array := slice_from (- boundary) sourceToDestArray in
        let dest_second_array := slice_from (- boundary) destToSourceArray in
        let dest_first_array := slice_to (- boundary) destToSourceArray in
        let destOffset := count_ones dest_first_array in
        match destSegDirection with
        | Plus =>
            let dest_midpoint := destStart + destOffset in
            Ok (source_first_array, source_second_array,
                dest_first_array, dest_second_array,
                (destNode, (destStart, dest_midpoint), destSegDirection),
                (destNode, (dest_midpoint, destEnd), destSegDirection),
                destOffset)
        | Minus =>
            let dest_midpoint := destEnd - destOffset in
            let dest_midpoint :=
              if dest_midpoint <? destStart
              then destStart + count_ones dest_second_array
              else dest_midpoint in
            Ok (source_first_array, source_second_array,
                dest_first_array, dest_second_array,
                (destNode, (dest_midpoint, destEnd), destSegDirection),
                (destNode, (destStart, dest_midpoint), destSegDirection),
                dest_midpoint - destStart)
        end
    end in
  let firstPart := add_edge (firstPart st) sourceFirstNode dest_first_node source_first_array in
  let firstPart := add_edge firstPart dest_first_node sourceFirstNode dest_first_array in
  let secondPart := add_edge (secondPart st) sourceSecNode dest_second_node source_second_array in
  let secondPart := add_edge secondPart dest_second_node sourceSecNode dest_second_array in
  Ok {| edgeList := edgeList st;
        nodeSet := discard destSeg (nodeSet st);
        seg_distance_dic := dict_set (seg_distance_dic st) destSeg dest_distance;
        first_node_dic := dict_set (first_node_dic st) destSeg dest_first_node;
        second_node_dic := dict_set (second_node_dic st) destSeg dest_second_node;
        firstPart := firstPart;
        secondPart := secondPart |}.

Definition with_edgeList (st : ptm_state) (l : list (BlockVertex * BlockVertex * nat))
  : ptm_state :=
  {| edgeList := l;
     nodeSet := nodeSet st;
     seg_distance_dic := seg_distance_dic st;
     first_node_dic := first_node_dic st;
     second_node_dic := second_node_dic st;
     firstPart := firstPart st;
     secondPart := secondPart st |}.

(** One pass of the [while edgeList] loop, on its first edge. *)
Definition ptm_body (module : Module) (st : ptm_state)
  (edge : BlockVertex * BlockVertex * nat) : result ptm_outcome :=
  let '(sourceSeg, destSeg, counter) := edge in
  let* sourceToDestArray := get_weight module sourceSeg destSeg counter in
  let* destToSourceArray := get_weight module destSeg sourceSeg counter in
  let* l := list_remove (sourceSeg, destSeg, counter) (edgeList st) in
  let* l := list_remove (destSeg, sourceSeg, counter) l in
  let st := with_edgeList st l in
  if negb (mem sourceSeg (nodeSet st)) && negb (mem destSeg (nodeSet st))
  then Ok (Continues st)
  else
    let* st :=
      if negb (seg_distance (seg_distance_dic st) sourceSeg =? -1)
      then ptm_split st sourceSeg destSeg sourceToDestArray destToSourceArray
      else Ok st in
    match nodeSet st with
    | [] => Ok (Returns [firstPart st; secondPart st])
    | _ :: _ => Ok (Continues st)
    end.

(** The loop itself; every pass takes edges off [edgeList], whose
    length bounds the number of passes. *)
Fixpoint ptm_loop (fuel : nat) (module : Module) (st : ptm_state) {struct fuel}
  : result (list Module) :=
  match edgeList st with
  | [] => Raise (ValueError "Everything is missed")
  | edge :: _ =>
      match fuel with
      | O => Raise OutOfFuel
      | S f =>
          let* o := ptm_body module st edge in
          match o with
          | Returns parts => Ok parts
          | Continues st' => ptm_loop f module st'
          end
      end
  end.

Definition partitionToTwoModules (blockNode : BlockVertex) (nucDistance : Z)
  (module : Module) : result (list Module) :=
  let '(name, (lo, hi), direction) := blockNode in
  let '(first_node, second_node) :=
    match direction with
    | Plus => ((name, (lo, lo + nucDistance), Plus), (name, (lo + nucDistance, hi), Plus))
    | Minus => ((name, (lo + nucDistance, hi), Minus), (name, (lo, lo + nucDistance), Minus))
    end in
  let edgeList := edge_bfs module blockNode in
  let nodeSet := discard blockNode (dedup (nodes module)) in
  match nodeSet with
  | [] => Ok [add_node empty_graph first_node; add_node empty_graph second_node]
  | _ :: _ =>
      ptm_loop (List.length edgeList) module
        {| edgeList := edgeList;
           nodeSet := nodeSet;
           seg_distance_dic := [(blockNode, nucDistance)];
           first_node_dic := [(blockNode, first_node)];
           second_node_dic := [(blockNode, second_node)];
           firstPart := empty_graph;
           secondPart := empty_graph |}
  end.

(** ** Python objects: the heap, and computations that may raise

    Two kinds of objects are shared by reference. The values of
    [nodeToPathDic] are [set] objects that are updated in place, so a
    [dict.copy()] of the dictionary shares them. Module graphs are
    compared by identity ([is], membership in a set of graphs, use as
    dictionary key), so every graph object carries the number it was
    created under. *)

Record Heap : Type := {
  sets : list (list Interval);
  next_mid : nat
}.

Definition empty_heap : Heap := {| sets := []; next_mid := 0 |}.

(** A computation: it may update the heap, and it returns or raises.
    What it did to the heap before raising stays done. *)
Definition Py (A : Type) : Type := Heap -> Heap * result A.

Definition ret {A : Type} (a : A) : Py A := fun h => (h, Ok a).

Definition raise {A : Type} (e : PyExn) : Py A := fun h => (h, Raise e).

Definition lift {A : Type} (r : result A) : Py A := fun h => (h, r).

Definition pbind {A B : Type} (c : Py A) (k : A -> Py B) : Py B :=
  fun h =>
    match c h with
    | (h', Ok a) => k a h'
    | (h', Raise e) => (h', Raise e)
    end.

(** [try: c except: handler]. Running out of fuel is no Python
    exception and is not caught. *)
Definition try_except {A : Type} (c : Py A) (handler : Py A) : Py A :=
  fun h =>
    match c h with
    | (h', Ok a) => (h', Ok a)
    | (h', Raise OutOfFuel) => (h', Raise OutOfFuel)
    | (h', Raise _) => handler h'
    end.

Notation "x <- c1 ;; c2" := (pbind c1 (fun x => c2))
  (at level 61, c1 at next level, right associativity) : py_scope.
Notation "' x <- c1 ;; c2" := (pbind c1 (fun x => c2))
  (at level 61, x strict pattern, c1 at next level, right associativity) : py_scope.

(** A module graph object. *)
Record ModuleObj : Type := {
  mid : nat;
  graph : Module
}.

(** Identity of graph objects ([is]). *)
Definition same_object (a b : ModuleObj) : bool := Nat.eqb (mid a) (mid b).

(** A graph that was just created. *)
Definition new_object (g : Module) : Py ModuleObj :=
  fun h =>
    ({| sets := sets h; next_mid := S (next_mid h) |},
     Ok {| mid := next_mid h; graph := g |}).

(** [nodeToPathDic]: node -> reference to its set of live intervals.
    [nodePathToModuleDic]: (node, interval) -> module. *)
Abbreviation NodeToPath := (dict Node nat) (only parsing).
Abbreviation PathToModule := (dict (Node * Interval) ModuleObj) (only parsing).

(** The set object at a reference. *)
Definition set_at (h : Heap) (a : nat) : list Interval := nth a (sets h) [].

Fixpoint list_update {A : Type} (l : list A) (i : nat) (x : A) : list A :=
  match l, i with
  | [], _ => []
  | _ :: t, O => x :: t
  | y :: t, S j => y :: list_update t j x
  end.

Definition set_write (a : nat) (s : list Interval) : Py unit :=
  fun h => ({| sets := list_update (sets h) a s; next_mid := next_mid h |}, Ok tt).

(** [list(s)] for the set at [a]. CPython lists a set in the order of
    its hash table; the model lists it in the order of insertion.
    [trimShortModules] removes the same paths in either order; the
    order shows only in the overlap query, whose answer follows it. *)
Definition set_list (a : nat) : Py (list Interval) := fun h => (h, Ok (set_at h a)).

(** [s.add(path)] and [s.discard(path)] for the set at [a] *)
Definition set_add_at (a : nat) (path : Interval) : Py unit :=
  fun h => set_write a (set_add path (set_at h a)) h.

Definition set_discard_at (a : nat) (path : Interval) : Py unit :=
  fun h => set_write a (discard path (set_at h a)) h.

(** [nodeToPathDic[node]] on a [defaultdict(lambda: set())]: a missing
    key is entered with a new empty set. *)
Definition n2p_item (nodeToPathDic : NodeToPath) (node : Node) : Py (NodeToPath * nat) :=
  fun h =>
    match dict_get nodeToPathDic node with
    | Some a => (h, Ok (nodeToPathDic, a))
    | None =>
        let a := List.length (sets h) in
        ({| sets := sets h ++ [[]]; next_mid := next_mid h |},
         Ok (dict_set nodeToPathDic node a, a))
    end.

(** The live intervals of a node, as an observer sees them. *)
Definition live (h : Heap) (nodeToPathDic : NodeToPath) (node : Node) : list Interval :=
  match dict_get nodeToPathDic node with
  | Some a => set_at h a
  | None => []
  end.

(** ** Registering and removing modules *)

Fixpoint removeOldModule_loop (oldModuleList : list BlockVertex)
  (nodeToPathDic : NodeToPath) (nodePathToModuleDic : PathToModule)
  : Py (NodeToPath * PathToModule) :=
  match oldModuleList with
  | [] => ret (nodeToPathDic, nodePathToModuleDic)
  | (nodeName, pathTuple, direction) :: rest =>
      '(nodeToPathDic, a) <- n2p_item nodeToPathDic nodeName ;;
      _ <- set_discard_at a pathTuple ;;
      removeOldModule_loop rest nodeToPathDic
        (dict_pop nodePathToModuleDic (nodeName, pathTuple))
  end.

Definition removeOldModule (oldModule : ModuleObj)
  (nodeToPathDic : NodeToPath) (nodePathToModuleDic : PathToModule)
  : Py (NodeToPath * PathToModule) :=
  removeOldModule_loop (nodes (graph oldModule)) nodeToPathDic nodePathToModuleDic.

(** The [for] loop of [updateNewModule]; a short block [break]s it. *)
Fixpoint updateNewModule_loop (newModule : ModuleObj) (trimLength : Z)
  (newModuleList : list BlockVertex)
  (nodeToPathDic : NodeToPath) (nodePathToModuleDic : PathToModule)
  : Py (NodeToPath * PathToModule) :=
  match newModuleList with
  | [] => ret (nodeToPathDic, nodePathToModuleDic)
  | (nodeName, pathTuple, direction) :: rest =>
      if snd pathTuple - fst pathTuple <? trimLength
      then ret (nodeToPathDic, nodePathToModuleDic)
      else
        '(nodeToPathDic, a) <- n2p_item nodeToPathDic nodeName ;;
        _ <- set_add_at a pathTuple ;;
        updateNewModule_loop newModule trimLength rest nodeToPathDic
          (dict_set nodePathToModuleDic (nodeName, pathTuple) newModule)
  end.

Definition updateNewModule (newModule : ModuleObj)
  (nodeToPathDic : NodeToPath) (nodePathToModuleDic : PathToModule)
  (trimLength : Z) : Py (NodeToPath * PathToModule) :=
  updateNewModule_loop newModule trimLength (nodes (graph newModule))
    nodeToPathDic nodePathToModuleDic.

(** ** Short-block trimming *)

(** The inner loop over [zip(pathList, lengthList)]. *)
Fixpoint trim_paths (node : Node) (a : nat) (trimLength : Z) (pathList : list Interval)
  (nodePathToModuleDic : PathToModule) : Py PathToModule :=
  match pathList with
  | [] => ret nodePathToModuleDic
  | path :: rest =>
      let length := snd path - fst path in
      if length <? trimLength
      then
        _ <- set_discard_at a path ;;
        trim_paths node a trimLength rest (dict_pop nodePathToModuleDic (node, path))
      else trim_paths node a trimLength rest nodePathToModuleDic
  end.

(** The outer loop over [nodeToPathDic.keys()]. *)
Fixpoint trim_nodes (nodeList : list Node) (trimLength : Z)
  (nodeToPathDic : NodeToPath) (nodePathToModuleDic : PathToModule)
  : Py (NodeToPath * PathToModule) :=
  match nodeList with
  | [] => ret (nodeToPathDic, nodePathToModuleDic)
  | node :: rest =>
      '(nodeToPathDic, a) <- n2p_item nodeToPathDic node ;;
      pathList <- set_list a ;;
      nodePathToModuleDic <- trim_paths node a trimLength pathList nodePathToModuleDic ;;
      trim_nodes rest trimLength nodeToPathDic nodePathToModuleDic
  end.

Definition trimShortModules (nodeToPathDic : NodeToPath)
  (nodePathToModuleDic : PathToModule) (trimLength : Z)
  : Py (NodeToPath * PathToModule) :=
  trim_nodes (keys nodeToPathDic) trimLength nodeToPathDic nodePathToModuleDic.

(** ** Representation invariant of a networkx graph

    What every graph object satisfies by construction: dictionary keys
    are distinct at every level, both ends of an edge are nodes, and a
    neighbour entry holds at least one edge key. *)

Definition wf_keydicts {N W : Type} (ks : list N) (nbrs : dict N (dict nat W)) : Prop :=
  NoDup (keys nbrs) /\
  forall v kd, In (v, kd) nbrs -> In v ks /\ NoDup (keys kd) /\ kd <> [].

Definition wf_graph {N W : Type} (G : MultiDiGraph N W) : Prop :=
  NoDup (keys G) /\
  forall u nbrs, In (u, nbrs) G -> wf_keydicts (keys G) nbrs.

(** The graph with every node renamed by [f] and every weight changed
    by [g], keys and insertion order kept. *)
Definition map_keydict {W W' : Type} (g : W -> W') (kd : dict nat W) : dict nat W' :=
  map (fun kw => (fst kw, g (snd kw))) kd.

Definition map_nbrs {N N' W W' : Type} (f : N -> N') (g : W -> W')
  (nbrs : dict N (dict nat W)) : dict N' (dict nat W') :=
  map (fun vk => (f (fst vk), map_keydict g (snd vk))) nbrs.

Definition map_graph {N N' W W' : Type} (f : N -> N') (g : W -> W')
  (G : MultiDiGraph N W) : MultiDiGraph N' W' :=
  map (fun un => (f (fst un), map_nbrs f g (snd un))) G.

(** ** Sample data used to exercise the definitions *)

Definition seqA : Node := ("seqA"%string, (1, 100)).
Definition seqB : Node := ("seqB"%string, (1, 100)).
Definition seqC : Node := ("seqC"%string, (1, 100)).

(** A module of two blocks aligned in opposite orientations, with one
    gap column on each side. *)
Definition sample_module : Module :=
  let a : BlockVertex := (seqA, (1, 10), Plus) in
  let b : BlockVertex := (seqB, (1, 10), Minus) in
  add_edge (add_edge empty_graph a b (bits "1111011111")) b a (bits "1111101111").

(** [sample_module] with one more block that no edge reaches. *)
Definition detached_module : Module :=
  add_node sample_module (seqC, (1, 10), Plus).

(** A module of three blocks around [seqA]: [seqB] is aligned to it with
    ten gap columns after its fifth letter, [seqC] without gaps. *)
Definition star_module : Module :=
  let a : BlockVertex := (seqA, (1, 46), Plus) in
  let b : BlockVertex := (seqB, (1, 36), Plus) in
  let c : BlockVertex := (seqC, (1, 46), Plus) in
  let ones45 := repeat one 45 in
  let gapped := repeat one 5 ++ repeat "0"%char 10 ++ repeat one 30 in
  let g := add_edge (add_edge empty_graph a b ones45) b a gapped in
  add_edge (add_edge g a c ones45) c a ones45.

(** The left part of [star_module] chopped at offset 25 of its [seqA]
    block, as [partitionToTwoModules] builds it. *)
Definition star_left : Module :=
  match partitionToTwoModules (seqA, (1, 46), Plus) 25 star_module with
  | Ok (first :: _) => first
  | _ => empty_graph
  end.

(** ** Sorting

    [sorted] on integers, and on block-vertex tuples (compared
    component by component, strings by code point, ["+"] before ["-"]). *)

Fixpoint insert_sorted {A : Type} (leb : A -> A -> bool) (x : A) (l : list A) : list A :=
  match l with
  | [] => [x]
  | y :: t => if leb x y then x :: l else y :: insert_sorted leb x t
  end.

Definition sorted {A : Type} (leb : A -> A -> bool) (l : list A) : list A :=
  fold_right (insert_sorted leb) [] l.

(** [tuple(sorted(path))] for a pair of coordinates *)
Definition sorted_pair (p : Interval) : Interval :=
  if fst p <=? snd p then p else (snd p, fst p).

(** ** Cutting a node interval *)

(** Consecutive pairs of a list of cut points. *)
Fixpoint consecutive (l : list Z) : list Interval :=
  match l with
  | a :: ((b :: _) as t) => (a, b) :: consecutive t
  | _ => []
  end.

Definition nodePartition (position node : Interval) : list Interval :=
  let updatedBlockList :=
    sorted Z.leb (dedup [fst position; snd position; fst node; snd node]) in
  consecutive updatedBlockList.

Definition multiChopNodePartition (listOfCutpoint : list Interval) (whole : Interval)
  : list Interval :=
  let updatedBlockList :=
    fold_left (fun acc position => acc ++ [fst position; snd position])
      listOfCutpoint [fst whole; snd whole] in
  consecutive (sorted Z.leb (dedup updatedBlockList)).

(** ** Overlap query *)

(** Modelled from the spec: the program shells out to [bedtools
    intersect -a tempA.bed -b tempB.bed -wa], which is no part of this
    repository. Per the specification the query returns the live blocks
    of the node whose interval intersects the query path, intersection
    being strict: [[a,b)] and [[c,d)] share a point. The blocks come in
    the order in which the set of the node is listed. *)
Definition intersects (a b : Interval) : bool :=
  (fst a <? snd b) && (fst b <? snd a).

Definition bedtoolCall (node : Node) (nodeToPathDic : NodeToPath) (path : Interval)
  : Py (NodeToPath * list (Node * Interval)) :=
  '(nodeToPathDic, a) <- n2p_item nodeToPathDic node ;;
  listA <- set_list a ;;
  ret (nodeToPathDic,
       map (fun iv => (node, iv)) (filter (fun iv => intersects iv path) listA)).

(** [[nodePathToModuleDic[pair] for pair in overlappedPairs]] *)
Fixpoint modules_of (nodePathToModuleDic : PathToModule)
  (overlappedPairs : list (Node * Interval)) : result (list ModuleObj) :=
  match overlappedPairs with
  | [] => Ok []
  | key :: rest =>
      let* m := dict_item nodePathToModuleDic key in
      let* ms := modules_of nodePathToModuleDic rest in
      Ok (m :: ms)
  end.

(** ** Node-versus-module partition *)

#[export] Instance Eqb_ModuleObj : Eqb ModuleObj := same_object.

(** [g.add_edge(u, v, weight = w)] on a graph object *)
Definition obj_add_edge (g : ModuleObj) (u v : BlockVertex) (w : bitarray) : ModuleObj :=
  {| mid := mid g; graph := add_edge (graph g) u v w |}.

(** [partitionToTwoModules] on graph objects: its two parts are new
    objects. *)
Definition partitionToTwoModules_obj (blockNode : BlockVertex) (nucDistance : Z)
  (module : ModuleObj) : Py (list ModuleObj) :=
  parts <- lift (partitionToTwoModules blockNode nucDistance (graph module)) ;;
  match parts with
  | [firstPart; secondPart] =>
      firstPart <- new_object firstPart ;;
      secondPart <- new_object secondPart ;;
      ret [firstPart; secondPart]
  | _ => raise IndexError
  end.

(** The two [add_edge] calls every case of [updateModuleTuple] ends
    with: the alignment as it is when the block has the orientation of
    the alignment, reversed onto the flipped destination otherwise. *)
Definition attach_alignment (newModule : ModuleObj)
  (sourceNode : Node) (sourceToDestPath : Interval)
  (sourceInModuleDirection sourceDirection : Direction)
  (destNode : Node) (destOverlapped : Interval) (destDirection : Direction)
  (sourceToDestArray destToSourceArray : bitarray) : ModuleObj :=
  let src : BlockVertex := (sourceNode, sourceToDestPath, sourceInModuleDirection) in
  if eqb sourceInModuleDirection sourceDirection
  then
    let dst : BlockVertex := (destNode, destOverlapped, destDirection) in
    obj_add_edge (obj_add_edge newModule src dst sourceToDestArray)
      dst src destToSourceArray
  else
    let dst : BlockVertex := (destNode, destOverlapped, flip destDirection) in
    obj_add_edge (obj_add_edge newModule src dst (rev sourceToDestArray))
      dst src (rev destToSourceArray).

(** The three-way chop shared by the "middle" cases: chop at
    [endOffSet], then chop the left piece at [startOffSet]; the three
    modules are listed left to right in the orientation of the block. *)
Definition three_way_chop (blockNode : BlockVertex) (startOffSet endOffSet : Z)
  (m_graph : ModuleObj) : Py (list ModuleObj) :=
  let '(name, (lo, hi), direction) := blockNode in
  first_module_list <- partitionToTwoModules_obj blockNode endOffSet m_graph ;;
  match first_module_list with
  | [f0; f1] =>
      let newBlockNode : BlockVertex := (name, (lo, lo + endOffSet), direction) in
      let targetModule := match direction with Plus => f0 | Minus => f1 end in
      second_module_list <- partitionToTwoModules_obj newBlockNode startOffSet targetModule ;;
      match second_module_list with
      | [s0; s1] =>
          ret (match direction with
               | Plus => [s0; s1; f1]
               | Minus => [s1; s0; f0]
               end)
      | _ => raise IndexError
      end
  | _ => raise IndexError
  end.

Definition updateModuleTuple (blockNode : BlockVertex) (startOffSet endOffSet : Z)
  (m_graph : ModuleObj) (destNode : Node) (destToSourcePath : Interval)
  (sourceDirection destDirection sourceInModuleDirection : Direction)
  (nodePartitionDic : dict Interval ModuleObj)
  (sourceToDestArray destToSourceArray : bitarray)
  : Py (dict Interval ModuleObj * list ModuleObj) :=
  let sourceNode := bv_name blockNode in
  let block := bv_path blockNode in
  let sourceToDestPath := (fst block + startOffSet, fst block + endOffSet) in
  let destOverlapped := sorted_pair destToSourcePath in
  let attach newModule :=
    attach_alignment newModule sourceNode sourceToDestPath
      sourceInModuleDirection sourceDirection destNode destOverlapped destDirection
      sourceToDestArray destToSourceArray in
  if (startOffSet =? 0) && (fst block + endOffSet =? snd block) then
    new_m_graph <- new_object (graph m_graph) ;;
    let new_m_graph := attach new_m_graph in
    ret (dict_set nodePartitionDic destOverlapped new_m_graph, [new_m_graph])
  else if startOffSet =? 0 then
    updatedModuleList <- partitionToTwoModules_obj blockNode endOffSet m_graph ;;
    match updatedModuleList with
    | [u0; u1] =>
        match bv_dir blockNode with
        | Plus =>
            let newModule := attach u0 in
            ret (dict_set nodePartitionDic destOverlapped newModule, [newModule; u1])
        | Minus =>
            let newModule := attach u1 in
            ret (dict_set nodePartitionDic destOverlapped newModule, [u0; newModule])
        end
    | _ => raise IndexError
    end
  else if fst block + endOffSet =? snd block then
    updatedModuleList <- partitionToTwoModules_obj blockNode startOffSet m_graph ;;
    match updatedModuleList with
    | [u0; u1] =>
        match bv_dir blockNode with
        | Plus =>
            let newModule := attach u1 in
            ret (dict_set nodePartitionDic destOverlapped newModule, [u0; newModule])
        | Minus =>
            let newModule := attach u0 in
            ret (dict_set nodePartitionDic destOverlapped newModule, [newModule; u1])
        end
    | _ => raise IndexError
    end
  else if negb (startOffSet =? 0) && negb (endOffSet =? 0) then
    updatedModuleList <- three_way_chop blockNode startOffSet endOffSet m_graph ;;
    match updatedModuleList with
    | [u0; u1; u2] =>
        let newModule := attach u1 in
        ret (dict_set nodePartitionDic destOverlapped newModule, [u0; newModule; u2])
    | _ => raise IndexError
    end
  else raise TypeError.

(** [for (nodeName, pathTuple, direction) in list(newModule.nodes):
    nodePathToModuleDic[(nodeName, pathTuple)] = newModule] *)
Definition point_all_to (newModule : ModuleObj) (nodePathToModuleDic : PathToModule)
  : PathToModule :=
  fold_left (fun d b => dict_set d (bv_name b, bv_path b) newModule)
    (nodes (graph newModule)) nodePathToModuleDic.

(** Registration of a list of new modules, one after the other. In
    [checkBlockOverlap] the loop of [updateNewModule] is written out,
    [break] included, with the threshold 20. *)
Fixpoint register_modules (updatedModuleList : list ModuleObj)
  (nodeToPathDic : NodeToPath) (nodePathToModuleDic : PathToModule)
  : Py (NodeToPath * PathToModule) :=
  match updatedModuleList with
  | [] => ret (nodeToPathDic, nodePathToModuleDic)
  | newModule :: rest =>
      '(nodeToPathDic, nodePathToModuleDic) <-
        updateNewModule newModule nodeToPathDic nodePathToModuleDic 20 ;;
      register_modules rest nodeToPathDic nodePathToModuleDic
  end.

Definition checkBlockOverlap (blockNode : BlockVertex) (m_graph : ModuleObj)
  (sourceNode destNode : Node) (path destToSourcePath : Interval)
  (sourceDirection destDirection : Direction)
  (nodePartitionDic : dict Interval ModuleObj)
  (nodeToPathDic : NodeToPath) (nodePathToModuleDic : PathToModule)
  (sourceToDestArray destToSourceArray : bitarray)
  : Py (NodeToPath * PathToModule * dict Interval ModuleObj * list ModuleObj) :=
  let oldModuleList := nodes (graph m_graph) in
  let '(small, big) := path in
  if big - small <? 20
  then ret (nodeToPathDic, nodePathToModuleDic, nodePartitionDic, [m_graph])
  else
    let direction := bv_dir blockNode in
    let '(start, end_) := bv_path blockNode in
    if (small >=? start) && (big <=? end_) then
      let startOffSet := small - start in
      let endOffSet := big - start in
      '(nodePartitionDic, updatedModuleList) <-
        updateModuleTuple blockNode startOffSet endOffSet m_graph destNode
          destToSourcePath sourceDirection destDirection direction
          nodePartitionDic sourceToDestArray destToSourceArray ;;
      match updatedModuleList with
      | [newModule] =>
          '(nodeToPathDic, a) <- n2p_item nodeToPathDic destNode ;;
          _ <- set_add_at a (sorted_pair destToSourcePath) ;;
          ret (nodeToPathDic, point_all_to newModule nodePathToModuleDic,
               nodePartitionDic, updatedModuleList)
      | _ =>
          '(nodeToPathDic, nodePathToModuleDic) <-
            removeOldModule_loop oldModuleList nodeToPathDic nodePathToModuleDic ;;
          '(nodeToPathDic, nodePathToModuleDic) <-
            register_modules updatedModuleList nodeToPathDic nodePathToModuleDic ;;
          ret (nodeToPathDic, nodePathToModuleDic, nodePartitionDic, updatedModuleList)
      end
    else raise TypeError.

(** The rows of the module's table that lie on [node] and are not
    wholly to one side of the path: the pandas selection
    [qualifiedDf]. *)
Definition qualifiedBlocks (m_graph : ModuleObj) (node : Node)
  (pathStart pathEnd : Z) : list BlockVertex :=
  filter
    (fun b =>
       let '(start, end_) := bv_path b in
       eqb (bv_name b) node &&
       negb ((pathStart <=? start) && (pathEnd <=? start)) &&
       negb ((pathStart >=? end_) && (pathEnd >=? end_)))
    (nodes (graph m_graph)).

Fixpoint recursiveModuleVSNodeChecking (fuel : nat) (listOfModules : list ModuleObj)
  (sourceNode destNode : Node) (sourceToDestPath destToSourcePath : Interval)
  (sourceDirection destDirection : Direction)
  (nodePartitionDic : dict Interval ModuleObj)
  (nodeToPathDic : NodeToPath) (nodePathToModuleDic : PathToModule)
  (sourceToDestArray destToSourceArray : bitarray) {struct fuel}
  : Py (NodeToPath * PathToModule * dict Interval ModuleObj) :=
  match fuel with
  | O => raise OutOfFuel
  | S fuel =>
  let '(sourcePathStart, sourcePathEnd) := sourceToDestPath in
  let '(destPathStart, destPathEnd) := destToSourcePath in
  if sourcePathEnd - sourcePathStart <? 20
  then ret (nodeToPathDic, nodePathToModuleDic, nodePartitionDic)
  else
  (fix modules_loop (modules : list ModuleObj)
     : Py (NodeToPath * PathToModule * dict Interval ModuleObj) :=
     match modules with
     | [] => ret (nodeToPathDic, nodePathToModuleDic, nodePartitionDic)
     | m_graph :: later =>
     match qualifiedBlocks m_graph sourceNode sourcePathStart sourcePathEnd with
     | [] => modules_loop later
     | aBlock :: _ =>
     let block := bv_path aBlock in
     let '(blockStart, blockEnd) := block in
     let check path dest s2d d2s :=
       checkBlockOverlap aBlock m_graph sourceNode destNode path dest
         sourceDirection destDirection nodePartitionDic nodeToPathDic
         nodePathToModuleDic s2d d2s in
     let recurse modules path residue npd n2p p2m s2d d2s :=
       recursiveModuleVSNodeChecking fuel modules sourceNode destNode path residue
         sourceDirection destDirection npd n2p p2m s2d d2s in
     if (blockStart <=? sourcePathStart) && (sourcePathEnd <=? blockEnd) then
       '(nodeToPathDic, nodePathToModuleDic, nodePartitionDic, updatedModuleList) <-
         check sourceToDestPath destToSourcePath sourceToDestArray destToSourceArray ;;
       ret (nodeToPathDic, nodePathToModuleDic, nodePartitionDic)
     else if (sourcePathStart <=? blockStart) && (sourcePathEnd <=? blockEnd) then
       let offset := blockStart - sourcePathStart in
       boundary <- lift (choppedIndex sourceToDestArray offset) ;;
       let leftOverSourceArray := slice_to boundary sourceToDestArray in
       let correspondingSourceArray := slice_from boundary sourceToDestArray in
       let leftOverDestArray := slice_to boundary destToSourceArray in
       let correspondingDestArray := slice_from boundary destToSourceArray in
       '(checked, residue, leftOverSourceArray, leftOverDestArray) <-
         (if eqb sourceDirection destDirection then
            let newLeft := destPathStart + count_ones leftOverDestArray in
            checked <- check (blockStart, sourcePathEnd) (newLeft, destPathEnd)
                         correspondingSourceArray correspondingDestArray ;;
            ret (checked, (destPathStart, newLeft),
                 leftOverSourceArray, leftOverDestArray)
          else
            '(leftOverSourceArray, correspondingSourceArray,
              leftOverDestArray, correspondingDestArray) <-
              match sourceDirection with
              | Minus =>
                  boundary <- lift (choppedIndex sourceToDestArray
                                      (sourcePathEnd - blockStart)) ;;
                  ret (slice_from boundary sourceToDestArray,
                       slice_to boundary sourceToDestArray,
                       slice_from boundary destToSourceArray,
                       slice_to boundary destToSourceArray)
              | Plus =>
                  ret (leftOverSourceArray, correspondingSourceArray,
                       leftOverDestArray, correspondingDestArray)
              end ;;
            let newRight := destPathEnd - count_ones leftOverDestArray in
            checked <- check (blockStart, sourcePathEnd) (destPathStart, newRight)
                         correspondingSourceArray correspondingDestArray ;;
            ret (checked, (newRight, destPathEnd),
                 leftOverSourceArray, leftOverDestArray)) ;;
       let '(nodeToPathDic, nodePathToModuleDic, nodePartitionDic, updatedModuleList) :=
         checked in
       let modulesToBeVisited := updatedModuleList ++ later in
       recurse modulesToBeVisited (sourcePathStart, blockStart) residue
         nodePartitionDic nodeToPathDic nodePathToModuleDic
         leftOverSourceArray leftOverDestArray
     else if (sourcePathStart >=? blockStart) && (sourcePathEnd >=? blockEnd) then
       let offset := blockEnd - sourcePathStart in
       boundary <- lift (choppedIndex sourceToDestArray offset) ;;
       let correspondingSourceArray := slice_to boundary sourceToDestArray in
       let leftOverSourceArray := slice_from boundary sourceToDestArray in
       let correspondingDestArray := slice_to boundary destToSourceArray in
       let leftOverDestArray := slice_from boundary destToSourceArray in
       '(checked, residue, leftOverSourceArray, leftOverDestArray) <-
         (if eqb sourceDirection destDirection then
            let newRight := destPathStart + count_ones correspondingDestArray in
            checked <- check (sourcePathStart, blockEnd) (destPathStart, newRight)
                         correspondingSourceArray correspondingDestArray ;;
            ret (checked, (newRight, destPathEnd),
                 leftOverSourceArray, leftOverDestArray)
          else
            '(leftOverSourceArray, correspondingSourceArray,
              leftOverDestArray, correspondingDestArray) <-
              match sourceDirection with
              | Minus =>
                  boundary <- lift (choppedIndex sourceToDestArray
                                      (sourcePathEnd - blockEnd)) ;;
                  ret (slice_to boundary sourceToDestArray,
                       slice_from boundary sourceToDestArray,
                       slice_to boundary destToSourceArray,
                       slice_from boundary destToSourceArray)
              | Plus =>
                  ret (leftOverSourceArray, correspondingSourceArray,
                       leftOverDestArray, correspondingDestArray)
              end ;;
            let newLeft := destPathEnd - count_ones correspondingDestArray in
            checked <- check (sourcePathStart, blockEnd) (newLeft, destPathEnd)
                         correspondingSourceArray correspondingDestArray ;;
            ret (checked, (destPathStart, newLeft),
                 leftOverSourceArray, leftOverDestArray)) ;;
       let '(nodeToPathDic, nodePathToModuleDic, nodePartitionDic, updatedModuleList) :=
         checked in
       let modulesToBeVisited := updatedModuleList ++ later in
       recurse modulesToBeVisited (blockEnd, sourcePathEnd) residue
         nodePartitionDic nodeToPathDic nodePathToModuleDic
         leftOverSourceArray leftOverDestArray
     else if (sourcePathStart <=? blockStart) && (sourcePathEnd >=? blockEnd) then
       let offset1 := blockStart - sourcePathStart in
       let offset2 := blockEnd - sourcePathStart in
       boundary1 <- lift (choppedIndex sourceToDestArray offset1) ;;
       boundary2 <- lift (choppedIndex sourceToDestArray offset2) ;;
       let leftSourceArray := slice_to boundary1 sourceToDestArray in
       let midSourceArray := slice boundary1 boundary2 sourceToDestArray in
       let rightSourceArray := slice_from boundary2 sourceToDestArray in
       let leftDestArray := slice_to boundary1 destToSourceArray in
       let midDestArray := slice boundary1 boundary2 destToSourceArray in
       let rightDestArray := slice_from boundary2 destToSourceArray in
       '(checked, residue1, residue2, leftSourceArray, leftDestArray,
         rightSourceArray, rightDestArray) <-
         (if eqb sourceDirection destDirection then
            let newLeft := destPathStart + count_ones leftDestArray in
            let newRight := newLeft + count_ones midDestArray in
            checked <- check block (newLeft, newRight) midSourceArray midDestArray ;;
            ret (checked, (destPathStart, newLeft), (newRight, destPathEnd),
                 leftSourceArray, leftDestArray, rightSourceArray, rightDestArray)
          else
            '(leftSourceArray, midSourceArray, rightSourceArray,
              leftDestArray, midDestArray, rightDestArray) <-
              match sourceDirection with
              | Minus =>
                  boundary1 <- lift (choppedIndex sourceToDestArray
                                       (sourcePathEnd - blockEnd)) ;;
                  boundary2 <- lift (choppedIndex sourceToDestArray
                                       (sourcePathEnd - blockStart)) ;;
                  ret (slice_from boundary2 sourceToDestArray,
                       slice boundary1 boundary2 sourceToDestArray,
                       slice_to boundary1 sourceToDestArray,
                       slice_from boundary2 destToSourceArray,
                       slice boundary1 boundary2 destToSourceArray,
                       slice_to boundary1 destToSourceArray)
              | Plus =>
                  ret (leftSourceArray, midSourceArray, rightSourceArray,
                       leftDestArray, midDestArray, rightDestArray)
              end ;;
            let newRight := destPathEnd - count_ones leftDestArray in
            let newLeft := newRight - count_ones midDestArray in
            checked <- check block (newLeft, newRight) midSourceArray midDestArray ;;
            ret (checked, (newRight, destPathEnd), (destPathStart, newLeft),
                 leftSourceArray, leftDestArray, rightSourceArray, rightDestArray)) ;;
       let '(nodeToPathDic, nodePathToModuleDic, nodePartitionDic, updatedModuleList) :=
         checked in
       let modulesToBeVisited := updatedModuleList ++ later in
       '(nodeToPathDic, nodePathToModuleDic, nodePartitionDic) <-
         recurse modulesToBeVisited (sourcePathStart, blockStart) residue1
           nodePartitionDic nodeToPathDic nodePathToModuleDic
           leftSourceArray leftDestArray ;;
       '(nodeToPathDic, overlappedPairs) <-
         bedtoolCall sourceNode nodeToPathDic (blockEnd, sourcePathEnd) ;;
       modulesToBeVisited <- lift (modules_of nodePathToModuleDic overlappedPairs) ;;
       recurse modulesToBeVisited (blockEnd, sourcePathEnd) residue2
         nodePartitionDic nodeToPathDic nodePathToModuleDic
         rightSourceArray rightDestArray
     else ret (nodeToPathDic, nodePathToModuleDic, nodePartitionDic)
     end
     end) listOfModules
  end.

(** The loop of [nodeModulePartition] over the pieces of the free node:
    a piece that received no module becomes a module of its own. *)
Fixpoint register_free_blocks (destNode : Node) (destNodeBlocks : list Interval)
  (nodePartitionDic : dict Interval ModuleObj)
  (nodeToPathDic : NodeToPath) (nodePathToModuleDic : PathToModule)
  : Py (NodeToPath * PathToModule) :=
  match destNodeBlocks with
  | [] => ret (nodeToPathDic, nodePathToModuleDic)
  | element :: rest =>
      if dict_mem nodePartitionDic element
      then register_free_blocks destNode rest nodePartitionDic
             nodeToPathDic nodePathToModuleDic
      else
        '(nodeToPathDic, a) <- n2p_item nodeToPathDic destNode ;;
        _ <- set_add_at a element ;;
        newM_graph <- new_object (add_node empty_graph (destNode, element, Plus)) ;;
        register_free_blocks destNode rest nodePartitionDic nodeToPathDic
          (dict_set nodePathToModuleDic (destNode, element) newM_graph)
  end.

Definition nodeModulePartition (sourceNode destNode : Node)
  (sourceToDestPath destToSourcePath : Interval)
  (sourceDirection destDirection : Direction)
  (nodeToPathDic : NodeToPath) (nodePathToModuleDic : PathToModule)
  (sourceToDestArray destToSourceArray : bitarray)
  : Py (NodeToPath * PathToModule) :=
  '(nodeToPathDic, overlappedPairs) <-
    bedtoolCall sourceNode nodeToPathDic sourceToDestPath ;;
  connectedModules <- lift (modules_of nodePathToModuleDic overlappedPairs) ;;
  '(nodeToPathDic, nodePathToModuleDic, nodePartitionDic) <-
    recursiveModuleVSNodeChecking
      (S (Z.to_nat (snd sourceToDestPath - fst sourceToDestPath)))
      connectedModules sourceNode destNode sourceToDestPath destToSourcePath
      sourceDirection destDirection [] nodeToPathDic nodePathToModuleDic
      sourceToDestArray destToSourceArray ;;
  let destNodeBlocks := multiChopNodePartition (keys nodePartitionDic) (snd destNode) in
  register_free_blocks destNode destNodeBlocks nodePartitionDic
    nodeToPathDic nodePathToModuleDic.

(** ** Module-versus-module partition *)

(** [G.subgraph(nbunch)]: the nodes of [G] that are in [nbunch] with the
    edges between them. The nodes are listed in the order of [G]. *)
Definition subgraph {N W : Type} `{Eqb N} (G : MultiDiGraph N W) (nbunch : list N)
  : MultiDiGraph N W :=
  map (fun un => (fst un, filter (fun vk => mem (fst vk) nbunch) (snd un)))
    (filter (fun un => mem (fst un) nbunch) G).

(** [nx.compose(G, H)]: the nodes of [G], then those of [H], then the
    edges of [G] and of [H] under their keys; on a common edge the
    weight of [H] wins. *)
Definition compose {N W : Type} `{Eqb N} (G H : MultiDiGraph N W) : MultiDiGraph N W :=
  let R := add_nodes_from (add_nodes_from empty_graph (nodes G)) (nodes H) in
  fold_left
    (fun R e => let '(u, v, key, w) := e in add_edge_key R u v key w)
    (edges_data G ++ edges_data H) R.

(** [x in range(lo, hi)] *)
Definition in_range (x lo hi : Z) : bool := (lo <=? x) && (x <? hi).

(** The [for aBlock in list(module.nodes)] loop of
    [reverseModuleOnDirection]: [Some true] to return the module,
    [Some false] to return its sign reversal, [None] at the end. *)
Fixpoint reverseModuleOnDirection_loop (node : Node) (path : Interval)
  (direction : Direction) (blocks : list BlockVertex) : option bool :=
  match blocks with
  | [] => None
  | aBlock :: rest =>
      let '(blockNode, block, blockDirection) := aBlock in
      if eqb node blockNode &&
         in_range (fst path) (fst block - 10) (fst block + 10) &&
         in_range (snd path) (snd block - 30) (snd block + 30)
      then Some (eqb direction blockDirection)
      else reverseModuleOnDirection_loop node path direction rest
  end.

Definition reverseModuleOnDirection (node : Node) (path : Interval)
  (direction : Direction) (module : ModuleObj) : Py (option ModuleObj) :=
  match reverseModuleOnDirection_loop node path direction (nodes (graph module)) with
  | None => ret None
  | Some true => ret (Some module)
  | Some false =>
      reversed <- new_object (signReverse (graph module)) ;;
      ret (Some reversed)
  end.

(** The last block of the module on [node] with interval [path]
    ([targetABlock], [targetBBlock]; [None] when there is none). *)
Definition target_block (module : ModuleObj) (node : Node) (path : Interval)
  : option BlockVertex :=
  fold_left
    (fun found block =>
       if eqb (bv_name block) node && eqb (bv_path block) path
       then Some block else found)
    (nodes (graph module)) None.

(** [G.add_edge(u, v, ...)] where [u] or [v] may be [None]: networkx
    refuses [None] as a node. *)
Definition add_edge_opt (G : Module) (u v : option BlockVertex) (w : bitarray)
  : result Module :=
  match u, v with
  | Some u, Some v => Ok (add_edge G u v w)
  | _, _ => Raise (ValueError "None cannot be a node")
  end.

(** [(targetBBlock[0], targetBBlock[1], d)] *)
Definition retarget (targetBBlock : option BlockVertex) (d : option Direction)
  : result (option BlockVertex) :=
  match targetBBlock with
  | None => Raise TypeError
  | Some b =>
      match d with
      | Some d => Ok (Some (bv_name b, bv_path b, d))
      | None => Ok None
      end
  end.

Definition opt_dir_eqb (a b : option Direction) : bool :=
  match a, b with
  | Some x, Some y => eqb x y
  | None, None => true
  | _, _ => false
  end.

Definition joinTwoModules (moduleA moduleB : ModuleObj)
  (nodeA : Node) (pathA : Interval) (aDirection : Direction)
  (nodeB : Node) (pathB : Interval) (bDirection : Direction)
  (arrayA arrayB : bitarray) : Py ModuleObj :=
  let moduleUnion := graph moduleA in
  let aModuleList := nodes (graph moduleA) in
  let bModuleList := nodes (graph moduleB) in
  let targetABlock := target_block moduleA nodeA pathA in
  let targetBBlock := target_block moduleB nodeB pathB in
  let aDirectionInModuleA := option_map bv_dir targetABlock in
  let bDirectionInModuleB := option_map bv_dir targetBBlock in
  let aNodeBlockSet := map (fun b => (bv_name b, bv_path b)) aModuleList in
  let leftOverBlocks :=
    filter (fun b => negb (mem (bv_name b, bv_path b) aNodeBlockSet)) bModuleList in
  moduleUnion <- lift
    match leftOverBlocks with
    | [] => Ok moduleUnion
    | _ :: _ =>
        let moduleB_unique := subgraph (graph moduleB) leftOverBlocks in
        let as_is := opt_dir_eqb (Some aDirection) aDirectionInModuleA in
        let arrayA' := if as_is then arrayA else rev arrayA in
        let arrayB' := if as_is then arrayB else rev arrayB in
        let* '(moduleUnion, target) :=
          if eqb aDirection bDirection then
            if opt_dir_eqb aDirectionInModuleA bDirectionInModuleB then
              Ok (compose moduleUnion moduleB_unique, targetBBlock)
            else
              let moduleUnion := compose moduleUnion (signReverse moduleB_unique) in
              let* target := retarget targetBBlock aDirectionInModuleA in
              Ok (moduleUnion, target)
          else
            if opt_dir_eqb aDirectionInModuleA bDirectionInModuleB then
              let moduleUnion := compose moduleUnion (signReverse moduleB_unique) in
              let* target :=
                retarget targetBBlock
                  (Some (if as_is then bDirection else aDirection)) in
              Ok (moduleUnion, target)
            else
              Ok (compose moduleUnion moduleB_unique, targetBBlock) in
        let* moduleUnion := add_edge_opt moduleUnion targetABlock target arrayA' in
        add_edge_opt moduleUnion target targetABlock arrayB'
    end ;;
  new_object moduleUnion.

(** The two parts of a chop, by the role they play for the block that
    was chopped: the part holding its left piece and the part holding
    its right piece ([l[0], l[1]] for ["+"], [l[1], l[0]] for ["-"]). *)
Definition left_right (direction : Direction) (l : list ModuleObj)
  : Py (ModuleObj * ModuleObj) :=
  match l with
  | [l0; l1] =>
      ret (match direction with Plus => (l0, l1) | Minus => (l1, l0) end)
  | _ => raise IndexError
  end.

Fixpoint chopModulesAndUpdateGraph (fuel : nat) (listOfModules : list ModuleObj)
  (node : Node) (path : Interval) (direction : Direction)
  (currentPartitionBlockDic : dict BlockVertex ModuleObj)
  (currentModuleUpdateDic : dict ModuleObj (list ModuleObj))
  (nodeToPathDic : NodeToPath) (nodePathToModuleDic : PathToModule) {struct fuel}
  : Py (dict BlockVertex ModuleObj * dict ModuleObj (list ModuleObj) * NodeToPath) :=
  match fuel with
  | O => raise OutOfFuel
  | S fuel =>
  let '(pathStart, pathEnd) := path in
  (fix modules_loop (modules : list ModuleObj)
     : Py (dict BlockVertex ModuleObj * dict ModuleObj (list ModuleObj) * NodeToPath) :=
     match modules with
     | [] => ret (currentPartitionBlockDic, currentModuleUpdateDic, nodeToPathDic)
     | m_graph :: later =>
     match qualifiedBlocks m_graph node pathStart pathEnd with
     | [] => modules_loop later
     | aBlock :: _ =>
     let '(sourceNode, block, blockDirection) := aBlock in
     let '(blockStart, blockEnd) := block in
     if (blockStart <=? pathStart) && (pathEnd <=? blockEnd) then
       let leftOffset := pathStart - blockStart in
       let rightOffset := pathEnd - blockStart in
       if (pathStart =? blockStart) && (pathEnd =? blockEnd) then
         ret (dict_set currentPartitionBlockDic (node, path, direction) m_graph,
              currentModuleUpdateDic, nodeToPathDic)
       else if pathStart =? blockStart then
         updatedModuleList <- partitionToTwoModules_obj aBlock rightOffset m_graph ;;
         '(l, r) <- left_right blockDirection updatedModuleList ;;
         ret (dict_set currentPartitionBlockDic (node, path, direction) l,
              dict_set currentModuleUpdateDic m_graph updatedModuleList, nodeToPathDic)
       else if pathEnd =? blockEnd then
         updatedModuleList <- partitionToTwoModules_obj aBlock leftOffset m_graph ;;
         '(l, r) <- left_right blockDirection updatedModuleList ;;
         ret (dict_set currentPartitionBlockDic (node, path, direction) r,
              dict_set currentModuleUpdateDic m_graph updatedModuleList, nodeToPathDic)
       else
         updatedModuleList <- three_way_chop aBlock leftOffset rightOffset m_graph ;;
         match updatedModuleList with
         | [u0; u1; u2] =>
             ret (dict_set currentPartitionBlockDic (node, path, direction) u1,
                  dict_set currentModuleUpdateDic m_graph updatedModuleList,
                  nodeToPathDic)
         | _ => raise IndexError
         end
     else if (pathStart >=? blockStart) && (pathEnd >=? blockEnd) then
       '(currentPartitionBlockDic, currentModuleUpdateDic) <-
         (if (pathStart - blockStart >? 0) && negb (blockEnd - pathStart =? 0) then
            updatedModuleList <-
              partitionToTwoModules_obj aBlock (pathStart - blockStart) m_graph ;;
            '(l, r) <- left_right blockDirection updatedModuleList ;;
            ret (dict_set currentPartitionBlockDic
                   (node, (pathStart, blockEnd), direction) r,
                 if negb (pathStart =? blockEnd)
                 then dict_set currentModuleUpdateDic m_graph updatedModuleList
                 else currentModuleUpdateDic)
          else
            ret (dict_set currentPartitionBlockDic
                   (node, (pathStart, blockEnd), direction) m_graph,
                 currentModuleUpdateDic)) ;;
       chopModulesAndUpdateGraph fuel (m_graph :: later) node (blockEnd, pathEnd)
         direction currentPartitionBlockDic currentModuleUpdateDic
         nodeToPathDic nodePathToModuleDic
     else if (pathStart <=? blockStart) && (pathEnd <=? blockEnd) then
       '(currentPartitionBlockDic, currentModuleUpdateDic) <-
         (if (pathEnd - blockStart >? 0) && negb (blockEnd - pathEnd =? 0) then
            updatedModuleList <-
              partitionToTwoModules_obj aBlock (pathEnd - blockStart) m_graph ;;
            '(l, r) <- left_right blockDirection updatedModuleList ;;
            ret (dict_set currentPartitionBlockDic
                   (node, (blockStart, pathEnd), direction) l,
                 if negb (pathEnd =? blockEnd)
                 then dict_set currentModuleUpdateDic m_graph updatedModuleList
                 else currentModuleUpdateDic)
          else
            ret (dict_set currentPartitionBlockDic
                   (node, (blockStart, pathEnd), direction) m_graph,
                 currentModuleUpdateDic)) ;;
       chopModulesAndUpdateGraph fuel (m_graph :: later) node (pathStart, blockStart)
         direction currentPartitionBlockDic currentModuleUpdateDic
         nodeToPathDic nodePathToModuleDic
     else if (pathStart <=? blockStart) && (pathEnd >=? blockEnd) then
       let currentPartitionBlockDic :=
         dict_set currentPartitionBlockDic
           (node, (blockStart, blockEnd), direction) m_graph in
       '(currentPartitionBlockDic, currentModuleUpdateDic, nodeToPathDic) <-
         chopModulesAndUpdateGraph fuel (m_graph :: later) node (pathStart, blockStart)
           direction currentPartitionBlockDic currentModuleUpdateDic
           nodeToPathDic nodePathToModuleDic ;;
       '(nodeToPathDic, overlappedPairs) <-
         bedtoolCall node nodeToPathDic (blockEnd, pathEnd) ;;
       modulesToBeVisited <- lift (modules_of nodePathToModuleDic overlappedPairs) ;;
       chopModulesAndUpdateGraph fuel modulesToBeVisited node (blockEnd, pathEnd)
         direction currentPartitionBlockDic currentModuleUpdateDic
         nodeToPathDic nodePathToModuleDic
     else ret (currentPartitionBlockDic, currentModuleUpdateDic, nodeToPathDic)
     end
     end) listOfModules
  end.

Definition updateModuleModuleTuple (sourceNode : Node)
  (sourceToDestPath block : Interval) (startOffSet endOffSet : Z)
  (source_m_graph : ModuleObj) (destNode : Node) (destToSourcePath : Interval)
  (sourceDirection destDirection blockDirection : Direction)
  (dest_m_graph : ModuleObj) (sourceToDestArray destToSourceArray : bitarray)
  : Py (ModuleObj * list ModuleObj) :=
  let join module :=
    joinTwoModules module dest_m_graph sourceNode sourceToDestPath sourceDirection
      destNode destToSourcePath destDirection sourceToDestArray destToSourceArray in
  let blockNode : BlockVertex := (sourceNode, block, blockDirection) in
  if (startOffSet =? 0) && (fst block + endOffSet =? snd block) then
    module <- join source_m_graph ;;
    ret (module, [module])
  else if startOffSet =? 0 then
    updatedModuleList <- partitionToTwoModules_obj blockNode endOffSet source_m_graph ;;
    match updatedModuleList with
    | [u0; u1] =>
        match blockDirection with
        | Plus => newModule <- join u0 ;; ret (newModule, [newModule; u1])
        | Minus => newModule <- join u1 ;; ret (newModule, [u0; newModule])
        end
    | _ => raise IndexError
    end
  else if fst block + endOffSet =? snd block then
    updatedModuleList <- partitionToTwoModules_obj blockNode startOffSet source_m_graph ;;
    match updatedModuleList with
    | [u0; u1] =>
        match blockDirection with
        | Plus => newModule <- join u1 ;; ret (newModule, [u0; newModule])
        | Minus => newModule <- join u0 ;; ret (newModule, [newModule; u1])
        end
    | _ => raise IndexError
    end
  else if negb (startOffSet =? 0) && negb (endOffSet =? 0) then
    updatedModuleList <- three_way_chop blockNode startOffSet endOffSet source_m_graph ;;
    match updatedModuleList with
    | [u0; u1; u2] =>
        newModule <- join u1 ;;
        ret (newModule, updatedModuleList)
    | _ => raise IndexError
    end
  else raise TypeError.

Definition checkModuleModuleOverlap (blockNode : BlockVertex)
  (source_m_graph : ModuleObj) (sourceNode destNode : Node)
  (sourceToDestPath destToSourcePath : Interval)
  (sourceDirection destDirection : Direction) (dest_m_graph : ModuleObj)
  (sourceToDestArray destToSourceArray : bitarray)
  (nodeToPathDic : NodeToPath) (nodePathToModuleDic : PathToModule)
  : Py (NodeToPath * PathToModule) :=
  let '(small, big) := sourceToDestPath in
  let '(node, block, direction) := blockNode in
  let '(start, end_) := block in
  if (small >=? start) && (big <=? end_) then
    let startOffSet := small - start in
    let endOffSet := big - start in
    '(newModule, updatedModuleList) <-
      updateModuleModuleTuple node sourceToDestPath block startOffSet endOffSet
        source_m_graph destNode destToSourcePath sourceDirection destDirection
        direction dest_m_graph sourceToDestArray destToSourceArray ;;
    '(nodeToPathDic, nodePathToModuleDic) <-
      removeOldModule source_m_graph nodeToPathDic nodePathToModuleDic ;;
    '(nodeToPathDic, nodePathToModuleDic) <-
      removeOldModule dest_m_graph nodeToPathDic nodePathToModuleDic ;;
    register_modules updatedModuleList nodeToPathDic nodePathToModuleDic
  else raise TypeError.

(** [m in set(nodePathToModuleDic.values())] *)
Definition registered (m : ModuleObj) (nodePathToModuleDic : PathToModule) : bool :=
  mem m (values nodePathToModuleDic).

(** Rows of a module's table selected by node and a test on the
    interval. *)
Definition rows_where (m : ModuleObj) (node : Node) (test : Z -> Z -> bool)
  : list BlockVertex :=
  filter (fun b => eqb (bv_name b) node && test (fst (bv_path b)) (snd (bv_path b)))
    (nodes (graph m)).

(** [min(l)] and [max(l)] of a list given with its first element *)
Definition list_min (x : Z) (l : list Z) : Z := fold_left Z.min l x.
Definition list_max (x : Z) (l : list Z) : Z := fold_left Z.max l x.

(** Chop the destination module at offset [k] of the destination block
    and register both parts; returns the part holding the left piece of
    the block and the part holding the right piece. *)
Definition chop_dest (destNode : Node) (destToSourcePath : Interval)
  (dest_block_direction : Direction) (k : Z) (correctDirectionModule : ModuleObj)
  (nodeToPathDic : NodeToPath) (nodePathToModuleDic : PathToModule)
  : Py (ModuleObj * ModuleObj * NodeToPath * PathToModule) :=
  choppedModuleList <-
    partitionToTwoModules_obj (destNode, destToSourcePath, dest_block_direction) k
      correctDirectionModule ;;
  '(l, r) <- left_right dest_block_direction choppedModuleList ;;
  '(nodeToPathDic, nodePathToModuleDic) <-
    register_modules choppedModuleList nodeToPathDic nodePathToModuleDic ;;
  ret (l, r, nodeToPathDic, nodePathToModuleDic).

Fixpoint recursiveModuleVSModuleChecking (fuel : nat) (listOfModules : list ModuleObj)
  (sourceNode destNode : Node) (sourceToDestPath destToSourcePath : Interval)
  (sourceDirection destDirection : Direction) (dest_m_graph : ModuleObj)
  (nodeToPathDic : NodeToPath) (nodePathToModuleDic : PathToModule)
  (sourceToDestArray destToSourceArray : bitarray) {struct fuel}
  : Py (NodeToPath * PathToModule) :=
  match fuel with
  | O => raise OutOfFuel
  | S fuel =>
  let '(sourcePathStart, sourcePathEnd) := sourceToDestPath in
  let '(destPathStart, destPathEnd) := destToSourcePath in
  let dest_block_direction := destDirection in
  let same_direction := eqb sourceDirection destDirection in
  let recurse modules path residue dest n2p p2m s2d d2s :=
    recursiveModuleVSModuleChecking fuel modules sourceNode destNode path residue
      sourceDirection destDirection dest n2p p2m s2d d2s in
  correctDirectionModule <-
    reverseModuleOnDirection destNode destToSourcePath destDirection dest_m_graph ;;
  match correctDirectionModule with
  | None => ret (nodeToPathDic, nodePathToModuleDic)
  | Some correctDirectionModule =>
  if sourcePathEnd - sourcePathStart <? 20
  then ret (nodeToPathDic, nodePathToModuleDic)
  else if negb (registered dest_m_graph nodePathToModuleDic)
  then ret (nodeToPathDic, nodePathToModuleDic)
  else
  let chop k n2p p2m :=
    chop_dest destNode destToSourcePath dest_block_direction k
      correctDirectionModule n2p p2m in
  (* first loop: family membership, long overlaps, truncation; its test
     [tuple(dest_m_graph) == module] compares a tuple with a list and
     never holds *)
  returned <-
    (fix first_loop (modules : list ModuleObj)
       : Py (option (NodeToPath * PathToModule)) :=
       match modules with
       | [] => ret None
       | source_m_graph :: later =>
       let sourceFamily :=
         rows_where source_m_graph sourceNode
           (fun st en => (st <=? sourcePathStart) && (en >=? sourcePathEnd)) in
       let destFamily :=
         rows_where source_m_graph destNode
           (fun st en => (st <=? destPathStart) && (en >=? destPathEnd)) in
       match sourceFamily, destFamily with
       | _ :: _, _ :: _ => ret (Some (nodeToPathDic, nodePathToModuleDic))
       | _, _ =>
       let destInModule := rows_where source_m_graph destNode (fun _ _ => true) in
       let tailOverlapped :=
         rows_where source_m_graph sourceNode
           (fun st en => (st <=? sourcePathStart) && (en >? sourcePathStart)) in
       let headOverlapped :=
         rows_where source_m_graph sourceNode
           (fun st en => (st <? sourcePathEnd) && (en >=? sourcePathEnd)) in
       let perfectFit :=
         rows_where source_m_graph sourceNode
           (fun st en => (st =? sourcePathStart) && (en =? sourcePathEnd)) in
       match destInModule with
       | [] => first_loop later
       | _ :: _ =>
       match perfectFit, nodes (graph dest_m_graph) with
       | _ :: _, [_] => ret None
       | _, _ =>
       match tailOverlapped with
       | row :: rows =>
           let newLeft :=
             list_min (snd (bv_path row)) (map (fun b => snd (bv_path b)) rows) in
           if newLeft - sourcePathStart >? 100
           then ret (Some (nodeToPathDic, nodePathToModuleDic))
           else if newLeft >=? sourcePathEnd
           then ret (Some (nodeToPathDic, nodePathToModuleDic))
           else
             let sourceToDestPath := (newLeft, sourcePathEnd) in
             if sourcePathEnd - newLeft <? 50
             then ret (Some (nodeToPathDic, nodePathToModuleDic))
             else
               let offset := newLeft - fst sourceToDestPath in
               boundary <- lift (choppedIndex sourceToDestArray offset) ;;
               let leftOverSourceArray := slice_to boundary sourceToDestArray in
               let correspondingSourceArray := slice_from boundary sourceToDestArray in
               let leftOverDestArray := slice_to boundary destToSourceArray in
               let correspondingDestArray := slice_from boundary destToSourceArray in
               '(nodeToPathDic, nodePathToModuleDic) <-
                 removeOldModule dest_m_graph nodeToPathDic nodePathToModuleDic ;;
               '(dest_corres_module, destToSourcePath, nodeToPathDic,
                 nodePathToModuleDic, correspondingSourceArray,
                 correspondingDestArray) <-
                 (if same_direction then
                    let newLeft := destPathStart + count_ones leftOverDestArray in
                    '(l, r, nodeToPathDic, nodePathToModuleDic) <-
                      chop (count_ones leftOverDestArray)
                        nodeToPathDic nodePathToModuleDic ;;
                    ret (r, (newLeft, destPathEnd), nodeToPathDic,
                         nodePathToModuleDic, correspondingSourceArray,
                         correspondingDestArray)
                  else
                    '(leftOverDestArray, correspondingSourceArray,
                      correspondingDestArray) <-
                      match sourceDirection with
                      | Minus =>
                          boundary <- lift (choppedIndex sourceToDestArray
                                              (snd sourceToDestPath - newLeft)) ;;
                          ret (slice_from boundary destToSourceArray,
                               slice_to boundary sourceToDestArray,
                               slice_to boundary destToSourceArray)
                      | Plus =>
                          ret (leftOverDestArray, correspondingSourceArray,
                               correspondingDestArray)
                      end ;;
                    let newRight := destPathEnd - count_ones leftOverDestArray in
                    '(l, r, nodeToPathDic, nodePathToModuleDic) <-
                      chop (newRight - destPathStart)
                        nodeToPathDic nodePathToModuleDic ;;
                    ret (l, (destPathStart, newRight), nodeToPathDic,
                         nodePathToModuleDic, correspondingSourceArray,
                         correspondingDestArray)) ;;
               done <- recurse listOfModules sourceToDestPath destToSourcePath
                         dest_corres_module nodeToPathDic nodePathToModuleDic
                         correspondingSourceArray correspondingDestArray ;;
               ret (Some done)
       | [] =>
       match headOverlapped with
       | row :: rows =>
           let newRight :=
             list_max (fst (bv_path row)) (map (fun b => fst (bv_path b)) rows) in
           if sourcePathEnd - newRight >? 100
           then ret (Some (nodeToPathDic, nodePathToModuleDic))
           else if newRight <=? sourcePathStart
           then ret (Some (nodeToPathDic, nodePathToModuleDic))
           else
             let sourceToDestPath := (sourcePathStart, newRight) in
             if newRight - sourcePathStart <? 50
             then ret (Some (nodeToPathDic, nodePathToModuleDic))
             else
               let offset := newRight - fst sourceToDestPath in
               boundary <- lift (choppedIndex sourceToDestArray offset) ;;
               let correspondingSourceArray := slice_to boundary sourceToDestArray in
               let leftOverSourceArray := slice_from boundary sourceToDestArray in
               let correspondingDestArray := slice_to boundary destToSourceArray in
               let leftOverDestArray := slice_from boundary destToSourceArray in
               '(nodeToPathDic, nodePathToModuleDic) <-
                 removeOldModule dest_m_graph nodeToPathDic nodePathToModuleDic ;;
               '(dest_corres_module, destToSourcePath, nodeToPathDic,
                 nodePathToModuleDic, correspondingSourceArray,
                 correspondingDestArray) <-
                 (if same_direction then
                    let newRight := destPathStart + count_ones correspondingDestArray in
                    '(l, r, nodeToPathDic, nodePathToModuleDic) <-
                      chop (count_ones correspondingDestArray)
                        nodeToPathDic nodePathToModuleDic ;;
                    ret (l, (destPathStart, newRight), nodeToPathDic,
                         nodePathToModuleDic, correspondingSourceArray,
                         correspondingDestArray)
                  else
                    '(correspondingSourceArray, correspondingDestArray) <-
                      match sourceDirection with
                      | Minus =>
                          boundary <- lift (choppedIndex sourceToDestArray
                                              (snd sourceToDestPath - newRight)) ;;
                          ret (slice_from boundary sourceToDestArray,
                               slice_from boundary destToSourceArray)
                      | Plus =>
                          ret (correspondingSourceArray, correspondingDestArray)
                      end ;;
                    let newLeft := destPathEnd - count_ones correspondingDestArray in
                    '(l, r, nodeToPathDic, nodePathToModuleDic) <-
                      chop (newLeft - destPathStart)
                        nodeToPathDic nodePathToModuleDic ;;
                    ret (r, (newLeft, destPathEnd), nodeToPathDic,
                         nodePathToModuleDic, correspondingSourceArray,
                         correspondingDestArray)) ;;
               done <- recurse listOfModules sourceToDestPath destToSourcePath
                         dest_corres_module nodeToPathDic nodePathToModuleDic
                         correspondingSourceArray correspondingDestArray ;;
               ret (Some done)
       | [] => first_loop later
       end
       end
       end
       end
       end
       end) listOfModules ;;
  match returned with
  | Some done => ret done
  | None =>
  (* second loop: the first registered module with a block on the path *)
  (fix second_loop (modules : list ModuleObj) : Py (NodeToPath * PathToModule) :=
     match modules with
     | [] => ret (nodeToPathDic, nodePathToModuleDic)
     | source_m_graph :: later =>
     if negb (registered source_m_graph nodePathToModuleDic)
     then second_loop later
     else
     match qualifiedBlocks source_m_graph sourceNode sourcePathStart sourcePathEnd with
     | [] => second_loop later
     | aBlock :: _ =>
     let block := bv_path aBlock in
     let '(blockStart, blockEnd) := block in
     let check path dest dest_module s2d d2s n2p p2m :=
       checkModuleModuleOverlap aBlock source_m_graph sourceNode destNode path dest
         sourceDirection destDirection dest_module s2d d2s n2p p2m in
     let visit path residue residueList s2d d2s n2p p2m :=
       '(n2p, overlappedPairs) <- bedtoolCall sourceNode n2p path ;;
       modulesToBeVisited <- lift (modules_of p2m overlappedPairs) ;;
       recurse modulesToBeVisited path residue residueList n2p p2m s2d d2s in
     if (blockStart <=? sourcePathStart) && (sourcePathEnd <=? blockEnd) then
       check sourceToDestPath destToSourcePath dest_m_graph
         sourceToDestArray destToSourceArray nodeToPathDic nodePathToModuleDic
     else if (sourcePathStart <=? blockStart) && (sourcePathEnd <=? blockEnd) then
       if same_object source_m_graph dest_m_graph
       then ret (nodeToPathDic, nodePathToModuleDic)
       else
         let offset := blockStart - sourcePathStart in
         boundary <- lift (choppedIndex sourceToDestArray offset) ;;
         let leftOverSourceArray := slice_to boundary sourceToDestArray in
         let correspondingSourceArray := slice_from boundary sourceToDestArray in
         let leftOverDestArray := slice_to boundary destToSourceArray in
         let correspondingDestArray := slice_from boundary destToSourceArray in
         '(nodeToPathDic, nodePathToModuleDic) <-
           removeOldModule dest_m_graph nodeToPathDic nodePathToModuleDic ;;
         '(nodeToPathDic, nodePathToModuleDic, residue, residueList,
           leftOverSourceArray, leftOverDestArray) <-
           (if same_direction then
              let newLeft := destPathStart + count_ones leftOverDestArray in
              '(l, r, nodeToPathDic, nodePathToModuleDic) <-
                chop (count_ones leftOverDestArray) nodeToPathDic nodePathToModuleDic ;;
              '(nodeToPathDic, nodePathToModuleDic) <-
                check (blockStart, sourcePathEnd) (newLeft, destPathEnd) r
                  correspondingSourceArray correspondingDestArray
                  nodeToPathDic nodePathToModuleDic ;;
              ret (nodeToPathDic, nodePathToModuleDic, (destPathStart, newLeft), l,
                   leftOverSourceArray, leftOverDestArray)
            else
              '(leftOverSourceArray, correspondingSourceArray,
                leftOverDestArray, correspondingDestArray) <-
                match sourceDirection with
                | Minus =>
                    boundary <- lift (choppedIndex sourceToDestArray
                                        (sourcePathEnd - blockStart)) ;;
                    ret (slice_from boundary sourceToDestArray,
                         slice_to boundary sourceToDestArray,
                         slice_from boundary destToSourceArray,
                         slice_to boundary destToSourceArray)
                | Plus =>
                    ret (leftOverSourceArray, correspondingSourceArray,
                         leftOverDestArray, correspondingDestArray)
                end ;;
              let newRight := destPathStart + count_ones correspondingDestArray in
              '(l, r, nodeToPathDic, nodePathToModuleDic) <-
                chop (newRight - destPathStart) nodeToPathDic nodePathToModuleDic ;;
              '(nodeToPathDic, nodePathToModuleDic) <-
                check (blockStart, sourcePathEnd) (destPathStart, newRight) l
                  correspondingSourceArray correspondingDestArray
                  nodeToPathDic nodePathToModuleDic ;;
              ret (nodeToPathDic, nodePathToModuleDic, (newRight, destPathEnd), r,
                   leftOverSourceArray, leftOverDestArray)) ;;
         visit (sourcePathStart, blockStart) residue residueList
           leftOverSourceArray leftOverDestArray nodeToPathDic nodePathToModuleDic
     else if (sourcePathStart >=? blockStart) && (sourcePathEnd >=? blockEnd) then
       if same_object source_m_graph dest_m_graph
       then ret (nodeToPathDic, nodePathToModuleDic)
       else
         let offset := blockEnd - sourcePathStart in
         boundary <- lift (choppedIndex sourceToDestArray offset) ;;
         let correspondingSourceArray := slice_to boundary sourceToDestArray in
         let leftOverSourceArray := slice_from boundary sourceToDestArray in
         let correspondingDestArray := slice_to boundary destToSourceArray in
         let leftOverDestArray := slice_from boundary destToSourceArray in
         '(nodeToPathDic, nodePathToModuleDic) <-
           removeOldModule dest_m_graph nodeToPathDic nodePathToModuleDic ;;
         '(nodeToPathDic, nodePathToModuleDic, residue, residueList,
           leftOverSourceArray, leftOverDestArray) <-
           (if same_direction then
              let newRight := destPathStart + count_ones correspondingDestArray in
              '(l, r, nodeToPathDic, nodePathToModuleDic) <-
                chop (count_ones correspondingDestArray)
                  nodeToPathDic nodePathToModuleDic ;;
              '(nodeToPathDic, nodePathToModuleDic) <-
                check (sourcePathStart, blockEnd) (destPathStart, newRight) l
                  correspondingSourceArray correspondingDestArray
                  nodeToPathDic nodePathToModuleDic ;;
              ret (nodeToPathDic, nodePathToModuleDic, (newRight, destPathEnd), r,
                   leftOverSourceArray, leftOverDestArray)
            else
              '(leftOverSourceArray, correspondingSourceArray,
                leftOverDestArray, correspondingDestArray) <-
                match sourceDirection with
                | Minus =>
                    boundary <- lift (choppedIndex sourceToDestArray
                                        (sourcePathEnd - blockEnd)) ;;
                    ret (slice_to boundary sourceToDestArray,
                         slice_from boundary sourceToDestArray,
                         slice_to boundary destToSourceArray,
                         slice_from boundary destToSourceArray)
                | Plus =>
                    ret (leftOverSourceArray, correspondingSourceArray,
                         leftOverDestArray, correspondingDestArray)
                end ;;
              let newLeft := destPathStart + count_ones leftOverDestArray in
              '(l, r, nodeToPathDic, nodePathToModuleDic) <-
                chop (newLeft - destPathStart) nodeToPathDic nodePathToModuleDic ;;
              '(nodeToPathDic, nodePathToModuleDic) <-
                check (sourcePathStart, blockEnd) (newLeft, destPathEnd) r
                  correspondingSourceArray correspondingDestArray
                  nodeToPathDic nodePathToModuleDic ;;
              ret (nodeToPathDic, nodePathToModuleDic, (destPathStart, newLeft), l,
                   leftOverSourceArray, leftOverDestArray)) ;;
         visit (blockEnd, sourcePathEnd) residue residueList
           leftOverSourceArray leftOverDestArray nodeToPathDic nodePathToModuleDic
     else if (sourcePathStart <=? blockStart) && (sourcePathEnd >=? blockEnd) then
       if same_object source_m_graph dest_m_graph
       then ret (nodeToPathDic, nodePathToModuleDic)
       else
         let offset1 := blockStart - sourcePathStart in
         let offset2 := blockEnd - sourcePathStart in
         '(nodeToPathDic, nodePathToModuleDic) <-
           removeOldModule dest_m_graph nodeToPathDic nodePathToModuleDic ;;
         boundary1 <- lift (choppedIndex sourceToDestArray offset1) ;;
         boundary2 <- lift (choppedIndex sourceToDestArray offset2) ;;
         let leftSourceArray := slice_to boundary1 sourceToDestArray in
         let midSourceArray := slice boundary1 boundary2 sourceToDestArray in
         let rightSourceArray := slice_from boundary2 sourceToDestArray in
         let leftDestArray := slice_to boundary1 destToSourceArray in
         let midDestArray := slice boundary1 boundary2 destToSourceArray in
         let rightDestArray := slice_from boundary2 destToSourceArray in
         '(leftSourceArray, midSourceArray, rightSourceArray,
           leftDestArray, midDestArray, rightDestArray) <-
           (if same_direction then
              ret (leftSourceArray, midSourceArray, rightSourceArray,
                   leftDestArray, midDestArray, rightDestArray)
            else
              match sourceDirection with
              | Minus =>
                  boundary1 <- lift (choppedIndex sourceToDestArray
                                       (sourcePathEnd - blockEnd)) ;;
                  boundary2 <- lift (choppedIndex sourceToDestArray
                                       (sourcePathEnd - blockStart)) ;;
                  ret (slice_from boundary2 sourceToDestArray,
                       slice boundary1 boundary2 sourceToDestArray,
                       slice_to boundary1 sourceToDestArray,
                       slice_from boundary2 destToSourceArray,
                       slice boundary1 boundary2 destToSourceArray,
                       slice_to boundary1 destToSourceArray)
              | Plus =>
                  ret (leftSourceArray, midSourceArray, rightSourceArray,
                       leftDestArray, midDestArray, rightDestArray)
              end) ;;
         let '(newLeft, newRight) :=
           if same_direction then
             let newLeft := destPathStart + count_ones leftDestArray in
             (newLeft, newLeft + count_ones midDestArray)
           else
             let newRight := destPathEnd - count_ones leftDestArray in
             (newRight - count_ones midDestArray, newRight) in
         first_module_list <-
           partitionToTwoModules_obj (destNode, destToSourcePath, dest_block_direction)
             (newRight - destPathStart) correctDirectionModule ;;
         '(f_left, f_right) <- left_right dest_block_direction first_module_list ;;
         let newBlockNode : BlockVertex :=
           (destNode, (destPathStart, newRight), dest_block_direction) in
         second_module_list <-
           partitionToTwoModules_obj newBlockNode (newLeft - destPathStart) f_left ;;
         '(s_left, s_right) <- left_right dest_block_direction second_module_list ;;
         let updatedModuleList :=
           if same_direction then [s_left; s_right; f_right]
           else [f_right; s_right; s_left] in
         let residueList1 := if same_direction then s_left else f_right in
         let residueList2 := if same_direction then f_right else s_left in
         let dest_corres_module := s_right in
         '(nodeToPathDic, nodePathToModuleDic) <-
           register_modules updatedModuleList nodeToPathDic nodePathToModuleDic ;;
         '(nodeToPathDic, nodePathToModuleDic) <-
           check block (newLeft, newRight) dest_corres_module
             midSourceArray midDestArray nodeToPathDic nodePathToModuleDic ;;
         let residue1 :=
           if same_direction then (destPathStart, newLeft) else (newRight, destPathEnd) in
         let residue2 :=
           if same_direction then (newRight, destPathEnd) else (destPathStart, newLeft) in
         '(nodeToPathDic, nodePathToModuleDic) <-
           visit (sourcePathStart, blockStart) residue1 residueList1
             leftSourceArray leftDestArray nodeToPathDic nodePathToModuleDic ;;
         visit (blockEnd, sourcePathEnd) residue2 residueList2
           rightSourceArray rightDestArray nodeToPathDic nodePathToModuleDic
     else ret (nodeToPathDic, nodePathToModuleDic)
     end
     end) listOfModules
  end
  end
  end.

Definition checkPathOverlap (moduleBlockPath genePath : Interval)
  : result (bool * option Interval * Z) :=
  let '(blockStart, blockEnd) := moduleBlockPath in
  let '(geneStart, geneEnd) := genePath in
  if ((blockStart <=? geneStart) && (blockEnd <=? geneStart)) ||
     ((geneEnd <=? blockStart) && (geneEnd <=? blockEnd))
  then Ok (false, None, -1)
  else if (geneStart >=? blockStart) && (geneEnd <=? blockEnd)
  then Ok (true, Some (geneStart, geneEnd), geneEnd - geneStart)
  else if (geneStart <=? blockStart) && (geneEnd >=? blockEnd)
  then Ok (true, Some (blockStart, blockEnd), blockEnd - blockStart)
  else if (blockStart >=? geneStart) && (blockStart <=? geneEnd) && (blockEnd >=? geneEnd)
  then Ok (true, Some (blockStart, geneEnd), geneEnd - blockStart)
  else if (geneStart >=? blockStart) && (blockEnd >=? geneStart) && (geneEnd >=? blockEnd)
  then Ok (true, Some (geneStart, blockEnd), blockEnd - geneStart)
  else Raise TypeError.

(** Nodes reached from [frontier] along [next], by rounds. *)
Fixpoint reach {N : Type} `{Eqb N} (fuel : nat) (next : N -> list N)
  (frontier visited : list N) : list N :=
  match fuel with
  | O => visited
  | S f =>
      let fresh :=
        dedup (filter (fun n => negb (mem n visited)) (flat_map next frontier)) in
      match fresh with
      | [] => visited
      | _ :: _ => reach f next fresh (visited ++ fresh)
      end
  end.

(** [ccIndex > 0] for some component of
    [nx.strongly_connected_components(G)]: the graph has more than one
    strongly connected component, that is, some node is not reached
    from its first node or does not reach it. *)
Definition more_than_one_component {N W : Type} `{Eqb N} (G : MultiDiGraph N W) : bool :=
  match nodes G with
  | [] => false
  | n0 :: _ =>
      let succs u := match dict_get G u with Some nbrs => keys nbrs | None => [] end in
      let preds u :=
        map fst (filter (fun vn => mem u (keys (snd vn))) G) in
      let fuel := List.length G in
      let fwd := reach fuel succs [n0] [n0] in
      let bwd := reach fuel preds [n0] [n0] in
      negb (forallb (fun n => mem n fwd && mem n bwd) (nodes G))
  end.

(** The pruning loop of the first handler of [moduleModulePartition]. *)
Fixpoint prune_components (modules : list ModuleObj)
  (nodeToPathDic : NodeToPath) (nodePathToModuleDic : PathToModule)
  : Py (NodeToPath * PathToModule) :=
  match modules with
  | [] => ret (nodeToPathDic, nodePathToModuleDic)
  | m_graph :: rest =>
      '(nodeToPathDic, nodePathToModuleDic) <-
        (if more_than_one_component (graph m_graph)
         then removeOldModule m_graph nodeToPathDic nodePathToModuleDic
         else ret (nodeToPathDic, nodePathToModuleDic)) ;;
      prune_components rest nodeToPathDic nodePathToModuleDic
  end.

(** The pruning loop of the second handler. Its [pathRecord] is a
    [defaultdict(lambda: [])] that nothing is ever appended to. *)
Fixpoint overlaps_visited (blockPath : Interval) (visited : list Interval)
  : result bool :=
  match visited with
  | [] => Ok false
  | visitedPath :: rest =>
      let* '(isOveralapped, _, _) := checkPathOverlap blockPath visitedPath in
      if isOveralapped then Ok true else overlaps_visited blockPath rest
  end.

Fixpoint has_overlapping_blocks (module : list BlockVertex)
  (pathRecord : dict Node (list Interval)) : result bool :=
  match module with
  | [] => Ok false
  | block :: rest =>
      let visited :=
        match dict_get pathRecord (bv_name block) with Some l => l | None => [] end in
      let* nextModule := overlaps_visited (bv_path block) visited in
      if nextModule then Ok true else has_overlapping_blocks rest pathRecord
  end.

Fixpoint prune_overlapping (modules : list ModuleObj)
  (nodeToPathDic : NodeToPath) (nodePathToModuleDic : PathToModule)
  : Py (NodeToPath * PathToModule) :=
  match modules with
  | [] => ret (nodeToPathDic, nodePathToModuleDic)
  | m_graph :: rest =>
      nextModule <- lift (has_overlapping_blocks (nodes (graph m_graph)) []) ;;
      '(nodeToPathDic, nodePathToModuleDic) <-
        (if nextModule : bool
         then removeOldModule m_graph nodeToPathDic nodePathToModuleDic
         else ret (nodeToPathDic, nodePathToModuleDic)) ;;
      prune_overlapping rest nodeToPathDic nodePathToModuleDic
  end.

(** The loop over [moduleUpdateDic.keys()]. *)
Fixpoint apply_module_updates (moduleUpdateDic : dict ModuleObj (list ModuleObj))
  (nodeToPathDic : NodeToPath) (nodePathToModuleDic : PathToModule)
  : Py (NodeToPath * PathToModule) :=
  match moduleUpdateDic with
  | [] => ret (nodeToPathDic, nodePathToModuleDic)
  | (oldModule, updatedModuleList) :: rest =>
      '(nodeToPathDic, nodePathToModuleDic) <-
        removeOldModule oldModule nodeToPathDic nodePathToModuleDic ;;
      '(nodeToPathDic, nodePathToModuleDic) <-
        register_modules updatedModuleList nodeToPathDic nodePathToModuleDic ;;
      apply_module_updates rest nodeToPathDic nodePathToModuleDic
  end.

(** The corresponding interval on [A] of a destination sub-block, with
    the two mask fragments; [None] for the [continue] on an empty
    interval. *)
Definition corresponding_path (pathAtoB partBtoA blockPath : Interval)
  (directionAtoB directionBtoA : Direction) (arrayAtoB arrayBtoA : bitarray)
  : result (option (Interval * bitarray * bitarray)) :=
  let leftOffset := fst blockPath - fst partBtoA in
  let rightOffset := snd blockPath - fst partBtoA in
  if eqb directionAtoB directionBtoA then
    let* leftBoundary := choppedIndex arrayBtoA leftOffset in
    let* rightBoundary := choppedIndex arrayBtoA rightOffset in
    let subArrayBtoA := slice leftBoundary rightBoundary arrayBtoA in
    let subArrayAtoB := slice leftBoundary rightBoundary arrayAtoB in
    let left := fst pathAtoB + count_ones (slice_to leftBoundary arrayAtoB) in
    let right := fst pathAtoB + count_ones (slice_to rightBoundary arrayAtoB) in
    Ok (Some ((left, right), subArrayAtoB, subArrayBtoA))
  else
    let* '(correspondingPath, subArrayAtoB, subArrayBtoA) :=
      match directionBtoA with
      | Plus =>
          let* leftBoundary := choppedIndex arrayBtoA leftOffset in
          let* rightBoundary := choppedIndex arrayBtoA rightOffset in
          let subArrayBtoA := slice leftBoundary rightBoundary arrayBtoA in
          let subArrayAtoB := slice leftBoundary rightBoundary arrayAtoB in
          let right := snd pathAtoB - count_ones (slice_to leftBoundary arrayAtoB) in
          let left := snd pathAtoB - count_ones (slice_to rightBoundary arrayAtoB) in
          Ok ((left, right), subArrayAtoB, subArrayBtoA)
      | Minus =>
          let* leftBoundary := choppedIndex arrayBtoA (snd partBtoA - snd blockPath) in
          let* rightBoundary := choppedIndex arrayBtoA (snd partBtoA - fst blockPath) in
          let subArrayBtoA := slice leftBoundary rightBoundary arrayBtoA in
          let subArrayAtoB := slice leftBoundary rightBoundary arrayAtoB in
          let left := fst pathAtoB + count_ones (slice_to leftBoundary arrayAtoB) in
          let right := fst pathAtoB + count_ones (slice_to rightBoundary arrayAtoB) in
          Ok ((left, right), subArrayAtoB, subArrayBtoA)
      end in
    if fst correspondingPath >=? snd correspondingPath
    then Ok None
    else Ok (Some (correspondingPath, subArrayAtoB, subArrayBtoA)).

(** The loop of [moduleModulePartition] over [partitionBlockDic]. The
    snapshots are [dict.copy()]s: new dictionaries on the same set
    objects. A handler puts the dictionaries back; what the failed call
    did to the sets stays done. *)
Fixpoint reconcile_blocks (partitionBlocks : list (BlockVertex * ModuleObj))
  (nodeA nodeB : Node) (pathAtoB partBtoA : Interval)
  (directionAtoB directionBtoA : Direction)
  (nodeToPathDic : NodeToPath) (nodePathToModuleDic : PathToModule)
  (arrayAtoB arrayBtoA : bitarray) : Py (NodeToPath * PathToModule) :=
  match partitionBlocks with
  | [] => ret (nodeToPathDic, nodePathToModuleDic)
  | (block, correspondingModule) :: rest =>
      let blockPath := bv_path block in
      corresponding <- lift (corresponding_path pathAtoB partBtoA blockPath
                               directionAtoB directionBtoA arrayAtoB arrayBtoA) ;;
      '(nodeToPathDic, nodePathToModuleDic) <-
        match corresponding with
        | None => ret (nodeToPathDic, nodePathToModuleDic)
        | Some (correspondingPath, subArrayAtoB, subArrayBtoA) =>
            if negb (registered correspondingModule nodePathToModuleDic)
            then ret (nodeToPathDic, nodePathToModuleDic)
            else
              '(nodeToPathDic, overlappedPairs) <-
                bedtoolCall nodeA nodeToPathDic correspondingPath ;;
              connectedModules <-
                lift (modules_of nodePathToModuleDic overlappedPairs) ;;
              let nodeToPathDicCopy := nodeToPathDic in
              let nodePathToModuleDicCopy := nodePathToModuleDic in
              try_except
                (recursiveModuleVSModuleChecking
                   (S (Z.to_nat (snd correspondingPath - fst correspondingPath)))
                   connectedModules nodeA nodeB correspondingPath blockPath
                   directionAtoB directionBtoA correspondingModule
                   nodeToPathDic nodePathToModuleDic subArrayAtoB subArrayBtoA)
                (prune_overlapping (values nodePathToModuleDicCopy)
                   nodeToPathDicCopy nodePathToModuleDicCopy)
        end ;;
      reconcile_blocks rest nodeA nodeB pathAtoB partBtoA directionAtoB directionBtoA
        nodeToPathDic nodePathToModuleDic arrayAtoB arrayBtoA
  end.

Definition moduleModulePartition (nodeA nodeB : Node) (pathAtoB partBtoA : Interval)
  (directionAtoB directionBtoA : Direction)
  (nodeToPathDic : NodeToPath) (nodePathToModuleDic : PathToModule)
  (arrayAtoB arrayBtoA : bitarray) : Py (NodeToPath * PathToModule) :=
  '(nodeToPathDic, overlappedPairs) <- bedtoolCall nodeB nodeToPathDic partBtoA ;;
  bConnectedModules <- lift (modules_of nodePathToModuleDic overlappedPairs) ;;
  let nodeToPathDicCopy := nodeToPathDic in
  let nodePathToModuleDicCopy := nodePathToModuleDic in
  chopped <-
    try_except
      (r <- chopModulesAndUpdateGraph
              (S (Z.to_nat (snd partBtoA - fst partBtoA)))
              bConnectedModules nodeB partBtoA directionBtoA [] []
              nodeToPathDic nodePathToModuleDic ;;
       ret (Some r))
      (ret None) ;;
  match chopped with
  | None =>
      prune_components (values nodePathToModuleDicCopy)
        nodeToPathDicCopy nodePathToModuleDicCopy
  | Some (partitionBlockDic, moduleUpdateDic, nodeToPathDic) =>
      '(nodeToPathDic, nodePathToModuleDic) <-
        apply_module_updates moduleUpdateDic nodeToPathDic nodePathToModuleDic ;;
      reconcile_blocks partitionBlockDic nodeA nodeB pathAtoB partBtoA
        directionAtoB directionBtoA nodeToPathDic nodePathToModuleDic
        arrayAtoB arrayBtoA
  end.

(** ** The driver of one strongly connected component *)

(** Python's order on the tuples the driver sorts. *)
Definition compare_interval (a b : Interval) : comparison :=
  match Z.compare (fst a) (fst b) with
  | Eq => Z.compare (snd a) (snd b)
  | c => c
  end.

Definition compare_node (a b : Node) : comparison :=
  match String.compare (fst a) (fst b) with
  | Eq => compare_interval (snd a) (snd b)
  | c => c
  end.

Definition compare_direction (a b : Direction) : comparison :=
  match a, b with
  | Plus, Minus => Lt
  | Minus, Plus => Gt
  | _, _ => Eq
  end.

Definition compare_block (a b : BlockVertex) : comparison :=
  match compare_node (bv_name a) (bv_name b) with
  | Eq =>
      match compare_interval (bv_path a) (bv_path b) with
      | Eq => compare_direction (bv_dir a) (bv_dir b)
      | c => c
      end
  | c => c
  end.

Definition leb_of {A : Type} (cmp : A -> A -> comparison) (a b : A) : bool :=
  match cmp a b with Gt => false | _ => true end.

(** [tuple(sorted((sourceNodeAndPath, destNodeAndPath)))] *)
Definition sorted_edge_pair (a b : Node * Interval)
  : (Node * Interval) * (Node * Interval) :=
  let cmp :=
    match compare_node (fst a) (fst b) with
    | Eq => compare_interval (snd a) (snd b)
    | c => c
    end in
  match cmp with Gt => (b, a) | _ => (a, b) end.

(** The alignment graph of the component: an edge carries the path on
    the side of its source, as (start, end), and the bit array. *)
Abbreviation AlignmentGraph := (MultiDiGraph Node (Interval * bitarray)) (only parsing).

Record scc_state : Type := {
  scc_edgeList : list (Node * Node);
  scc_nodeList : list Node;
  visitedEdgePair : list ((Node * Interval) * (Node * Interval));
  edgeCounterDicBetweenTwoNodes : dict (Node * Node) nat;
  numberOfEdges : Z;
  nodeToPathDic : list (Node * nat);
  nodePathToModuleDic : list (Node * Interval * ModuleObj)
}.

(** The node-versus-node case: both nodes are cut at the ends of the
    path; the two path pieces share one new module, every other piece
    gets a module of its own. *)
Fixpoint register_node_blocks (node : Node) (blocks : list Interval)
  (path : Interval) (module : ModuleObj)
  (nodeToPathDic : NodeToPath) (nodePathToModuleDic : PathToModule)
  : Py (NodeToPath * PathToModule) :=
  match blocks with
  | [] => ret (nodeToPathDic, nodePathToModuleDic)
  | element :: rest =>
      corrsModule <-
        (if eqb element path then ret module
         else new_object (add_node empty_graph (node, element, Plus))) ;;
      '(nodeToPathDic, a) <- n2p_item nodeToPathDic node ;;
      _ <- set_add_at a element ;;
      register_node_blocks node rest path module nodeToPathDic
        (dict_set nodePathToModuleDic (node, element) corrsModule)
  end.

Definition nodeNodePartition (sourceNode destNode : Node)
  (sourceToDestPath destToSourcePath : Interval)
  (sourceDirection destDirection : Direction)
  (nodeToPathDic : NodeToPath) (nodePathToModuleDic : PathToModule)
  (sourceToDestArray destToSourceArray : bitarray) : Py (NodeToPath * PathToModule) :=
  let sourceNodeBlocks := nodePartition sourceToDestPath (snd sourceNode) in
  let destNodeBlocks := nodePartition destToSourcePath (snd destNode) in
  let s : BlockVertex := (sourceNode, sourceToDestPath, sourceDirection) in
  let d : BlockVertex := (destNode, destToSourcePath, destDirection) in
  module <- new_object
    (add_edge (add_edge empty_graph s d sourceToDestArray) d s destToSourceArray) ;;
  '(nodeToPathDic, nodePathToModuleDic) <-
    register_node_blocks sourceNode sourceNodeBlocks sourceToDestPath module
      nodeToPathDic nodePathToModuleDic ;;
  register_node_blocks destNode destNodeBlocks destToSourcePath module
    nodeToPathDic nodePathToModuleDic.

(** What a pass reads off the alignment graph for the edge it takes:
    the two paths with their bit arrays, the edge list without the two
    directed edges, and the counter of parallel edges moved on. *)
Definition scc_fetch (S : AlignmentGraph) (st : scc_state) (edge : Node * Node)
  : result (Interval * bitarray * (Interval * bitarray)
            * list (Node * Node) * dict (Node * Node) nat) :=
  let '(sourceNode, destNode) := edge in
  let edgeIndexBetweenTwoNodes :=
    match dict_get (edgeCounterDicBetweenTwoNodes st) (sourceNode, destNode) with
    | Some n => n
    | None => 0%nat
    end in
  let* '(sourceToDestPath, sourceToDestArray) :=
    get_weight S sourceNode destNode edgeIndexBetweenTwoNodes in
  let* edgeList := list_remove (sourceNode, destNode) (scc_edgeList st) in
  let* '(destToSourcePath, destToSourceArray) :=
    get_weight S destNode sourceNode edgeIndexBetweenTwoNodes in
  let* edgeList := list_remove (destNode, sourceNode) edgeList in
  Ok (sourceToDestPath, sourceToDestArray, (destToSourcePath, destToSourceArray),
      edgeList,
      dict_set (edgeCounterDicBetweenTwoNodes st) (sourceNode, destNode)
        (Datatypes.S edgeIndexBetweenTwoNodes)).

(** [pair]: the two ends of the alignment with their sorted paths. *)
Definition edge_pair (sourceNode destNode : Node)
  (sourceToDestPath destToSourcePath : Interval)
  : (Node * Interval) * (Node * Interval) :=
  sorted_edge_pair (sourceNode, sorted_pair sourceToDestPath)
    (destNode, sorted_pair destToSourcePath).

(** The rest of a pass once the alignment is known to be new and the
    periodic trimming is over: the orientation of the two paths, the
    skip of a short source path, and the case by what the two nodes are. *)
Definition scc_dispatch (sourceNode destNode : Node)
  (sourceToDestPath : Interval) (sourceToDestArray : bitarray)
  (destToSourcePath : Interval) (destToSourceArray : bitarray)
  (nodeList : list Node)
  (n2p : NodeToPath) (p2m : PathToModule)
  : Py (list Node * NodeToPath * PathToModule) :=
  let sourceDirection := if fst sourceToDestPath >? snd sourceToDestPath
                         then Minus else Plus in
  let destDirection := if fst destToSourcePath >? snd destToSourcePath
                       then Minus else Plus in
  let sourceToDestPath := sorted_pair sourceToDestPath in
  let destToSourcePath := sorted_pair destToSourcePath in
  if snd sourceToDestPath - fst sourceToDestPath <? 20
  then ret (nodeList, n2p, p2m)
  else
    match mem sourceNode nodeList, mem destNode nodeList with
    | true, true =>
        '(n2p, p2m) <-
          nodeNodePartition sourceNode destNode sourceToDestPath destToSourcePath
            sourceDirection destDirection n2p p2m
            sourceToDestArray destToSourceArray ;;
        nodeList <- lift (list_remove sourceNode nodeList) ;;
        nodeList <- lift (list_remove destNode nodeList) ;;
        ret (nodeList, n2p, p2m)
    | false, true =>
        '(n2p, p2m) <-
          nodeModulePartition sourceNode destNode sourceToDestPath destToSourcePath
            sourceDirection destDirection n2p p2m
            sourceToDestArray destToSourceArray ;;
        nodeList <- lift (list_remove destNode nodeList) ;;
        ret (nodeList, n2p, p2m)
    | true, false =>
        '(n2p, p2m) <-
          nodeModulePartition destNode sourceNode destToSourcePath sourceToDestPath
            destDirection sourceDirection n2p p2m
            destToSourceArray sourceToDestArray ;;
        nodeList <- lift (list_remove sourceNode nodeList) ;;
        ret (nodeList, n2p, p2m)
    | false, false =>
        '(n2p, p2m) <-
          moduleModulePartition sourceNode destNode sourceToDestPath destToSourcePath
            sourceDirection destDirection n2p p2m
            sourceToDestArray destToSourceArray ;;
        ret (nodeList, n2p, p2m)
    end.

(** The loop variables at the end of a pass. *)
Definition scc_after (st : scc_state) (edgeList : list (Node * Node))
  (counterDic : dict (Node * Node) nat)
  (visited : list ((Node * Interval) * (Node * Interval)))
  (r : list Node * NodeToPath * PathToModule) : scc_state :=
  {| scc_edgeList := edgeList;
     scc_nodeList := fst (fst r);
     visitedEdgePair := visited;
     edgeCounterDicBetweenTwoNodes := counterDic;
     numberOfEdges := numberOfEdges st + 2;
     nodeToPathDic := snd (fst r);
     nodePathToModuleDic := snd r |}.

(** One pass of the [while edgeList] loop of [main], on the first edge
    of the list. An alignment seen before ends the pass at once
    ([continue]), before the test on the edge counter. *)
Definition scc_step (S : AlignmentGraph) (st : scc_state)
  (edge : Node * Node) : Py scc_state :=
  '(sourceToDestPath, sourceToDestArray, (destToSourcePath, destToSourceArray),
    edgeList, counterDic) <- lift (scc_fetch S st edge) ;;
  let key := edge_pair (fst edge) (snd edge) sourceToDestPath destToSourcePath in
  if mem key (visitedEdgePair st)
  then ret (scc_after st edgeList counterDic (visitedEdgePair st)
              (scc_nodeList st, nodeToPathDic st, nodePathToModuleDic st))
  else
    '(n2p, p2m) <-
      (if (numberOfEdges st + 2) mod 500 =? 0
       then trimShortModules (nodeToPathDic st) (nodePathToModuleDic st) 10
       else ret (nodeToPathDic st, nodePathToModuleDic st)) ;;
    r <- scc_dispatch (fst edge) (snd edge) sourceToDestPath sourceToDestArray
           destToSourcePath destToSourceArray (scc_nodeList st) n2p p2m ;;
    ret (scc_after st edgeList counterDic (set_add key (visitedEdgePair st)) r).

(** [passes] passes of the loop, or fewer when the edge list runs out. *)
Fixpoint scc_loop (passes : nat) (S : AlignmentGraph) (st : scc_state) : Py scc_state :=
  match passes with
  | O => ret st
  | Datatypes.S n =>
      match scc_edgeList st with
      | [] => ret st
      | edge :: _ =>
          st <- scc_step S st edge ;;
          scc_loop n S st
      end
  end.

Definition scc_start (S : AlignmentGraph) : scc_state :=
  {| scc_edgeList := map (fun e => (fst (fst e), snd (fst e))) (edges S);
     scc_nodeList := nodes S;
     visitedEdgePair := [];
     edgeCounterDicBetweenTwoNodes := [];
     numberOfEdges := 0;
     nodeToPathDic := [];
     nodePathToModuleDic := [] |}.

(** What is written for a component after its last edge: the modules
    of the index as sorted tuples of block-vertices, each tuple once,
    those of more than one block-vertex, every one restricted to its
    blocks with [lo <= hi]. *)
Definition emitted_modules (nodePathToModuleDic : PathToModule)
  : list (list BlockVertex) :=
  let modules :=
    dedup (map (fun m => sorted (leb_of compare_block) (nodes (graph m)))
             (values nodePathToModuleDic)) in
  let modules := filter (fun m => 1 <? len m) modules in
  map (fun module =>
         filter (fun block => fst (bv_path block) <=? snd (bv_path block)) module)
    modules.

(** The body of [main] for one component: the loop runs until the edge
    list is empty (every pass takes two edges off it), then the last
    trimming and the output lines. *)
Definition main_scc (S : AlignmentGraph) : Py (list (list BlockVertex)) :=
  let start := scc_start S in
  st <- scc_loop (List.length (scc_edgeList start)) S start ;;
  '(n2p, p2m) <- trimShortModules (nodeToPathDic st) (nodePathToModuleDic st) 10 ;;
  ret (emitted_modules p2m).

(** ** What trimming amounts to

    The set of one node after the inner loop of [trimShortModules], and
    the module index after it, as folds over the visited paths. *)

Definition trim_set (trimLength : Z) (pathList : list Interval) (s : list Interval)
  : list Interval :=
  fold_left (fun s path => if snd path - fst path <? trimLength then discard path s else s)
    pathList s.

Definition trim_p2m (node : Node) (trimLength : Z) (pathList : list Interval)
  (nodePathToModuleDic : PathToModule) : PathToModule :=
  fold_left (fun d path => if snd path - fst path <? trimLength
                           then dict_pop d (node, path) else d)
    pathList nodePathToModuleDic.

(** The block index is well formed when every node has its own set
    object and module index keys are distinct. *)
Definition wf_index (h : Heap) (nodeToPathDic : NodeToPath)
  (nodePathToModuleDic : PathToModule) : Prop :=
  NoDup (keys nodeToPathDic) /\
  NoDup (values nodeToPathDic) /\
  (forall a, In a (values nodeToPathDic) -> (a < List.length (sets h))%nat) /\
  NoDup (keys nodePathToModuleDic).

(** Two intervals share no position. *)
Definition disjoint_intervals (a b : Interval) : Prop :=
  snd a <= fst b \/ snd b <= fst a.

(** The intervals of a list are pairwise disjoint. *)
Definition pairwise_disjoint (l : list Interval) : Prop :=
  ForallOrdPairs disjoint_intervals l.

(** ** The bitscore cut of [blastToDf]

    The columns of a row that the cut reads, as [parseBlastXML] fills
    them (all integers; no row has a missing value, so [dropna] keeps
    every row). The columns that [blastToDf] adds ([qPair], [sPair],
    [qEdge], [sEdge]) are functions of these. *)

Record BlastRow : Type := {
  queryAccVer : string;
  subjectAccVer : string;
  alignmentLength : Z;
  qStart : Z;
  qEnd : Z;
  sStart : Z;
  sEnd : Z;
  bitScore : Z;
  qSeq : bitarray;
  sSeq : bitarray
}.

(** numpy's [float64]: IEEE 754 binary64, round to nearest even. *)
Module Float64.

Definition prec : Z := 53.
Definition emax : Z := 1024.

Definition of_Z (z : Z) : spec_float := binary_normalize prec emax z 0 false.
Definition mul : spec_float -> spec_float -> spec_float := SFmul prec emax.
Definition add : spec_float -> spec_float -> spec_float := SFadd prec emax.
Definition div : spec_float -> spec_float -> spec_float := SFdiv prec emax.
Definition leb : spec_float -> spec_float -> bool := SFleb.

(** [.astype(int)] on a finite value: the fraction is cut off. *)
Definition to_int (x : spec_float) : Z :=
  match x with
  | S754_finite s m e =>
      let v := if 0 <=? e then Z.pos m * 2 ^ e else Z.pos m / 2 ^ (- e) in
      if s then - v else v
  | _ => 0
  end.

(** The literals [1.6446838] and [0.4]: the doubles nearest to the
    decimal fractions. *)
Definition constant : spec_float := div (of_Z 16446838) (of_Z 10000000).
Definition default_threshold : spec_float := div (of_Z 4) (of_Z 10).

End Float64.

(** [int((qEnd - qStart) * constant + 3)] *)
Definition scoreThreshold (constant : spec_float) (row : BlastRow) : Z :=
  Float64.to_int
    (Float64.add (Float64.mul (Float64.of_Z (qEnd row - qStart row)) constant)
       (Float64.of_Z 3)).

(** [df.bitScore >= threshold * df.scoreThreshold] for one row *)
Definition passes_cut (threshold constant : spec_float) (row : BlastRow) : bool :=
  Float64.leb
    (Float64.mul threshold (Float64.of_Z (scoreThreshold constant row)))
    (Float64.of_Z (bitScore row)).

Definition blastToDf (df : list BlastRow) (threshold constant : spec_float)
  : list BlastRow :=
  let df := filter (fun row => negb (eqb (subjectAccVer row) (queryAccVer row))) df in
  filter (passes_cut threshold constant) df.

(** Modelled from the spec: the cut
    [bitscore >= tau * (1.6446838 * align_len + 3)] for a threshold
    [tau = num / den] with [den > 0], over exact fractions. *)
Definition spec_passes_cut (num den : Z) (row : BlastRow) : bool :=
  num * (16446838 * alignmentLength row + 3 * 10000000)
    <=? bitScore row * den * 10000000.

(** ** Sample alignment graphs

    An alignment enters the graph as two directed edges, one for each
    side, as [G.add_weighted_edges_from(combine)] builds them. *)

Definition add_alignment (G : AlignmentGraph) (u v : Node)
  (qEdge sEdge : Interval * bitarray) : AlignmentGraph :=
  add_edge (add_edge G u v qEdge) v u sEdge.

Definition ones (n : nat) : bitarray := repeat one n.

(** The same alignment of [seqA:1..100] with [seqB:1..100] reported 250
    times, and a short alignment that makes the node of [seqA] end at
    105. *)
Definition repeat_graph : AlignmentGraph :=
  let a : Node := ("seqA"%string, (1, 105)) in
  let b : Node := ("seqB"%string, (1, 100)) in
  let c : Node := ("seqC"%string, (1, 10)) in
  let G :=
    Nat.iter 250
      (fun G => add_alignment G a b ((1, 100), ones 100) ((1, 100), ones 100))
      empty_graph in
  add_alignment G a c ((96, 105), ones 10) ((1, 10), ones 10).

(** Four gap-free alignments on three sequences, all on the plus
    strand: [sA:1..100] with [sB:201..300], [sA:50..250] with
    [sB:300..500], [sA:120..159] with [sB:461..500], [sA:240..300] with
    [sD:1..61]. *)
Definition overlap_graph : AlignmentGraph :=
  let a : Node := ("sA"%string, (1, 300)) in
  let b : Node := ("sB"%string, (201, 500)) in
  let d : Node := ("sD"%string, (1, 61)) in
  let G := add_alignment empty_graph a b ((1, 100), ones 100) ((201, 300), ones 100) in
  let G := add_alignment G a b ((50, 250), ones 201) ((300, 500), ones 201) in
  let G := add_alignment G a b ((120, 159), ones 40) ((461, 500), ones 40) in
  add_alignment G a d ((240, 300), ones 61) ((1, 61), ones 61).

(** Five gap-free alignments on five sequences, two of them on the
    minus strand of their second sequence: [sX:1..201] with
    [sA:300..100], [sA:1..100] with [sB:201..300], [sA:50..250] with
    [sB:500..300], [sE:1..100] with [sD:1..100], [sB:460..499] with
    [sD:1..40]. *)
Definition reverse_graph : AlignmentGraph :=
  let x : Node := ("sX"%string, (1, 201)) in
  let a : Node := ("sA"%string, (1, 300)) in
  let e : Node := ("sE"%string, (1, 100)) in
  let b : Node := ("sB"%string, (201, 500)) in
  let d : Node := ("sD"%string, (1, 100)) in
  let G := add_nodes_from empty_graph [x; a; e; b; d] in
  let G := add_alignment G x a ((1, 201), ones 201) ((300, 100), ones 201) in
  let G := add_alignment G a b ((1, 100), ones 100) ((201, 300), ones 100) in
  let G := add_alignment G a b ((50, 250), ones 201) ((500, 300), ones 201) in
  let G := add_alignment G e d ((1, 100), ones 100) ((1, 100), ones 100) in
  add_alignment G b d ((460, 499), ones 40) ((1, 40), ones 40).

(** ** Reading the alignment report *)

(** [seqToBinary]: a gap character gives ['0'], any other ['1']. *)
Definition seqToBinary (seq : string) : bitarray :=
  map (fun nuc => if Ascii.eqb nuc "-" then "0"%char else one)
    (list_ascii_of_string seq).

(** The dictionary of [revComp]. *)
Definition revComp_dic : dict ascii ascii :=
  [("A", "T"); ("T", "A"); ("C", "G"); ("G", "C"); ("R", "C"); ("Y", "G");
   ("S", "G"); ("W", "T"); ("K", "C"); ("M", "G"); ("N", "A")]%char.

(** [[dic[char] for char in l]]: the first character that is no key
    ends the comprehension with a [KeyError]. *)
Fixpoint complement (l : list ascii) : result (list ascii) :=
  match l with
  | [] => Ok []
  | char :: rest =>
      let* c := dict_item revComp_dic char in
      let* t := complement rest in
      Ok (c :: t)
  end.

Definition revComp (seq : string) : result string :=
  let* l := complement (rev (list_ascii_of_string seq)) in
  Ok (string_of_list_ascii l).

(** ** Merging overlapping intervals into nodes *)

(** [checkOverlap]: the intervals come as (start, end) in either
    orientation. *)
Definition checkOverlap (aNode bNode : Interval) : bool * Interval :=
  let '(aStart, aEnd) := aNode in
  let '(bStart, bEnd) := bNode in
  let superset :=
    (list_min aStart [bStart; aEnd; bEnd], list_max aStart [bStart; aEnd; bEnd]) in
  if ((bStart >=? aStart) && (bStart <=? aEnd)) ||
     ((aStart >=? bStart) && (aStart <=? bEnd))
  then (true, superset)
  else if ((bEnd >=? aEnd) && (bEnd <=? aStart)) ||
          ((aEnd >=? bEnd) && (aEnd <=? bStart))
  then (true, superset)
  else if ((aStart >=? bEnd) && (aStart <=? bStart)) ||
          ((bEnd >=? aStart) && (bEnd <=? aEnd))
  then (true, superset)
  else (false, aNode).

Section Rows.
Context {Row : Type}.
Variables columnStart columnEnd : Row -> Z.

(** The [while] loop of [recursiveCheckOvelap], on the rows after the
    current one. Running off the data frame raises inside the [try],
    and the handler returns [offset + 1]. *)
Fixpoint merge_following (curNode : Interval) (offset : Z) (following : list Row)
  : Interval * Z :=
  match following with
  | [] => (curNode, offset + 1)
  | nextRow :: rest =>
      let nextNode := (columnStart nextRow, columnEnd nextRow) in
      let '(overlap, curNode) := checkOverlap curNode nextNode in
      if overlap then merge_following curNode (offset + 1) rest
      else (curNode, offset + 1)
  end.

(** [df.iloc[currentIndex]] is outside the [try]. *)
Definition recursiveCheckOvelap (currentIndex : nat) (df : list Row)
  : result (Interval * Z) :=
  match nth_error df currentIndex with
  | None => Raise IndexError
  | Some row =>
      Ok (merge_following (columnStart row, columnEnd row) 0
            (skipn (S currentIndex) df))
  end.

End Rows.

(** The positions of [x], read in either orientation, all lie in
    [node]. *)
Definition within (x node : Interval) : Prop :=
  Z.min (fst node) (snd node) <= Z.min (fst x) (snd x) /\
  Z.max (fst x) (snd x) <= Z.max (fst node) (snd node).

(** Blocks that follow one another: each starts where the one before
    it ends. *)
Fixpoint adjacent (l : list Interval) : Prop :=
  match l with
  | p :: ((q :: _) as t) => snd p = fst q /\ adjacent t
  | _ => True
  end.

(** A list of integers in which each is smaller than the next. *)
Fixpoint ascending (l : list Z) : Prop :=
  match l with
  | a :: ((b :: _) as t) => a < b /\ ascending t
  | _ => True
  end.

(** Each element is at most the next. *)
Fixpoint chain_le (l : list Z) : Prop :=
  match l with
  | a :: ((b :: _) as t) => a <= b /\ chain_le t
  | _ => True
  end.

(** [(node, path)] is the place of one of the blocks. *)
Definition has_block (blocks : list BlockVertex) (node : Node) (path : Interval) : bool :=
  existsb (fun b => eqb (bv_name b) node && eqb (bv_path b) path) blocks.

(** The blocks ahead of the first one shorter than [trimLength]. *)
Fixpoint leading_blocks (trimLength : Z) (blocks : list BlockVertex)
  : list BlockVertex :=
  match blocks with
  | [] => []
  | b :: rest =>
      if snd (bv_path b) - fst (bv_path b) <? trimLength then []
      else b :: leading_blocks trimLength rest
  end.

(** A chain of three blocks: [seqB (1,4) -] is aligned with the first
    four letters of [seqA (1,10) +], and [seqC (1,4) +] with [seqB]. *)
Definition chain_module : Module :=
  let a : BlockVertex := (seqA, (1, 10), Plus) in
  let b : BlockVertex := (seqB, (1, 4), Minus) in
  let c : BlockVertex := (seqC, (1, 4), Plus) in
  let g := add_edge (add_edge empty_graph a b (bits "111111111")) b a (bits "111100000") in
  add_edge (add_edge g b c (bits "1111")) c b (bits "1111").

(** Where the two pieces of the chopped block [(s, (lo, hi), o)] are
    after a chop at offset [k] into [M1] and [M2]: the piece
    [(lo, lo+k)] in [M1] for ["+"] and in [M2] for ["-"], the piece
    [(lo+k, hi)] in the other one. *)
Definition fragments_placed (s : Node) (lo hi : Z) (o : Direction) (k : Z)
  (M1 M2 : Module) : Prop :=
  match o with
  | Plus => In (s, (lo, lo + k), o) (nodes M1) /\ In (s, (lo + k, hi), o) (nodes M2)
  | Minus => In (s, (lo, lo + k), o) (nodes M2) /\ In (s, (lo + k, hi), o) (nodes M1)
  end.

(** ** The chop of a block with all other blocks around it

    What holds at the head of the [while edgeList] loop of
    [partitionToTwoModules] as long as the edges taken are edges out of
    the chopped block [v]: [rem] are the edges out of [v] still ahead,
    each with its edge back further down the list; the chopped block
    keeps its entries in the three dictionaries; and every block still
    in [nodeSet] is the head of an edge of [rem]. *)
Definition centre_inv (M : Module) (v : BlockVertex) (k : Z)
  (rem : list (BlockVertex * BlockVertex * nat)) (st : ptm_state) : Prop :=
  (exists R, edgeList st = rem ++ R /\
             forall w c, In (v, w, c) rem -> In (w, v, c) R) /\
  NoDup rem /\
  (forall e, In e rem -> In e (out_edges M v)) /\
  dict_get (seg_distance_dic st) v = Some k /\
  (exists first_node, dict_get (first_node_dic st) v = Some first_node) /\
  (exists second_node, dict_get (second_node_dic st) v = Some second_node) /\
  nodeSet st <> [] /\
  (forall w, In w (nodeSet st) -> exists c, In (v, w, c) rem).

(** The first part of [moduleModulePartition], up to the loop over the
    blocks of [partitionBlockDic]: the overlap query on [nodeB], the
    chop of the destination side, and the registration of its
    modules. *)
Definition dest_side_chop (nodeB : Node) (partBtoA : Interval)
  (directionBtoA : Direction) (n2p : NodeToPath) (p2m : PathToModule)
  : Py (dict BlockVertex ModuleObj * NodeToPath * PathToModule) :=
  ('(n2p, overlappedPairs) <- bedtoolCall nodeB n2p partBtoA ;;
   bConnectedModules <- lift (modules_of p2m overlappedPairs) ;;
   '(partitionBlockDic, moduleUpdateDic, n2p) <-
     chopModulesAndUpdateGraph (S (Z.to_nat (snd partBtoA - fst partBtoA)))
       bConnectedModules nodeB partBtoA directionBtoA [] [] n2p p2m ;;
   '(n2p, p2m) <- apply_module_updates moduleUpdateDic n2p p2m ;;
   ret (partitionBlockDic, n2p, p2m))%py.
(** *** Facts about [choppedIndex] *)

Lemma count_ones_nonneg (m : bitarray) : 0 <= count_ones m.
Proof. induction m as [|c t IH]; simpl; [lia|]. destruct (Ascii.eqb c one); lia. Qed.

Lemma count_ones_app (a b : bitarray) :
  count_ones (a ++ b) = count_ones a + count_ones b.
Proof. induction a as [|c t IH]; simpl; [reflexivity|]. rewrite IH. lia. Qed.

Lemma count_ones_le_len (m : bitarray) : count_ones m <= len m.
Proof.
  unfold len. induction m as [|c t IH]; simpl List.length; simpl count_ones; [lia|].
  destruct (Ascii.eqb c one); lia.
Qed.

Lemma indices_from_length (i : Z) (m : bitarray) :
  Z.of_nat (List.length (indices_from i one m)) = count_ones m.
Proof.
  revert i. induction m as [|c t IH]; intro i; [reflexivity|].
  cbn [indices_from count_ones]. rewrite (Ascii.eqb_sym one c).
  destruct (Ascii.eqb c one); cbn [List.length];
    rewrite ?Nat2Z.inj_succ, IH; lia.
Qed.

(** The [n]-th recorded position (counting from 0) is the place of the
    [(n+1)]-th one: the prefix up to and including it holds [n+1] ones,
    and every shorter prefix holds at most [n]. *)
Lemma indices_from_nth (m : bitarray) :
  forall (i : Z) (n : nat),
    Z.of_nat n < count_ones m ->
    exists p : nat,
      nth n (indices_from i one m) (-1) = i + Z.of_nat p /\
      (p < List.length m)%nat /\
      count_ones (firstn (S p) m) = Z.of_nat n + 1 /\
      (forall q : nat, (q <= p)%nat -> count_ones (firstn q m) <= Z.of_nat n).
Proof.
  induction m as [|c t IH]; intros i n Hn; cbn [count_ones] in Hn; [lia|].
  cbn [indices_from]. rewrite (Ascii.eqb_sym one c).
  assert (Hcons : forall q, count_ones (firstn (S q) (c :: t)) =
                    (if Ascii.eqb c one then 1 else 0) + count_ones (firstn q t))
    by reflexivity.
  destruct (Ascii.eqb c one) eqn:Ec.
  - destruct n as [|n].
    + exists 0%nat. cbn [nth]. split; [lia|]. split; [simpl; lia|].
      split; [rewrite Hcons; simpl; lia|].
      intros q Hq. assert (q = 0%nat) by lia. subst q. simpl. lia.
    + destruct (IH (i + 1) n) as (p & Hp & Hlt & Hc & Hmin); [lia|].
      exists (S p). cbn [nth]. rewrite Hp.
      split; [lia|]. split; [simpl; lia|].
      split; [rewrite Hcons, Hc; lia|].
      intros q Hq. destruct q as [|q]; [simpl; lia|].
      rewrite Hcons. specialize (Hmin q). lia.
  - destruct (IH (i + 1) n) as (p & Hp & Hlt & Hc & Hmin); [lia|].
    exists (S p). rewrite Hp.
    split; [lia|]. split; [simpl; lia|].
    split; [rewrite Hcons, Hc; lia|].
    intros q Hq. destruct q as [|q]; [simpl; lia|].
    rewrite Hcons. specialize (Hmin q). lia.
Qed.

(** Past the last recorded position there is nothing to take. *)
Lemma indices_from_overflow (m : bitarray) (n : nat) :
  count_ones m <= Z.of_nat n ->
  nth_error (indices_from 0 one m) n = None.
Proof.
  intro H. apply nth_error_None. pose proof (indices_from_length 0 m). lia.
Qed.

Lemma indices_from_found (m : bitarray) (n : nat) :
  Z.of_nat n < count_ones m ->
  nth_error (indices_from 0 one m) n = Some (nth n (indices_from 0 one m) (-1)).
Proof.
  intro H. apply nth_error_nth'. pose proof (indices_from_length 0 m). lia.
Qed.

(** What [nth_item] does at a start that is not negative. *)
Lemma nth_item_found (m : bitarray) (n : Z) :
  0 <= n < count_ones m ->
  nth_item n one m = Ok (nth (Z.to_nat n) (indices_from 0 one m) (-1)).
Proof.
  intro H. unfold nth_item.
  destruct (n <? 0) eqn:E; [apply Z.ltb_lt in E; lia|].
  rewrite indices_from_found by lia. reflexivity.
Qed.

Lemma nth_item_exhausted (m : bitarray) (n : Z) :
  0 <= n -> count_ones m <= n ->
  nth_item n one m =
    if sys_maxsize <? n
    then Raise (ValueError "Indices for islice() must be None or an integer")
    else Ok (-1).
Proof.
  intros H0 H. unfold nth_item.
  destruct (n <? 0) eqn:E; [apply Z.ltb_lt in E; lia|].
  rewrite indices_from_overflow by lia. reflexivity.
Qed.

Lemma choppedIndex_zero (m : bitarray) : choppedIndex m 0 = choppedIndex m 1.
Proof. reflexivity. Qed.

(** C2. For [1 <= k <= popcount mask], [choppedIndex mask k] returns the
    smallest prefix length [j] whose prefix holds exactly [k] ones, the
    position just after the [k]-th one; and an offset of [0] is treated
    as an offset of [1]. *)
Theorem choppedIndex_smallest_prefix :
  (forall (mask : bitarray) (k : Z),
      1 <= k <= count_ones mask ->
      exists j : Z,
        choppedIndex mask k = Ok j /\
        1 <= j <= len mask /\
        count_ones (slice_to j mask) = k /\
        nth_error mask (Z.to_nat (j - 1)) = Some one /\
        (forall j' : Z, 0 <= j' < j -> count_ones (slice_to j' mask) <> k)) /\
  (forall mask : bitarray, choppedIndex mask 0 = choppedIndex mask 1).
Proof.
  split; [|exact choppedIndex_zero].
  intros mask k Hk.
  destruct (indices_from_nth mask 0 (Z.to_nat (k - 1))) as (p & Hp & Hlt & Hc & Hmin);
    [lia|].
  exists (Z.of_nat p + 1).
  assert (Hb : forall q : nat, (q <= List.length mask)%nat ->
                 slice_to (Z.of_nat q) mask = firstn q mask).
  { intros q Hq. unfold slice_to, slice_bound, len.
    destruct (Z.of_nat q <? 0) eqn:E; [apply Z.ltb_lt in E; lia|].
    f_equal. lia. }
  repeat split.
  - unfold choppedIndex.
    destruct (k =? 0) eqn:E0; [apply Z.eqb_eq in E0; lia|].
    rewrite nth_item_found by lia. rewrite Hp. f_equal.
  - lia.
  - unfold len. lia.
  - replace (Z.of_nat p + 1) with (Z.of_nat (S p)) by lia.
    rewrite Hb by lia. rewrite Hc. lia.
  - replace (Z.to_nat (Z.of_nat p + 1 - 1)) with p by lia.
    assert (Hs : count_ones (firstn (S p) mask) = count_ones (firstn p mask) +
                 match nth_error mask p with
                 | Some c => if Ascii.eqb c one then 1 else 0
                 | None => 0 end).
    { clear. revert p. induction mask as [|c t IH]; intro p.
      - destruct p; reflexivity.
      - destruct p as [|p].
        + simpl. lia.
        + change (firstn (S (S p)) (c :: t)) with (c :: firstn (S p) t).
          change (firstn (S p) (c :: t)) with (c :: firstn p t).
          cbn [count_ones nth_error]. rewrite (IH p). lia. }
    pose proof (Hmin p (Nat.le_refl p)) as Hle.
    destruct (nth_error mask p) as [c|] eqn:En; [|lia].
    destruct (Ascii.eqb c one) eqn:Ec; [|lia].
    apply Ascii.eqb_eq in Ec. now subst c.
  - intros j' Hj'.
    replace j' with (Z.of_nat (Z.to_nat j')) by lia.
    rewrite Hb by lia.
    specialize (Hmin (Z.to_nat j')). lia.
Qed.

Lemma choppedIndex_smallest_prefix_witness :
  exists j : Z,
    choppedIndex (bits "0110100") 3 = Ok j /\
    1 <= j <= len (bits "0110100") /\
    count_ones (slice_to j (bits "0110100")) = 3 /\
    nth_error (bits "0110100") (Z.to_nat (j - 1)) = Some one /\
    (forall j' : Z, 0 <= j' < j -> count_ones (slice_to j' (bits "0110100")) <> 3).
Proof.
  apply (proj1 choppedIndex_smallest_prefix (bits "0110100") 3).
  vm_compute. split; discriminate.
Defined.

(** Beyond the last one the fallback index [-1] is returned, so the
    result is [0], as long as [islice] takes the start. *)
Lemma choppedIndex_beyond (mask : bitarray) (k : Z) :
  count_ones mask < k ->
  choppedIndex mask k =
    if k <=? sys_maxsize + 1 then Ok 0 else Raise (ValueError "offset is negative").
Proof.
  intro Hk. pose proof (count_ones_nonneg mask) as H0.
  unfold choppedIndex.
  destruct (k =? 0) eqn:E0; [apply Z.eqb_eq in E0; lia|].
  rewrite nth_item_exhausted by lia.
  destruct (sys_maxsize <? k - 1) eqn:E1, (k <=? sys_maxsize + 1) eqn:E2;
    try reflexivity;
    rewrite ?Z.ltb_lt, ?Z.ltb_ge, ?Z.leb_le, ?Z.leb_gt in *; lia.
Qed.

(** On a mask that Python can hold, an offset fails exactly when
    [islice] refuses the start it gives. *)
Lemma choppedIndex_raises_iff (mask : bitarray) (k : Z) :
  len mask <= sys_maxsize ->
  (exists e, choppedIndex mask k = Raise e) <-> k < 0 \/ sys_maxsize + 1 < k.
Proof.
  intro Hlen. pose proof (count_ones_nonneg mask) as H0.
  pose proof (count_ones_le_len mask) as Hle.
  destruct (Z.lt_ge_cases (count_ones mask) k) as [Hbeyond|Hin].
  - rewrite (choppedIndex_beyond mask k Hbeyond).
    destruct (k <=? sys_maxsize + 1) eqn:E;
      rewrite ?Z.leb_le, ?Z.leb_gt in E; split.
    + intros [e He]. discriminate.
    + lia.
    + intros _. lia.
    + intros _. eauto.
  - unfold choppedIndex. split.
    + intros [e He]. destruct (k =? 0) eqn:E0.
      * apply Z.eqb_eq in E0. subst k.
        destruct (Z.lt_ge_cases 0 (count_ones mask)) as [Hpos|Hnone].
        -- rewrite nth_item_found in He by lia. discriminate.
        -- rewrite nth_item_exhausted in He by lia.
           change (sys_maxsize <? 1 - 1) with false in He. discriminate.
      * apply Z.eqb_neq in E0.
        destruct (Z.lt_ge_cases k 0) as [Hneg|Hpos]; [now left|].
        rewrite nth_item_found in He by lia. discriminate.
    + intros [Hneg|Hbig]; [|unfold sys_maxsize in *; lia].
      destruct (k =? 0) eqn:E0; [apply Z.eqb_eq in E0; lia|].
      unfold nth_item. destruct (k - 1 <? 0) eqn:E1; [eauto|].
      apply Z.ltb_ge in E1. lia.
Qed.

(** C3, as the code has it. On a mask that Python can hold (at most
    [sys.maxsize] columns), an offset larger than the number of ones
    does not fail as long as it is at most [sys.maxsize + 1]:
    [nth_item] falls back on [-1] and [choppedIndex] returns [0]. The
    call fails, with a [ValueError], exactly when the offset is negative
    or larger than [sys.maxsize + 1]. *)
Theorem choppedIndex_beyond_popcount (mask : bitarray) (k : Z) :
  len mask <= sys_maxsize ->
  (count_ones mask < k ->
   choppedIndex mask k =
     if k <=? sys_maxsize + 1 then Ok 0 else Raise (ValueError "offset is negative")) /\
  ((exists e, choppedIndex mask k = Raise e) <-> k < 0 \/ sys_maxsize + 1 < k).
Proof.
  intro Hlen. split; [apply choppedIndex_beyond | now apply choppedIndex_raises_iff].
Qed.

Lemma choppedIndex_beyond_popcount_witness :
  choppedIndex (bits "0101") 7 = Ok 0 /\
  ((exists e, choppedIndex (bits "0101") 7 = Raise e) <-> 7 < 0 \/ sys_maxsize + 1 < 7).
Proof.
  assert (Hlen : len (bits "0101") <= sys_maxsize) by (vm_compute; discriminate).
  destruct (choppedIndex_beyond_popcount (bits "0101") 7 Hlen) as [Hbeyond Hiff].
  split; [|exact Hiff].
  rewrite Hbeyond by (vm_compute; reflexivity). reflexivity.
Defined.

(** C3, as the specification words it, fails: the mask "101" holds two
    ones, and an offset of 3 is answered with index 0 instead of an
    error. *)
Lemma choppedIndex_beyond_popcount_counterexample :
  count_ones (bits "101") < 3 /\
  ~ (exists e, choppedIndex (bits "101") 3 = Raise e).
Proof.
  split; [vm_compute; reflexivity|].
  intros [e He]. vm_compute in He. discriminate.
Qed.


(** ** Correctness of the equality tests *)

Class EqbSpec (A : Type) `{Eqb A} : Prop :=
  eqb_iff : forall x y : A, eqb x y = true <-> x = y.

Lemma eqb_spec {A : Type} `{EqbSpec A} (x y : A) : reflect (x = y) (eqb x y).
Proof. apply iff_reflect. symmetry. apply eqb_iff. Qed.

#[export] Instance EqbSpec_Z : EqbSpec Z := Z.eqb_eq.
#[export] Instance EqbSpec_nat : EqbSpec nat := Nat.eqb_eq.
#[export] Instance EqbSpec_string : EqbSpec string := String.eqb_eq.
#[export] Instance EqbSpec_ascii : EqbSpec ascii := Ascii.eqb_eq.

#[export] Instance EqbSpec_prod {A B : Type} `{EqbSpec A} `{EqbSpec B} : EqbSpec (A * B).
Proof.
  intros [a b] [a' b']. unfold eqb, Eqb_prod. simpl.
  rewrite andb_true_iff.
  rewrite !eqb_iff. split; [intros [-> ->]; reflexivity | intro E; now inversion E].
Qed.

#[export] Instance EqbSpec_list {A : Type} `{EqbSpec A} : EqbSpec (list A).
Proof.
  intro l1. unfold eqb, Eqb_list.
  induction l1 as [|x t IH]; intros [|y t2]; simpl; try (split; congruence).
  rewrite andb_true_iff, IH, eqb_iff.
  split; [intros [-> ->]; reflexivity | intro E; now inversion E].
Qed.

#[export] Instance EqbSpec_Direction : EqbSpec Direction.
Proof. intros [] []; unfold eqb, Eqb_Direction; split; congruence. Qed.

Lemma eqb_refl {A : Type} `{EqbSpec A} (x : A) : eqb x x = true.
Proof. destruct (eqb_spec x x); congruence. Qed.

Lemma eqb_eq {A : Type} `{EqbSpec A} (x y : A) : eqb x y = true <-> x = y.
Proof. destruct (eqb_spec x y); split; congruence. Qed.

Lemma eqb_neq {A : Type} `{EqbSpec A} (x y : A) : eqb x y = false <-> x <> y.
Proof. destruct (eqb_spec x y); split; congruence. Qed.

Lemma mem_In {A : Type} `{EqbSpec A} (x : A) (l : list A) : mem x l = true <-> In x l.
Proof.
  unfold mem. rewrite existsb_exists. split.
  - intros (y & Hy & E). apply eqb_eq in E. now subst.
  - intro Hx. exists x. split; [assumption | apply eqb_refl].
Qed.

Lemma mem_notin {A : Type} `{EqbSpec A} (x : A) (l : list A) :
  mem x l = false <-> ~ In x l.
Proof. rewrite <- mem_In. destruct (mem x l); split; congruence. Qed.

Lemma In_dedup {A : Type} `{EqbSpec A} (x : A) (l : list A) :
  In x (dedup l) <-> In x l.
Proof.
  induction l as [|y t IH]; simpl; [tauto|].
  destruct (mem y t) eqn:E.
  - apply mem_In in E. rewrite IH. split; [tauto|]. intros [<-|Hx]; assumption.
  - simpl. rewrite IH. tauto.
Qed.

Lemma NoDup_dedup {A : Type} `{EqbSpec A} (l : list A) : NoDup (dedup l).
Proof.
  induction l as [|y t IH]; simpl; [constructor|].
  destruct (mem y t) eqn:E; [exact IH|].
  constructor; [|exact IH]. rewrite In_dedup. now apply mem_notin.
Qed.

(** ** Dictionaries *)

Section DictFacts.
Context {K V : Type} `{EqbSpec K}.

Lemma dict_get_notin (d : dict K V) (k : K) :
  dict_get d k = None <-> ~ In k (keys d).
Proof.
  induction d as [|[k' v] t IH]; simpl; [tauto|].
  destruct (eqb_spec k' k) as [->|Hne]; split; try congruence; intuition.
Qed.

Lemma dict_get_in (d : dict K V) (k : K) :
  In k (keys d) -> exists v, dict_get d k = Some v.
Proof.
  intro Hin. destruct (dict_get d k) as [v|] eqn:E; [eauto|].
  apply dict_get_notin in E. contradiction.
Qed.

Lemma dict_mem_In (d : dict K V) (k : K) : dict_mem d k = true <-> In k (keys d).
Proof.
  unfold dict_mem. destruct (dict_get d k) as [v|] eqn:E.
  - split; [|reflexivity]. intros _.
    destruct (in_dec (fun a b => match eqb_spec a b with
                                 | ReflectT _ e => left e
                                 | ReflectF _ n => right n end) k (keys d))
      as [Hi|Hn]; [assumption|].
    apply dict_get_notin in Hn. congruence.
  - apply dict_get_notin in E. split; [discriminate | contradiction].
Qed.

Lemma dict_get_app_notin (d1 d2 : dict K V) (k : K) :
  ~ In k (keys d1) -> dict_get (d1 ++ d2) k = dict_get d2 k.
Proof.
  induction d1 as [|[k' v] t IH]; simpl; intro Hn; [reflexivity|].
  destruct (eqb_spec k' k) as [->|Hne]; [tauto|]. apply IH. tauto.
Qed.

Lemma dict_get_head (d : dict K V) (k : K) (v : V) :
  dict_get ((k, v) :: d) k = Some v.
Proof. simpl. now rewrite eqb_refl. Qed.

Lemma dict_set_app_notin (d1 d2 : dict K V) (k : K) (v : V) :
  ~ In k (keys d1) -> dict_set (d1 ++ d2) k v = d1 ++ dict_set d2 k v.
Proof.
  induction d1 as [|[k' v'] t IH]; simpl; intro Hn; [reflexivity|].
  destruct (eqb_spec k' k) as [->|Hne]; [tauto|]. f_equal. apply IH. tauto.
Qed.

Lemma dict_set_notin (d : dict K V) (k : K) (v : V) :
  ~ In k (keys d) -> dict_set d k v = d ++ [(k, v)].
Proof.
  intro Hn. rewrite <- (app_nil_r d) at 1.
  now rewrite dict_set_app_notin.
Qed.

Lemma dict_set_head (d : dict K V) (k : K) (v0 v : V) :
  dict_set ((k, v0) :: d) k v = (k, v) :: d.
Proof. simpl. now rewrite eqb_refl. Qed.

Lemma keys_app (d1 d2 : dict K V) : keys (d1 ++ d2) = keys d1 ++ keys d2.
Proof. apply map_app. Qed.

Lemma keys_dict_set (d : dict K V) (k : K) (v : V) :
  In k (keys d) -> keys (dict_set d k v) = keys d.
Proof.
  induction d as [|[k' v'] t IH]; simpl; [tauto|].
  intros [->|Hin].
  - now rewrite eqb_refl.
  - destruct (eqb_spec k' k) as [->|Hne]; [reflexivity|].
    simpl. f_equal. now apply IH.
Qed.

End DictFacts.

(** ** Graphs: rebuilding a graph edge by edge *)

Section GraphFacts.
Context {N W : Type} `{EqbSpec N}.

Lemma add_node_present (G : MultiDiGraph N W) (n : N) :
  In n (keys G) -> add_node G n = G.
Proof. intro Hin. unfold add_node. apply dict_mem_In in Hin. now rewrite Hin. Qed.

Lemma add_node_fresh (G : MultiDiGraph N W) (n : N) :
  ~ In n (keys G) -> add_node G n = G ++ [(n, [])].
Proof.
  intro Hn. unfold add_node.
  destruct (dict_mem G n) eqn:E; [apply dict_mem_In in E; contradiction | reflexivity].
Qed.

Lemma add_nodes_from_fresh (ns : list N) :
  forall G : MultiDiGraph N W,
    NoDup (keys G ++ ns) ->
    add_nodes_from G ns = G ++ map (fun n => (n, [])) ns.
Proof.
  induction ns as [|n t IH]; intros G Hnd; simpl.
  - now rewrite app_nil_r.
  - unfold add_nodes_from in *. simpl.
    assert (Hn : ~ In n (keys G)).
    { intro Hin. apply NoDup_remove_2 in Hnd. apply Hnd.
      apply in_or_app. now left. }
    rewrite add_node_fresh by assumption.
    rewrite IH.
    + rewrite <- app_assoc. reflexivity.
    + rewrite keys_app. simpl. rewrite <- app_assoc. exact Hnd.
Qed.

(** Adding an edge between two nodes that are present only touches the
    adjacency of its source. *)
Lemma add_edge_key_at (P R : MultiDiGraph N W) (u v : N)
  (NB : dict N (dict nat W)) (k : nat) (w : W) :
  ~ In u (keys P) ->
  In v (keys (P ++ (u, NB) :: R)) ->
  add_edge_key (P ++ (u, NB) :: R) u v k w =
  P ++ (u, dict_set NB v
             (dict_set (match dict_get NB v with Some kd => kd | None => [] end) k w))
    :: R.
Proof.
  intros Hu Hv. unfold add_edge_key.
  rewrite (add_node_present _ u)
    by (rewrite keys_app; apply in_or_app; right; now left).
  rewrite (add_node_present _ v) by assumption.
  rewrite dict_get_app_notin by assumption.
  rewrite dict_get_head.
  rewrite dict_set_app_notin by assumption.
  now rewrite dict_set_head.
Qed.

Variable f : N -> N.
Variable g : W -> W.
Hypothesis f_inj : forall a b, f a = f b -> a = b.

Let step (G : MultiDiGraph N W) (e : N * N * nat * W) : MultiDiGraph N W :=
  let '(s, d, i, w) := e in add_edge_key G (f s) (f d) i (g w).

(** The remaining keys of one neighbour entry. *)
Lemma rebuild_keys (P R : MultiDiGraph N W) (u v : N) (NB : dict N (dict nat W)) :
  ~ In (f u) (keys P) ->
  ~ In (f v) (keys NB) ->
  In (f v) (keys P ++ f u :: keys R) ->
  forall (kd KD : dict nat W),
    NoDup (keys KD ++ keys kd) ->
    fold_left step (map (fun kw => (u, v, fst kw, snd kw)) kd)
      (P ++ (f u, NB ++ [(f v, KD)]) :: R) =
    P ++ (f u, NB ++ [(f v, KD ++ map_keydict g kd)]) :: R.
Proof.
  intros Hu Hv Hin. induction kd as [|[k w] kd IH]; intros KD Hnd; simpl.
  - now rewrite app_nil_r.
  - rewrite add_edge_key_at; [|assumption|rewrite keys_app; exact Hin].
    rewrite dict_get_app_notin by assumption. rewrite dict_get_head.
    rewrite dict_set_app_notin by assumption. rewrite dict_set_head.
    assert (Hk : ~ In k (keys KD)).
    { intro Hk. apply NoDup_remove_2 in Hnd. apply Hnd.
      apply in_or_app. now left. }
    rewrite dict_set_notin by assumption.
    rewrite IH.
    + rewrite <- app_assoc. reflexivity.
    + rewrite keys_app. simpl. rewrite <- app_assoc. exact Hnd.
Qed.

(** The entries of one node. *)
Lemma rebuild_nbrs (P R : MultiDiGraph N W) (u : N) :
  ~ In (f u) (keys P) ->
  forall (nbrs NB : dict N (dict nat W)),
    NoDup (keys NB ++ map f (keys nbrs)) ->
    (forall v kd, In (v, kd) nbrs ->
       In (f v) (keys P ++ f u :: keys R) /\ NoDup (keys kd) /\ kd <> []) ->
    fold_left step (out_edges_data u nbrs) (P ++ (f u, NB) :: R) =
    P ++ (f u, NB ++ map_nbrs f g nbrs) :: R.
Proof.
  intros Hu. induction nbrs as [|[v kd] nbrs IH]; intros NB Hnd Hwf; simpl.
  - now rewrite app_nil_r.
  - unfold out_edges_data in *. simpl. rewrite fold_left_app.
    destruct (Hwf v kd (or_introl eq_refl)) as (Hin & Hkd & Hne).
    assert (Hv : ~ In (f v) (keys NB)).
    { intro Hv. apply NoDup_remove_2 in Hnd. apply Hnd.
      apply in_or_app. now left. }
    destruct kd as [|[k w] kd]; [congruence|].
    cbn [map fold_left fst snd step].
    rewrite add_edge_key_at; [|assumption|rewrite keys_app; exact Hin].
    apply dict_get_notin in Hv as Hg. rewrite Hg. simpl dict_set at 2.
    rewrite dict_set_notin by assumption.
    rewrite (rebuild_keys P R u v NB Hu Hv Hin kd [(k, g w)]) by exact Hkd.
    rewrite IH.
    + rewrite <- app_assoc. reflexivity.
    + rewrite keys_app. simpl. rewrite <- app_assoc. exact Hnd.
    + intros v' kd' Hin'. apply Hwf. now right.
Qed.

(** All entries. *)
Lemma rebuild_entries :
  forall (R P : MultiDiGraph N W),
    NoDup (keys P ++ map f (keys R)) ->
    (forall u nbrs, In (u, nbrs) R ->
       NoDup (keys nbrs) /\
       forall v kd, In (v, kd) nbrs ->
         In (f v) (keys P ++ map f (keys R)) /\ NoDup (keys kd) /\ kd <> []) ->
    fold_left step (edges_data R) (P ++ map (fun un => (f (fst un), [])) R) =
    P ++ map_graph f g R.
Proof.
  induction R as [|[u nbrs] R IH]; intros P Hnd Hwf; simpl.
  - reflexivity.
  - unfold edges_data in *. simpl. rewrite fold_left_app.
    destruct (Hwf u nbrs (or_introl eq_refl)) as (Hnb & Hall).
    assert (Hu : ~ In (f u) (keys P)).
    { intro Hin. apply NoDup_remove_2 in Hnd. apply Hnd.
      apply in_or_app. now left. }
    assert (Hk : keys (map (fun un : N * dict N (dict nat W) => (f (fst un), @nil (N * dict nat W))) R)
                 = map f (keys R)).
    { unfold keys. rewrite !map_map. reflexivity. }
    rewrite (rebuild_nbrs P _ u Hu nbrs []).
    + simpl app at 2.
      change (P ++ (f u, map_nbrs f g nbrs) :: ?X)
        with (P ++ [(f u, map_nbrs f g nbrs)] ++ X).
      rewrite app_assoc. rewrite IH.
      * rewrite <- app_assoc. reflexivity.
      * rewrite keys_app. simpl. rewrite <- app_assoc. exact Hnd.
      * intros u' nbrs' Hin'. destruct (Hwf u' nbrs' (or_intror Hin')) as (H1 & H2).
        split; [assumption|]. intros v kd Hv.
        destruct (H2 v kd Hv) as (H3 & H4 & H5). repeat split; try assumption.
        rewrite keys_app. simpl. rewrite <- app_assoc. exact H3.
    + simpl. apply Injective_map_NoDup; [exact f_inj | exact Hnb].
    + intros v kd Hv. rewrite Hk. apply Hall. exact Hv.
Qed.

(** Adding the renamed nodes of a well-formed graph and then its edges,
    under their keys and in iteration order, gives the renamed graph. *)
Lemma rebuild_map_graph (G : MultiDiGraph N W) :
  wf_graph G ->
  fold_left step (edges_data G) (add_nodes_from empty_graph (map f (nodes G))) =
  map_graph f g G.
Proof.
  intros [Hnd Hwf].
  rewrite add_nodes_from_fresh
    by (simpl; apply Injective_map_NoDup; [exact f_inj | exact Hnd]).
  unfold empty_graph, nodes. simpl app.
  replace (map (fun n : N => (n, @nil (N * dict nat W))) (map f (keys G)))
    with (map (fun un : N * dict N (dict nat W) => (f (fst un), @nil (N * dict nat W))) G)
    by (unfold keys; rewrite !map_map; reflexivity).
  refine (rebuild_entries G [] _ _);
    [exact (Injective_map_NoDup f_inj Hnd) |].
  intros u nbrs Hin. destruct (Hwf u nbrs Hin) as (H1 & H2).
  split; [assumption|]. intros v kd Hv.
  destruct (H2 v kd Hv) as (H3 & H4 & H5). repeat split; try assumption.
  simpl. now apply in_map.
Qed.

End GraphFacts.

(** ** Renaming a graph *)

Section MapGraphFacts.
Context {N W : Type}.

Lemma map_graph_compose (f1 f2 : N -> N) (g1 g2 : W -> W) (G : MultiDiGraph N W) :
  map_graph f2 g2 (map_graph f1 g1 G) =
  map_graph (fun n => f2 (f1 n)) (fun w => g2 (g1 w)) G.
Proof.
  unfold map_graph, map_nbrs, map_keydict. rewrite map_map.
  apply map_ext. intros [u nbrs]. simpl. f_equal.
  rewrite map_map. apply map_ext. intros [v kd]. simpl. f_equal.
  rewrite map_map. apply map_ext. intros [k w]. reflexivity.
Qed.

Lemma map_graph_id (f : N -> N) (g : W -> W) (G : MultiDiGraph N W) :
  (forall n, f n = n) -> (forall w, g w = w) -> map_graph f g G = G.
Proof.
  intros Hf Hg. unfold map_graph, map_nbrs, map_keydict.
  rewrite <- (map_id G) at 2. apply map_ext. intros [u nbrs]. simpl.
  rewrite Hf. f_equal.
  rewrite <- (map_id nbrs) at 2. apply map_ext. intros [v kd]. simpl.
  rewrite Hf. f_equal.
  rewrite <- (map_id kd) at 2. apply map_ext. intros [k w]. simpl.
  now rewrite Hg.
Qed.

Lemma nodes_map_graph (f : N -> N) (g : W -> W) (G : MultiDiGraph N W) :
  nodes (map_graph f g G) = map f (nodes G).
Proof. unfold nodes, keys, map_graph. rewrite !map_map. reflexivity. Qed.

Lemma edges_data_map_graph (f : N -> N) (g : W -> W) (G : MultiDiGraph N W) :
  edges_data (map_graph f g G) =
  map (fun e => (f (fst (fst (fst e))), f (snd (fst (fst e))), snd (fst e), g (snd e)))
    (edges_data G).
Proof.
  unfold edges_data, map_graph.
  induction G as [|[u nbrs] G IH]; simpl; [reflexivity|].
  rewrite map_app, IH. f_equal.
  unfold out_edges_data, map_nbrs. clear IH.
  induction nbrs as [|[v kd] nbrs IHn]; simpl; [reflexivity|].
  rewrite map_app, IHn. f_equal.
  unfold map_keydict. rewrite !map_map. reflexivity.
Qed.

Lemma wf_map_graph (f : N -> N) (g : W -> W) (G : MultiDiGraph N W) :
  Injective f -> wf_graph G -> wf_graph (map_graph f g G).
Proof.
  intros Hf [Hnd Hwf].
  assert (Hk : keys (map_graph f g G) = map f (keys G))
    by (unfold keys, map_graph; rewrite !map_map; reflexivity).
  split.
  - rewrite Hk. now apply Injective_map_NoDup.
  - intros u' nbrs' Hin. unfold map_graph in Hin. apply in_map_iff in Hin.
    destruct Hin as ([u nbrs] & E & Hin). simpl in E. inversion E; subst u' nbrs'.
    destruct (Hwf u nbrs Hin) as (Hnb & Hall). split.
    + unfold keys, map_nbrs. rewrite map_map. simpl.
      change (map (fun x : N * list (nat * W) => f (fst x)) nbrs)
        with (map (fun x : N * list (nat * W) => f (fst x)) nbrs).
      rewrite <- (map_map fst f). now apply Injective_map_NoDup.
    + intros v' kd' Hv. unfold map_nbrs in Hv. apply in_map_iff in Hv.
      destruct Hv as ([v kd] & E' & Hv). simpl in E'. inversion E'; subst v' kd'.
      destruct (Hall v kd Hv) as (H1 & H2 & H3). rewrite Hk. repeat split.
      * now apply in_map.
      * unfold keys, map_keydict. rewrite map_map. simpl. exact H2.
      * destruct kd; [congruence | discriminate].
Qed.

End MapGraphFacts.

(** ** Sign reversal of a module *)

Lemma flip_involutive (d : Direction) : flip (flip d) = d.
Proof. now destruct d. Qed.

Lemma flip_neq (d : Direction) : flip d <> d.
Proof. destruct d; discriminate. Qed.

Lemma nodeMapping_involutive (b : BlockVertex) : nodeMapping (nodeMapping b) = b.
Proof. destruct b as [[n p] d]. unfold nodeMapping. simpl. now rewrite flip_involutive. Qed.

Lemma nodeMapping_injective : Injective nodeMapping.
Proof.
  intros a b E. rewrite <- (nodeMapping_involutive a), <- (nodeMapping_involutive b).
  now rewrite E.
Qed.

(** On a well-formed module [signReverse] is the renaming of the whole
    graph: signs swapped, bit arrays reversed, order and keys kept. *)
Lemma signReverse_map_graph (M : Module) :
  wf_graph M -> signReverse M = map_graph nodeMapping (@rev ascii) M.
Proof.
  intro Hwf. unfold signReverse.
  exact (rebuild_map_graph nodeMapping (@rev ascii) nodeMapping_injective M Hwf).
Qed.

(** C10. [signReverse] keeps the accession and interval of every
    block-vertex and swaps its orientation, reverses every edge's bit
    array under the same edge key, keeps the number of nodes and of
    edges, and applied twice gives back the module itself. *)
Theorem signReverse_involution (M : Module) :
  wf_graph M ->
  nodes (signReverse M) = map nodeMapping (nodes M) /\
  (forall b : BlockVertex,
      bv_name (nodeMapping b) = bv_name b /\
      bv_path (nodeMapping b) = bv_path b /\
      bv_dir (nodeMapping b) = flip (bv_dir b) /\
      bv_dir (nodeMapping b) <> bv_dir b) /\
  edges_data (signReverse M) =
    map (fun e => (nodeMapping (fst (fst (fst e))), nodeMapping (snd (fst (fst e))),
                   snd (fst e), rev (snd e))) (edges_data M) /\
  List.length (nodes (signReverse M)) = List.length (nodes M) /\
  List.length (edges (signReverse M)) = List.length (edges M) /\
  signReverse (signReverse M) = M.
Proof.
  intro Hwf.
  pose proof (signReverse_map_graph M Hwf) as HM.
  assert (Hwf' : wf_graph (signReverse M))
    by (rewrite HM; apply wf_map_graph; [exact nodeMapping_injective | exact Hwf]).
  repeat split.
  - rewrite HM. apply nodes_map_graph.
  - apply flip_neq.
  - rewrite HM. apply edges_data_map_graph.
  - rewrite HM, nodes_map_graph. apply length_map.
  - unfold edges. rewrite HM, edges_data_map_graph. now rewrite !length_map.
  - rewrite (signReverse_map_graph _ Hwf'), HM, map_graph_compose.
    apply map_graph_id; [exact nodeMapping_involutive | exact (@rev_involutive ascii)].
Qed.

Lemma sample_module_wf : wf_graph sample_module.
Proof.
  split.
  - vm_compute. repeat constructor; simpl; intuition discriminate.
  - intros u nbrs Hin. vm_compute in Hin.
    destruct Hin as [E|[E|[]]]; inversion E; subst; clear E; split.
    + vm_compute. repeat constructor; simpl; intuition discriminate.
    + intros v kd [E|[]]; inversion E; subst; clear E. vm_compute.
      repeat split; [tauto | repeat constructor; simpl; tauto | discriminate].
    + vm_compute. repeat constructor; simpl; intuition discriminate.
    + intros v kd [E|[]]; inversion E; subst; clear E. vm_compute.
      repeat split; [tauto | repeat constructor; simpl; tauto | discriminate].
Qed.

Lemma signReverse_involution_witness :
  signReverse (signReverse sample_module) = sample_module.
Proof.
  apply (signReverse_involution sample_module).
  exact sample_module_wf.
Defined.

(** ** Two-way module chop *)

Section AddEdgeNodes.
Context {N W : Type} `{EqbSpec N}.

Lemma nodes_add_node (G : MultiDiGraph N W) (n m : N) :
  In m (nodes (add_node G n)) <-> m = n \/ In m (nodes G).
Proof.
  unfold add_node, nodes. destruct (dict_mem G n) eqn:E.
  - apply dict_mem_In in E. split; [tauto|]. intros [->|Hin]; assumption.
  - rewrite keys_app, in_app_iff. simpl. intuition.
Qed.

Lemma nodes_add_edge_key (G : MultiDiGraph N W) (u v : N) (k : nat) (w : W) (m : N) :
  In m (nodes (add_edge_key G u v k w)) <-> m = u \/ m = v \/ In m (nodes G).
Proof.
  unfold add_edge_key.
  assert (Hu : In u (keys (add_node (add_node G u) v))).
  { apply nodes_add_node. right. apply nodes_add_node. now left. }
  unfold nodes. rewrite keys_dict_set by exact Hu.
  change (In m (nodes (add_node (add_node G u) v)) <-> m = u \/ m = v \/ In m (nodes G)).
  rewrite !nodes_add_node. tauto.
Qed.

Lemma nodes_add_edge (G : MultiDiGraph N W) (u v : N) (w : W) (m : N) :
  In m (nodes (add_edge G u v w)) <-> m = u \/ m = v \/ In m (nodes G).
Proof. unfold add_edge. apply nodes_add_edge_key. Qed.

End AddEdgeNodes.

Lemma bind_Ok {A B : Type} (c : result A) (k : A -> result B) (b : B) :
  bind c k = Ok b -> exists a, c = Ok a /\ k a = Ok b.
Proof. destruct c as [a|e]; simpl; [eauto | discriminate]. Qed.

(** A split records both halves of its source in the two parts and
    forgets no node. *)
Lemma ptm_split_nodes (st st' : ptm_state) (sourceSeg destSeg : BlockVertex)
  (a b : bitarray) :
  ptm_split st sourceSeg destSeg a b = Ok st' ->
  exists sF sS,
    dict_get (first_node_dic st) sourceSeg = Some sF /\
    dict_get (second_node_dic st) sourceSeg = Some sS /\
    In sF (nodes (firstPart st')) /\
    In sS (nodes (secondPart st')) /\
    (forall n, In n (nodes (firstPart st)) -> In n (nodes (firstPart st'))) /\
    (forall n, In n (nodes (secondPart st)) -> In n (nodes (secondPart st'))).
Proof.
  unfold ptm_split. destruct destSeg as [[destNode [destStart destEnd]] dd].
  intro Hs.
  apply bind_Ok in Hs. destruct Hs as (sF & HsF & Hs).
  apply bind_Ok in Hs. destruct Hs as (sS & HsS & Hs).
  apply bind_Ok in Hs.
  destruct Hs as ([[[[[[sfa ssa] dfa] dsa] dfn] dsn] dist] & _ & Hs).
  inversion Hs; subst st'; clear Hs. simpl.
  unfold dict_item in HsF, HsS.
  destruct (dict_get (first_node_dic st) sourceSeg) as [x|]; [|discriminate].
  destruct (dict_get (second_node_dic st) sourceSeg) as [y|]; [|discriminate].
  inversion HsF; inversion HsS; subst x y.
  exists sF, sS. repeat split; try reflexivity;
    try (rewrite !nodes_add_edge; tauto);
    intros n Hn; rewrite !nodes_add_edge; tauto.
Qed.

(** The loop invariant: as long as no split has happened the three
    dictionaries hold the chopped block only; after the first split the
    two halves of the chopped block are nodes of the two parts. *)
Definition ptm_inv (v fv1 fv2 : BlockVertex) (k : Z) (st : ptm_state) : Prop :=
  (seg_distance_dic st = [(v, k)] /\
   first_node_dic st = [(v, fv1)] /\
   second_node_dic st = [(v, fv2)] /\
   nodeSet st <> []) \/
  (In fv1 (nodes (firstPart st)) /\ In fv2 (nodes (secondPart st))).

Lemma ptm_body_inv (module : Module) (v fv1 fv2 : BlockVertex) (k : Z)
  (st : ptm_state) (edge : BlockVertex * BlockVertex * nat) (o : ptm_outcome) :
  k <> -1 ->
  ptm_inv v fv1 fv2 k st ->
  ptm_body module st edge = Ok o ->
  match o with
  | Returns parts =>
      exists M1 M2, parts = [M1; M2] /\ In fv1 (nodes M1) /\ In fv2 (nodes M2)
  | Continues st' => ptm_inv v fv1 fv2 k st'
  end.
Proof.
  intros Hk Hinv Hb. unfold ptm_body in Hb.
  destruct edge as [[sourceSeg destSeg] counter].
  apply bind_Ok in Hb. destruct Hb as (s2d & _ & Hb).
  apply bind_Ok in Hb. destruct Hb as (d2s & _ & Hb).
  apply bind_Ok in Hb. destruct Hb as (l1 & _ & Hb).
  apply bind_Ok in Hb. destruct Hb as (l2 & _ & Hb).
  set (st1 := with_edgeList st l2) in *.
  assert (Hinv1 : ptm_inv v fv1 fv2 k st1) by exact Hinv.
  clearbody st1. clear Hinv.
  destruct (negb (mem sourceSeg (nodeSet st1)) && negb (mem destSeg (nodeSet st1))).
  { inversion Hb; subst o. exact Hinv1. }
  apply bind_Ok in Hb. destruct Hb as (st2 & Hst2 & Hb).
  assert (Hinv2 : (st2 = st1 /\ ptm_inv v fv1 fv2 k st1) \/
                  (In fv1 (nodes (firstPart st2)) /\ In fv2 (nodes (secondPart st2)))).
  { destruct (negb (seg_distance (seg_distance_dic st1) sourceSeg =? -1)) eqn:Ed.
    - right. apply ptm_split_nodes in Hst2.
      destruct Hst2 as (sF & sS & HF & HS & HinF & HinS & HmF & HmS).
      destruct Hinv1 as [(Hd & Hf & Hs & _) | (H1 & H2)].
      + rewrite Hf in HF. rewrite Hs in HS. rewrite Hd in Ed.
        unfold seg_distance in Ed. simpl in Ed, HF, HS.
        destruct (eqb v sourceSeg).
        * inversion HF; inversion HS; subst. now split.
        * discriminate.
      + split; [apply HmF | apply HmS]; assumption.
    - left. inversion Hst2; subst st2. split; [reflexivity | exact Hinv1]. }
  destruct (nodeSet st2) as [|x t] eqn:En; inversion Hb; subst o.
  - destruct Hinv2 as [(-> & [(_ & _ & _ & Hne) | HB]) | HB].
    + congruence.
    + exists (firstPart st1), (secondPart st1). tauto.
    + exists (firstPart st2), (secondPart st2). tauto.
  - destruct Hinv2 as [(-> & Hi) | HB]; [exact Hi | right; exact HB].
Qed.

Lemma ptm_loop_parts (module : Module) (v fv1 fv2 : BlockVertex) (k : Z) (fuel : nat) :
  k <> -1 ->
  forall (st : ptm_state) (parts : list Module),
    ptm_inv v fv1 fv2 k st ->
    ptm_loop fuel module st = Ok parts ->
    exists M1 M2, parts = [M1; M2] /\ In fv1 (nodes M1) /\ In fv2 (nodes M2).
Proof.
  intro Hk. induction fuel as [|f IH]; intros st parts Hinv Hl; simpl in Hl.
  - destruct (edgeList st); discriminate.
  - destruct (edgeList st) as [|edge rest]; [discriminate|].
    apply bind_Ok in Hl. destruct Hl as (o & Ho & Hl).
    pose proof (ptm_body_inv module v fv1 fv2 k st edge o Hk Hinv Ho) as Hstep.
    destruct o as [ps|st'].
    + inversion Hl; subst ps. exact Hstep.
    + now apply (IH st').
Qed.

Lemma partitionToTwoModules_Ok (M : Module) (s : Node) (lo hi : Z) (o : Direction)
  (k : Z) (parts : list Module) :
  k <> -1 ->
  partitionToTwoModules (s, (lo, hi), o) k M = Ok parts ->
  exists M1 M2, parts = [M1; M2] /\ fragments_placed s lo hi o k M1 M2.
Proof.
  intros Hk Hp. unfold fragments_placed. unfold partitionToTwoModules in Hp.
  set (v := (s, (lo, hi), o)) in *.
  destruct o.
  - destruct (discard v (dedup (nodes M))) as [|x t] eqn:En.
    + inversion Hp; subst parts. eexists _, _. split; [reflexivity|].
      split; apply nodes_add_node; now left.
    + apply (ptm_loop_parts M v (s, (lo, lo + k), Plus) (s, (lo + k, hi), Plus) k)
        in Hp; [exact Hp | exact Hk |].
      left. simpl. repeat split; discriminate.
  - destruct (discard v (dedup (nodes M))) as [|x t] eqn:En.
    + inversion Hp; subst parts. eexists _, _. split; [reflexivity|].
      split; apply nodes_add_node; now left.
    + apply (ptm_loop_parts M v (s, (lo + k, hi), Minus) (s, (lo, lo + k), Minus) k)
        in Hp; [|exact Hk|].
      * destruct Hp as (M1 & M2 & E & H1 & H2). exists M1, M2. tauto.
      * left. simpl. repeat split; discriminate.
Qed.

Lemma dedup_singleton {A : Type} `{EqbSpec A} (x : A) : dedup [x] = [x].
Proof. reflexivity. Qed.

Lemma partitionToTwoModules_alone (v : BlockVertex) (k : Z) (M : Module) :
  nodes M = [v] ->
  exists M1 M2, partitionToTwoModules v k M = Ok [M1; M2].
Proof.
  intro Hn. unfold partitionToTwoModules.
  destruct v as [[s [lo hi]] o]. rewrite Hn. simpl dedup.
  unfold discard. simpl filter. rewrite eqb_refl. simpl.
  destruct o; eexists _, _; reflexivity.
Qed.

(** A chop from a block without any edge finds nothing to traverse:
    with another block in the module the loop is skipped and the
    function ends in its final [raise]. *)
Lemma partitionToTwoModules_no_edge (v w : BlockVertex) (k : Z) (M : Module) :
  In w (nodes M) -> w <> v -> out_edges M v = [] ->
  partitionToTwoModules v k M = Raise (ValueError "Everything is missed").
Proof.
  intros Hw Hne Hout. unfold partitionToTwoModules.
  destruct v as [[s [lo hi]] o].
  set (v := (s, (lo, hi), o)) in *.
  assert (He : edge_bfs M v = []).
  { unfold edge_bfs. destruct (dict_mem M v); [|reflexivity].
    simpl. rewrite Hout. reflexivity. }
  assert (Hns : discard v (dedup (nodes M)) <> []).
  { assert (Hin : In w (discard v (dedup (nodes M)))).
    { unfold discard. apply filter_In. split.
      - clear - Hw. induction (nodes M) as [|x t IH]; simpl in *; [tauto|].
        destruct (mem x t) eqn:Em.
        + destruct Hw as [->|Hw]; [apply mem_In in Em|]; auto.
        + destruct Hw as [->|Hw]; [now left | right; auto].
      - apply negb_true_iff. now apply eqb_neq. }
    intro E. rewrite E in Hin. exact Hin. }
  rewrite He.
  destruct o; destruct (discard v (dedup (nodes M))); try congruence; reflexivity.
Qed.

(** ** The breadth-first edge list around its source *)

Section DictMore.
Context {K V : Type} `{EqbSpec K}.

Lemma dict_get_Some_In (d : dict K V) (k : K) (v : V) :
  dict_get d k = Some v -> In (k, v) d.
Proof.
  induction d as [|[k' v'] t IH]; simpl; [discriminate|].
  destruct (eqb_spec k' k) as [->|Hne].
  - intro E. injection E as ->. now left.
  - intro E. right. now apply IH.
Qed.

Lemma dict_get_NoDup (d : dict K V) (k : K) (v : V) :
  NoDup (keys d) -> In (k, v) d -> dict_get d k = Some v.
Proof.
  induction d as [|[k' v'] t IH]; simpl; intros Hnd Hin; [contradiction|].
  apply NoDup_cons_iff in Hnd as [Hk Hnd].
  destruct Hin as [E|Hin].
  - injection E as -> ->. now rewrite eqb_refl.
  - destruct (eqb_spec k' k) as [->|Hne]; [|now apply IH].
    exfalso. apply Hk. change k with (fst (k, v)). now apply in_map.
Qed.

Lemma dict_get_set_other (d : dict K V) (k k' : K) (v : V) :
  k <> k' -> dict_get (dict_set d k v) k' = dict_get d k'.
Proof.
  intro Hne. induction d as [|[k0 v0] t IH]; simpl.
  - destruct (eqb_spec k k'); [contradiction|reflexivity].
  - destruct (eqb_spec k0 k) as [->|Hk]; simpl.
    + destruct (eqb_spec k k'); [contradiction|reflexivity].
    + destruct (eqb_spec k0 k'); [reflexivity|exact IH].
Qed.

End DictMore.

Section ListRemove.
Context {A : Type} `{EqbSpec A}.

Lemma list_remove_head (x : A) (l : list A) : list_remove x (x :: l) = Ok l.
Proof. simpl. now rewrite eqb_refl. Qed.

Lemma list_remove_In (x : A) (l : list A) :
  In x l ->
  exists l', list_remove x l = Ok l' /\ forall z, z <> x -> In z l -> In z l'.
Proof.
  induction l as [|y t IH]; simpl; intro Hin; [contradiction|].
  destruct (eqb_spec y x) as [->|Hne].
  - exists t. split; [reflexivity|]. intros z Hz [E|Hz']; [congruence|exact Hz'].
  - destruct Hin as [E|Hin]; [contradiction|].
    destruct (IH Hin) as (t' & -> & Hkeep). exists (y :: t').
    split; [reflexivity|]. intros z Hz [E|Hz']; [now left|right; auto].
Qed.

Lemma list_remove_app_notin (x : A) (l1 l2 l2' : list A) :
  ~ In x l1 -> list_remove x l2 = Ok l2' ->
  list_remove x (l1 ++ l2) = Ok (l1 ++ l2').
Proof.
  intros Hn Hr. induction l1 as [|y t IH]; simpl; [exact Hr|].
  destruct (eqb_spec y x) as [->|Hne]; [exfalso; apply Hn; now left|].
  rewrite IH; [reflexivity|]. intro Hx. apply Hn. now right.
Qed.

End ListRemove.

Section BfsFacts.
Context {N W : Type} `{EqbSpec N}.

Lemma In_out_edges (G : MultiDiGraph N W) (u : N) (e : N * N * nat) :
  In e (out_edges G u) <->
  exists nbrs w kd c a,
    dict_get G u = Some nbrs /\ In (w, kd) nbrs /\ In (c, a) kd /\ e = (u, w, c).
Proof.
  unfold out_edges. destruct (dict_get G u) as [nbrs|].
  - unfold out_edges_data. rewrite in_map_iff. split.
    + intros (x & <- & Hx). apply in_flat_map in Hx as ([w kd] & Hw & Hx).
      apply in_map_iff in Hx as ([c a] & <- & Hc).
      now exists nbrs, w, kd, c, a.
    + intros (nbrs' & w & kd & c & a & E & Hw & Hc & ->). injection E as <-.
      exists (u, w, c, a). split; [reflexivity|].
      apply in_flat_map. exists (w, kd). split; [exact Hw|].
      apply in_map_iff. now exists (c, a).
  - split; [intros []|]. intros (nbrs & w & kd & c & a & E & _). discriminate.
Qed.

Lemma out_edges_source (G : MultiDiGraph N W) (u : N) (e : N * N * nat) :
  In e (out_edges G u) -> fst (fst e) = u.
Proof.
  intro He. apply In_out_edges in He as (nbrs & w & kd & c & a & _ & _ & _ & ->).
  reflexivity.
Qed.

Lemma out_edges_weight (G : MultiDiGraph N W) (u w : N) (c : nat) :
  wf_graph G -> In (u, w, c) (out_edges G u) ->
  exists a, get_weight G u w c = Ok a.
Proof.
  intros [_ Hwf] He.
  apply In_out_edges in He as (nbrs & w' & kd & c' & a & Hu & Hw & Hc & E).
  injection E as <- <-.
  destruct (Hwf u nbrs (dict_get_Some_In G u nbrs Hu)) as [Hnd Hkd].
  destruct (Hkd w kd Hw) as (_ & Hndk & _).
  exists a. unfold get_weight, dict_item. rewrite Hu. simpl.
  rewrite (dict_get_NoDup nbrs w kd Hnd Hw). simpl.
  now rewrite (dict_get_NoDup kd c a Hndk Hc).
Qed.

Lemma length_out_edges (G : MultiDiGraph N W) (u : N) :
  (List.length (out_edges G u) <= List.length (edges G))%nat.
Proof.
  unfold out_edges, edges, edges_data.
  destruct (dict_get G u) as [nbrs|] eqn:E; [|simpl; lia].
  apply dict_get_Some_In in E. rewrite !length_map.
  induction G as [|[u' nbrs'] t IH]; [contradiction|].
  simpl. rewrite length_app. destruct E as [E|E].
  - injection E as -> ->. lia.
  - specialize (IH E). lia.
Qed.

(** One pass over the edges of a parent: the edges that were not seen
    before are yielded, once each, and the children that were not seen
    before join the queue. *)
Lemma bfs_children_spec (children_edges : list (N * N * nat)) :
  forall (visited_nodes : list N) (visited_edges : list (N * N * nat))
         (queue : list N) (yielded : list (N * N * nat)),
  exists vn ve qn yn,
    bfs_children children_edges visited_nodes visited_edges queue yielded
      = (vn, ve, queue ++ qn, yielded ++ yn) /\
    (forall e, In e yn <-> In e children_edges /\ ~ In e visited_edges) /\
    (forall e, In e ve <-> In e visited_edges \/ In e children_edges) /\
    (forall e, In e children_edges -> In (snd (fst e)) visited_nodes \/ In (snd (fst e)) qn) /\
    (List.length qn <= List.length children_edges)%nat /\
    NoDup yn.
Proof.
  induction children_edges as [|edge rest IH]; intros vn0 ve0 q0 y0.
  - exists vn0, ve0, [], []. simpl. rewrite !app_nil_r.
    split; [reflexivity|]. split; [intro e; tauto|]. split; [intro e; tauto|].
    split; [intros e []|]. split; [lia|constructor].
  - cbn [bfs_children].
    set (child := snd (fst edge)).
    destruct (mem child vn0) eqn:Ec; destruct (mem edge ve0) eqn:Ee.
    + destruct (IH vn0 ve0 q0 y0) as (vn & ve & qn & yn & Hr & Hy & Hv & Hq & Hl & Hnd).
      exists vn, ve, qn, yn. split; [exact Hr|].
      apply mem_In in Ec, Ee.
      split; [|split; [|split; [|split]]].
      * intro e. rewrite Hy. simpl. split; [tauto|].
        intros [[<-|He] Hn]; [contradiction|tauto].
      * intro e. rewrite Hv. simpl. split; [tauto|].
        intros [He|[<-|He]]; tauto.
      * intros e [<-|He]; [now left|now apply Hq].
      * simpl. lia.
      * exact Hnd.
    + destruct (IH vn0 (edge :: ve0) q0 (y0 ++ [edge]))
        as (vn & ve & qn & yn & Hr & Hy & Hv & Hq & Hl & Hnd).
      exists vn, ve, qn, (edge :: yn). rewrite Hr, <- app_assoc.
      split; [reflexivity|]. apply mem_In in Ec. apply mem_notin in Ee.
      split; [|split; [|split; [|split]]].
      * intro e. simpl. rewrite Hy. simpl. split.
        -- intros [<-|[He Hn]]; [tauto|]. tauto.
        -- intros [[<-|He] Hn]; [now left|].
           destruct (eqb_spec edge e) as [->|Hne]; [now left|right]. tauto.
      * intro e. rewrite Hv. simpl. tauto.
      * intros e [<-|He]; [now left|now apply Hq].
      * simpl. lia.
      * constructor; [|exact Hnd]. rewrite Hy. simpl. tauto.
    + destruct (IH (child :: vn0) ve0 (q0 ++ [child]) y0)
        as (vn & ve & qn & yn & Hr & Hy & Hv & Hq & Hl & Hnd).
      exists vn, ve, (child :: qn), yn. rewrite Hr, <- app_assoc.
      split; [reflexivity|]. apply mem_In in Ee.
      split; [|split; [|split; [|split]]].
      * intro e. rewrite Hy. simpl. split; [tauto|].
        intros [[<-|He] Hn]; [contradiction|tauto].
      * intro e. rewrite Hv. simpl. split; [tauto|].
        intros [He|[<-|He]]; tauto.
      * intros e [<-|He]; [right; now left|].
        destruct (Hq e He) as [[E|Hin]|Hin]; [right; left; exact E|now left|right; now right].
      * simpl. lia.
      * exact Hnd.
    + destruct (IH (child :: vn0) (edge :: ve0) (q0 ++ [child]) (y0 ++ [edge]))
        as (vn & ve & qn & yn & Hr & Hy & Hv & Hq & Hl & Hnd).
      exists vn, ve, (child :: qn), (edge :: yn). rewrite Hr, <- !app_assoc.
      split; [reflexivity|]. apply mem_notin in Ee.
      split; [|split; [|split; [|split]]].
      * intro e. simpl. rewrite Hy. simpl. split.
        -- intros [<-|[He Hn]]; [tauto|]. tauto.
        -- intros [[<-|He] Hn]; [now left|].
           destruct (eqb_spec edge e) as [->|Hne]; [now left|right]. tauto.
      * intro e. rewrite Hv. simpl. tauto.
      * intros e [<-|He]; [right; now left|].
        destruct (Hq e He) as [[E|Hin]|Hin]; [right; left; exact E|now left|right; now right].
      * simpl. lia.
      * constructor; [|exact Hnd]. rewrite Hy. simpl. tauto.
Qed.

(** A node that waits in the queue gets its turn when the passes left
    are more than the nodes ahead of it; its edges are then yielded,
    unless they were seen before. *)
Lemma bfs_loop_covers (G : MultiDiGraph N W) (w : N) (e : N * N * nat) :
  In e (out_edges G w) ->
  forall (pre post : list N) (fuel : nat) (visited_nodes : list N)
         (visited_edges : list (N * N * nat)),
    (List.length pre < fuel)%nat ->
    In e visited_edges \/
    In e (bfs_loop fuel G (pre ++ w :: post) visited_nodes visited_edges).
Proof.
  intro He. induction pre as [|p pre IH]; intros post fuel vn ve Hf;
    (destruct fuel as [|f]; [simpl in Hf; lia|]); cbn [bfs_loop app].
  - destruct (bfs_children_spec (out_edges G w) vn ve post [])
      as (vn' & ve' & qn & yn & Hr & Hy & _).
    rewrite Hr. cbn [app].
    destruct (in_dec (fun a b : N * N * nat =>
                        match eqb_spec a b with
                        | ReflectT _ E => left E
                        | ReflectF _ n => right n end) e ve) as [Hin|Hnin];
      [now left|right].
    apply in_or_app. left. apply Hy. now split.
  - destruct (bfs_children_spec (out_edges G p) vn ve (pre ++ w :: post) [])
      as (vn' & ve' & qn & yn & Hr & Hy & Hv & _).
    rewrite Hr. cbn [app]. rewrite <- app_assoc. cbn [app].
    destruct (IH (post ++ qn) f vn' ve') as [Hin|Hin]; [simpl in Hf; lia| |].
    + apply Hv in Hin as [Hin|Hin]; [now left|].
      destruct (in_dec (fun a b : N * N * nat =>
                          match eqb_spec a b with
                          | ReflectT _ E => left E
                          | ReflectF _ n => right n end) e ve) as [Hi|Hnin];
        [now left|right].
      apply in_or_app. left. apply Hy. now split.
    + right. apply in_or_app. now right.
Qed.

(** The edge list of a traversal starts with the edges out of its
    source, each once; the edge back from a neighbour under the same
    key comes later in the list. *)
Lemma edge_bfs_centre (G : MultiDiGraph N W) (v : N) :
  In v (nodes G) ->
  exists Y R,
    edge_bfs G v = Y ++ R /\ NoDup Y /\
    (forall e, In e Y <-> In e (out_edges G v)) /\
    (forall w c, In (v, w, c) (out_edges G v) -> w <> v ->
                 In (w, v, c) (out_edges G w) -> In (w, v, c) R).
Proof.
  intro Hv. unfold edge_bfs.
  assert (Hm : dict_mem G v = true) by now apply dict_mem_In.
  rewrite Hm. cbn [bfs_loop].
  destruct (bfs_children_spec (out_edges G v) [v] [] [] [])
    as (vn & ve & qn & yn & Hr & Hy & Hve & Hq & Hl & Hnd).
  rewrite Hr. cbn [app]. exists yn, (bfs_loop (S (List.length (edges G))) G qn vn ve).
  split; [reflexivity|]. split; [exact Hnd|]. split.
  - intro e. rewrite Hy. simpl. tauto.
  - intros w c Hvw Hne Hwv.
    destruct (Hq (v, w, c) Hvw) as [[E|[]]|Hin]; [simpl in E; congruence|].
    cbn [fst snd] in Hin. apply in_split in Hin as (pre & post & ->).
    destruct (bfs_loop_covers G w (w, v, c) Hwv pre post
                (S (List.length (edges G))) vn ve) as [Hin|Hin]; [|exfalso|exact Hin].
    + rewrite length_app in Hl. simpl in Hl.
      pose proof (length_out_edges G v). lia.
    + apply Hve in Hin as [[]|Hin].
      apply out_edges_source in Hin. simpl in Hin. congruence.
Qed.

End BfsFacts.

(** ** A chop of the block that every other block is aligned with *)

Lemma choppedIndex_Ok (m : bitarray) (k : Z) :
  0 < k <= sys_maxsize + 1 -> exists boundary, choppedIndex m k = Ok boundary.
Proof.
  intro Hk. destruct (Z.lt_ge_cases (count_ones m) k) as [Hb|Hin].
  - rewrite (choppedIndex_beyond m k Hb).
    destruct (k <=? sys_maxsize + 1) eqn:E; [eauto|]. apply Z.leb_gt in E. lia.
  - unfold choppedIndex. destruct (k =? 0) eqn:E0; [apply Z.eqb_eq in E0; lia|].
    rewrite nth_item_found by lia. eauto.
Qed.

Lemma ptm_split_Ok (st : ptm_state) (v w fv1 fv2 : BlockVertex) (k : Z)
  (a b : bitarray) :
  dict_get (seg_distance_dic st) v = Some k ->
  dict_get (first_node_dic st) v = Some fv1 ->
  dict_get (second_node_dic st) v = Some fv2 ->
  0 < k <= sys_maxsize + 1 ->
  exists st' d f1 f2,
    ptm_split st v w a b = Ok st' /\
    edgeList st' = edgeList st /\
    nodeSet st' = discard w (nodeSet st) /\
    seg_distance_dic st' = dict_set (seg_distance_dic st) w d /\
    first_node_dic st' = dict_set (first_node_dic st) w f1 /\
    second_node_dic st' = dict_set (second_node_dic st) w f2.
Proof.
  intros Hd Hf Hs Hk. unfold ptm_split.
  destruct w as [[destNode [destStart destEnd]] dd].
  unfold seg_distance, dict_item. rewrite Hd, Hf, Hs. cbn [bind].
  destruct (bv_dir v).
  - destruct (choppedIndex_Ok a k Hk) as [bd ->]. cbn [bind].
    destruct dd; cbn [bind]; eexists _, _, _, _; repeat split.
  - destruct (choppedIndex_Ok (rev a) k Hk) as [bd ->]. cbn [bind].
    destruct dd; cbn [bind]; eexists _, _, _, _; repeat split.
Qed.

Section Centre.
Variable M : Module.
Variable v : BlockVertex.
Variable k : Z.
Hypothesis M_wf : wf_graph M.
Hypothesis k_range : 0 < k <= sys_maxsize + 1.
Hypothesis edges_back :
  forall w c, In (v, w, c) (out_edges M v) -> w <> v /\ In (w, v, c) (out_edges M w).

Lemma ptm_body_centre (rem : list (BlockVertex * BlockVertex * nat))
  (st : ptm_state) (w : BlockVertex) (c : nat) :
  centre_inv M v k ((v, w, c) :: rem) st ->
  exists o,
    ptm_body M st (v, w, c) = Ok o /\
    match o with
    | Returns _ => True
    | Continues st' => centre_inv M v k rem st'
    end.
Proof.
  intros ((R & HeL & Hback) & Hnd & Hout & Hd & (fv1 & Hf) & (fv2 & Hs) & Hne & Hns).
  apply NoDup_cons_iff in Hnd as [Hfresh Hnd].
  assert (Hvw : In (v, w, c) (out_edges M v)) by (apply Hout; now left).
  destruct (edges_back w c Hvw) as [Hwv Hrev].
  destruct (out_edges_weight M v w c M_wf Hvw) as [a Ha].
  destruct (out_edges_weight M w v c M_wf Hrev) as [b Hb].
  assert (HinR : In (w, v, c) R) by (apply Hback; now left).
  destruct (list_remove_In (w, v, c) R HinR) as (R' & HR' & Hkeep).
  assert (Hnotrem : ~ In (w, v, c) rem).
  { intro Hin. assert (Hin' : In (w, v, c) (out_edges M v)) by (apply Hout; now right).
    apply out_edges_source in Hin'. simpl in Hin'. contradiction. }
  unfold ptm_body. rewrite Ha, Hb. cbn [bind].
  rewrite HeL. cbn [app]. rewrite list_remove_head. cbn [bind].
  rewrite (list_remove_app_notin (w, v, c) rem R R' Hnotrem HR'). cbn [bind].
  set (st1 := with_edgeList st (rem ++ R')).
  assert (Hlist : exists R0, edgeList st1 = rem ++ R0 /\
                    forall w0 c0, In (v, w0, c0) rem -> In (w0, v, c0) R0).
  { exists R'. split; [reflexivity|]. intros w0 c0 Hin. apply Hkeep.
    - intro E. injection E as -> ->. contradiction.
    - apply Hback. now right. }
  assert (Hrem : forall e, In e rem -> In e (out_edges M v))
    by (intros e He; apply Hout; now right).
  destruct (negb (mem v (nodeSet st1)) && negb (mem w (nodeSet st1))) eqn:Eb.
  - exists (Continues st1). split; [reflexivity|].
    apply andb_true_iff in Eb as [_ Ew]. apply negb_true_iff, mem_notin in Ew.
    split; [exact Hlist|]. split; [exact Hnd|]. split; [exact Hrem|].
    split; [exact Hd|]. split; [now exists fv1|]. split; [now exists fv2|].
    split; [exact Hne|].
    intros w0 Hw0. destruct (Hns w0 Hw0) as [c0 [E|Hin]]; [|now exists c0].
    injection E as -> ->. contradiction.
  - replace (seg_distance (seg_distance_dic st1) v) with k
      by (unfold seg_distance; cbn; now rewrite Hd).
    assert (Ek : negb (k =? -1) = true)
      by (apply negb_true_iff, Z.eqb_neq; lia).
    rewrite Ek.
    destruct (ptm_split_Ok st1 v w fv1 fv2 k a b Hd Hf Hs k_range)
      as (st2 & d & f1 & f2 & Hsplit & HeL2 & Hns2 & Hd2 & Hf2 & Hs2).
    rewrite Hsplit. cbn [bind].
    destruct (nodeSet st2) as [|x t] eqn:En.
    + eexists. split; [reflexivity|exact I].
    + exists (Continues st2). split; [reflexivity|].
      split; [rewrite HeL2; exact Hlist|]. split; [exact Hnd|]. split; [exact Hrem|].
      split; [rewrite Hd2, dict_get_set_other; [exact Hd|exact Hwv]|].
      split; [exists fv1; rewrite Hf2, dict_get_set_other; [exact Hf|exact Hwv]|].
      split; [exists fv2; rewrite Hs2, dict_get_set_other; [exact Hs|exact Hwv]|].
      split; [rewrite En; discriminate|].
      intros w0 Hw0. rewrite En in Hw0. try rewrite En in Hns2.
      rewrite Hns2 in Hw0.
      apply filter_In in Hw0 as [Hw0 Hne0].
      apply negb_true_iff, eqb_neq in Hne0.
      destruct (Hns w0 Hw0) as [c0 [E|Hin]]; [|now exists c0].
      injection E as -> ->. contradiction.
Qed.

Lemma ptm_loop_centre (fuel : nat) :
  forall (rem : list (BlockVertex * BlockVertex * nat)) (st : ptm_state),
    centre_inv M v k rem st ->
    (List.length rem <= fuel)%nat ->
    exists parts, ptm_loop fuel M st = Ok parts.
Proof.
  induction fuel as [|f IH]; intros rem st Hinv Hlen.
  - destruct rem as [|e rem]; [|simpl in Hlen; lia]. exfalso.
    destruct Hinv as (_ & _ & _ & _ & _ & _ & Hne & Hns).
    destruct (nodeSet st) as [|x t]; [congruence|].
    destruct (Hns x (or_introl eq_refl)) as [c []].
  - destruct rem as [|e rem].
    + exfalso. destruct Hinv as (_ & _ & _ & _ & _ & _ & Hne & Hns).
      destruct (nodeSet st) as [|x t]; [congruence|].
      destruct (Hns x (or_introl eq_refl)) as [c []].
    + assert (He : exists w c, e = (v, w, c)).
      { destruct Hinv as (_ & _ & Hout & _).
        pose proof (out_edges_source M v e (Hout e (or_introl eq_refl))) as Hsrc.
        destruct e as [[u w] c]. simpl in Hsrc. subst u. now exists w, c. }
      destruct He as (w & c & ->).
      destruct (ptm_body_centre rem st w c Hinv) as (o & Hbody & Ho).
      assert (HeL : exists R, edgeList st = (v, w, c) :: R).
      { destruct Hinv as ((R & HeL & _) & _). exists (rem ++ R). exact HeL. }
      destruct HeL as [R HeL]. cbn [ptm_loop]. rewrite HeL, Hbody. cbn [bind].
      destruct o as [parts|st']; [now exists parts|].
      apply (IH rem st' Ho). simpl in Hlen. lia.
Qed.

End Centre.

(** What the chopped block's two pieces are. *)
Lemma partitionToTwoModules_centre (M : Module) (v : BlockVertex) (k : Z) :
  wf_graph M ->
  In v (nodes M) ->
  0 < k <= sys_maxsize + 1 ->
  (forall w, In w (nodes M) -> w <> v -> exists c, In (v, w, c) (out_edges M v)) ->
  (forall w c, In (v, w, c) (out_edges M v) ->
               w <> v /\ In (w, v, c) (out_edges M w)) ->
  exists parts, partitionToTwoModules v k M = Ok parts.
Proof.
  intros Hwf Hv Hk Hstar Hback. unfold partitionToTwoModules.
  destruct v as [[name [lo hi]] direction].
  set (v := (name, (lo, hi), direction)) in *.
  destruct (edge_bfs_centre M v Hv) as (Y & R & HeL & Hnd & HY & HR).
  set (pieces := match direction with
                 | Plus => ((name, (lo, lo + k), Plus), (name, (lo + k, hi), Plus))
                 | Minus => ((name, (lo + k, hi), Minus), (name, (lo, lo + k), Minus))
                 end).
  destruct pieces as [first_node second_node] eqn:Ep.
  assert (Hgoal : exists parts,
            match discard v (dedup (nodes M)) with
            | [] => Ok [add_node empty_graph first_node;
                        add_node empty_graph second_node]
            | _ :: _ =>
                ptm_loop (List.length (edge_bfs M v)) M
                  {| edgeList := edge_bfs M v;
                     nodeSet := discard v (dedup (nodes M));
                     seg_distance_dic := [(v, k)];
                     first_node_dic := [(v, first_node)];
                     second_node_dic := [(v, second_node)];
                     firstPart := empty_graph;
                     secondPart := empty_graph |}
            end = Ok parts).
  { destruct (discard v (dedup (nodes M))) as [|x t] eqn:En; [eauto|].
    apply (ptm_loop_centre M v k Hwf Hk Hback _ Y).
    - split; [exists R; split; [exact HeL|]|].
      + intros w c Hin. apply HY in Hin.
        destruct (Hback w c Hin) as [Hne Hrev]. now apply HR.
      + split; [exact Hnd|]. split; [intros e He; now apply HY|].
        cbn [seg_distance_dic first_node_dic second_node_dic nodeSet dict_get].
        rewrite eqb_refl.
        split; [reflexivity|]. split; [now exists first_node|].
        split; [now exists second_node|]. split; [discriminate|].
        intros w Hw. rewrite <- En in Hw.
        apply filter_In in Hw as [Hw Hne].
        apply negb_true_iff, eqb_neq in Hne.
        apply (proj1 (In_dedup _ _)) in Hw.
        destruct (Hstar w Hw Hne) as [c Hc]. exists c. now apply HY.
    - rewrite HeL, length_app. lia. }
  subst pieces. destruct direction; injection Ep as <- <-; exact Hgoal.
Qed.




(** ** Registration of a new module *)

(** Whatever follows the first short block is never looked at. *)
Lemma updateNewModule_loop_break (newModule : ModuleObj) (trimLength : Z)
  (pre : list BlockVertex) (short : BlockVertex) (post : list BlockVertex) :
  (forall b, In b pre -> trimLength <= snd (bv_path b) - fst (bv_path b)) ->
  snd (bv_path short) - fst (bv_path short) < trimLength ->
  forall nodeToPathDic nodePathToModuleDic h,
    updateNewModule_loop newModule trimLength (pre ++ short :: post)
      nodeToPathDic nodePathToModuleDic h =
    updateNewModule_loop newModule trimLength pre nodeToPathDic nodePathToModuleDic h.
Proof.
  intros Hpre Hshort. induction pre as [|[[n p] d] pre IH]; intros n2p p2m h.
  - destruct short as [[n p] d]. unfold bv_path in Hshort. simpl in *.
    apply Z.ltb_lt in Hshort. now rewrite Hshort.
  - simpl. pose proof (Hpre (n, p, d) (or_introl eq_refl)) as Hl.
    unfold bv_path in Hl. simpl in Hl.
    destruct (snd p - fst p <? trimLength) eqn:E; [apply Z.ltb_lt in E; lia|].
    unfold pbind. destruct (n2p_item n2p n h) as [h1 [[n2p1 a]|e]]; [|reflexivity].
    destruct (set_add_at a p h1) as [h2 [[]|e]]; [|reflexivity].
    apply IH. intros b Hb. apply Hpre. now right.
Qed.

(** C4 on the code. The left part of [star_module] chopped at offset 25
    holds the blocks [seqA (1,26)], [seqB (1,16)], [seqC (1,26)] in this
    order. Registering it with the threshold 20 adds the first block,
    stops at the second, which is 15 long, and so leaves out the third,
    which is 25 long. *)
Theorem updateNewModule_stops_at_short_block :
  nodes star_left =
    [(seqA, (1, 26), Plus); (seqB, (1, 16), Plus); (seqC, (1, 26), Plus)] /\
  exists h nodeToPathDic nodePathToModuleDic,
    updateNewModule {| mid := 0; graph := star_left |} [] [] 20 empty_heap =
      (h, Ok (nodeToPathDic, nodePathToModuleDic)) /\
    live h nodeToPathDic seqA = [(1, 26)] /\
    live h nodeToPathDic seqB = [] /\
    live h nodeToPathDic seqC = [] /\
    keys nodePathToModuleDic = [(seqA, (1, 26))].
Proof.
  split; [vm_compute; reflexivity|].
  eexists _, _, _. split; [vm_compute; reflexivity|].
  repeat split; vm_compute; reflexivity.
Qed.

(** ** Short-block trimming *)

Lemma filter_filter_and {A : Type} (f g : A -> bool) (l : list A) :
  filter f (filter g l) = filter (fun x => g x && f x) l.
Proof.
  induction l as [|x t IH]; simpl; [reflexivity|].
  destruct (g x); simpl; [destruct (f x)|]; now rewrite IH.
Qed.

Lemma trim_set_filter (t : Z) (paths s : list Interval) :
  trim_set t paths s =
  filter (fun y => negb ((snd y - fst y <? t) && mem y paths)) s.
Proof.
  unfold trim_set. revert s. induction paths as [|p rest IH]; intro s; simpl.
  - rewrite <- (filter_ext (fun _ => true)).
    + clear. induction s; simpl; congruence.
    + intro y. now rewrite andb_false_r.
  - rewrite IH. destruct (snd p - fst p <? t) eqn:Ep.
    + unfold discard. rewrite filter_filter_and. apply filter_ext. intro y.
      destruct (eqb_spec y p) as [->|Hne]; simpl.
      * now rewrite Ep.
      * reflexivity.
    + apply filter_ext. intro y.
      destruct (eqb_spec y p) as [->|Hne]; simpl; [|reflexivity].
      now rewrite Ep.
Qed.

Lemma trim_set_self (t : Z) (s : list Interval) :
  trim_set t s s = filter (fun y => negb (snd y - fst y <? t)) s.
Proof.
  rewrite trim_set_filter. apply filter_ext_in. intros y Hy.
  apply mem_In in Hy. rewrite Hy. now rewrite andb_true_r.
Qed.

Section DictPop.
Context {K V : Type} `{EqbSpec K}.

Lemma keys_dict_pop_incl (d : dict K V) (k x : K) :
  In x (keys (dict_pop d k)) -> In x (keys d).
Proof.
  induction d as [|[k' v] t IH]; simpl; [tauto|].
  destruct (eqb k' k); simpl; intuition.
Qed.

Lemma NoDup_dict_pop (d : dict K V) (k : K) :
  NoDup (keys d) -> NoDup (keys (dict_pop d k)).
Proof.
  induction d as [|[k' v] t IH]; simpl; intro Hnd; [constructor|].
  inversion Hnd; subst. destruct (eqb k' k); [assumption|].
  simpl. constructor; [|now apply IH].
  intro Hin. apply keys_dict_pop_incl in Hin. contradiction.
Qed.

Lemma dict_get_pop (d : dict K V) (k k' : K) :
  NoDup (keys d) ->
  dict_get (dict_pop d k) k' = if eqb k k' then None else dict_get d k'.
Proof.
  induction d as [|[k0 v] t IH]; simpl; intro Hnd.
  - now destruct (eqb k k').
  - apply NoDup_cons_iff in Hnd as [Hk0 Hnd'].
    destruct (eqb_spec k0 k) as [E|Hne]; [subst k0|].
    + destruct (eqb_spec k k') as [->|Hne'].
      * now apply dict_get_notin.
      * reflexivity.
    + simpl. destruct (eqb_spec k0 k') as [E|Hne']; [subst k0|].
      * destruct (eqb_spec k k') as [E|]; [congruence | reflexivity].
      * now apply IH.
Qed.

Lemma dict_get_values (d : dict K V) (k : K) (v : V) :
  dict_get d k = Some v -> In v (values d).
Proof.
  induction d as [|[k0 v0] t IH]; simpl; [discriminate|].
  destruct (eqb k0 k); [intro E; inversion E; now left | intro E; right; auto].
Qed.

Lemma dict_get_injective (d : dict K V) (k1 k2 : K) (v : V) :
  NoDup (values d) ->
  dict_get d k1 = Some v -> dict_get d k2 = Some v -> k1 = k2.
Proof.
  induction d as [|[k0 v0] t IH]; simpl; [discriminate|].
  intros Hnd H1 H2. apply NoDup_cons_iff in Hnd as [Hv0 Hnd'].
  destruct (eqb_spec k0 k1) as [E1|N1]; destruct (eqb_spec k0 k2) as [E2|N2].
  - congruence.
  - inversion H1; subst. apply dict_get_values in H2. contradiction.
  - inversion H2; subst. apply dict_get_values in H1. contradiction.
  - now apply IH.
Qed.

End DictPop.

Lemma trim_p2m_get (node : Node) (t : Z) (paths : list Interval)
  (p2m : PathToModule) (n : Node) (p : Interval) :
  NoDup (keys p2m) ->
  NoDup (keys (trim_p2m node t paths p2m)) /\
  dict_get (trim_p2m node t paths p2m) (n, p) =
    if eqb n node && (snd p - fst p <? t) && mem p paths
    then None else dict_get p2m (n, p).
Proof.
  unfold trim_p2m. revert p2m. induction paths as [|q rest IH]; intros p2m Hnd; simpl.
  - split; [assumption|]. now rewrite andb_false_r.
  - destruct (snd q - fst q <? t) eqn:Eq.
    + destruct (IH (dict_pop p2m (node, q)) (NoDup_dict_pop _ _ Hnd)) as (H1 & H2).
      split; [assumption|]. rewrite H2, dict_get_pop by assumption.
      destruct (eqb_spec (node, q) (n, p)) as [E|Hne].
      * inversion E; subst. rewrite !eqb_refl, Eq. simpl.
        rewrite ?eqb_refl. simpl. now destruct (mem p rest).
      * destruct (eqb_spec n node) as [->|]; simpl; [|reflexivity].
        destruct (snd p - fst p <? t); simpl; [|reflexivity].
        destruct (eqb_spec p q) as [->|]; [congruence|]. reflexivity.
    + destruct (IH p2m Hnd) as (H1 & H2). split; [assumption|]. rewrite H2.
      destruct (eqb n node); simpl; [|reflexivity].
      destruct (snd p - fst p <? t) eqn:Ep; simpl; [|reflexivity].
      destruct (eqb_spec p q) as [->|]; [congruence|]. reflexivity.
Qed.

Lemma nth_list_update {A : Type} (l : list A) (a b : nat) (x d : A) :
  nth b (list_update l a x) d =
  if Nat.eqb a b && Nat.ltb a (List.length l) then x else nth b l d.
Proof.
  revert a b. induction l as [|y t IH]; intros a b; simpl.
  - rewrite andb_false_r. now destruct b.
  - destruct a as [|a], b as [|b]; simpl; try reflexivity.
    rewrite IH. reflexivity.
Qed.

Lemma length_list_update {A : Type} (l : list A) (a : nat) (x : A) :
  List.length (list_update l a x) = List.length l.
Proof.
  revert a. induction l as [|y t IH]; intro a; simpl; [reflexivity|].
  destruct a; simpl; congruence.
Qed.

(** The inner loop: only the set at [a] changes. *)
Lemma trim_paths_run (node : Node) (a : nat) (t : Z) (paths : list Interval) :
  forall (p2m : PathToModule) (h : Heap),
    (a < List.length (sets h))%nat ->
    exists h',
      trim_paths node a t paths p2m h = (h', Ok (trim_p2m node t paths p2m)) /\
      List.length (sets h') = List.length (sets h) /\
      (forall b, b <> a -> set_at h' b = set_at h b) /\
      set_at h' a = trim_set t paths (set_at h a).
Proof.
  induction paths as [|p rest IH]; intros p2m h Ha.
  - exists h. repeat split; reflexivity.
  - simpl. unfold trim_set, trim_p2m. simpl.
    destruct (snd p - fst p <? t) eqn:Ep.
    + unfold pbind, set_discard_at, set_write.
      set (h1 := {| sets := list_update (sets h) a (discard p (set_at h a));
                    next_mid := next_mid h |}).
      assert (Ha1 : (a < List.length (sets h1))%nat)
        by (simpl; now rewrite length_list_update).
      destruct (IH (dict_pop p2m (node, p)) h1 Ha1) as (h' & Hr & Hl & Ho & Hs).
      exists h'. split; [exact Hr|]. split; [|split].
      * rewrite Hl. simpl. apply length_list_update.
      * intros b Hb. rewrite (Ho b Hb). unfold set_at. simpl.
        rewrite nth_list_update.
        destruct (Nat.eqb_spec a b); [congruence | reflexivity].
      * rewrite Hs. unfold trim_set. f_equal. unfold set_at. simpl.
        rewrite nth_list_update, Nat.eqb_refl.
        apply Nat.ltb_lt in Ha. now rewrite Ha.
    + apply IH. exact Ha.
Qed.

(** The outer loop over a list of registered nodes. *)
Lemma trim_nodes_run (t : Z) (n2p : NodeToPath) :
  NoDup (values n2p) ->
  forall (nl : list Node) (p2m : PathToModule) (h : Heap),
    NoDup nl ->
    incl nl (keys n2p) ->
    (forall a, In a (values n2p) -> (a < List.length (sets h))%nat) ->
    NoDup (keys p2m) ->
    exists h' p2m',
      trim_nodes nl t n2p p2m h = (h', Ok (n2p, p2m')) /\
      List.length (sets h') = List.length (sets h) /\
      NoDup (keys p2m') /\
      (forall node, live h' n2p node =
         if mem node nl
         then filter (fun y => negb (snd y - fst y <? t)) (live h n2p node)
         else live h n2p node) /\
      (forall n p, dict_get p2m' (n, p) =
         if mem n nl && (snd p - fst p <? t) && mem p (live h n2p n)
         then None else dict_get p2m (n, p)).
Proof.
  intro Hinj. induction nl as [|node rest IH]; intros p2m h Hnd Hincl Hval Hp2m.
  - exists h, p2m. repeat split; try assumption; reflexivity.
  - simpl. inversion Hnd as [|? ? Hnotin Hnd']; subst.
    assert (Hk : In node (keys n2p)) by (apply Hincl; now left).
    destruct (dict_get_in n2p node Hk) as (a & Ha).
    pose proof (Hval a (dict_get_values _ _ _ Ha)) as Hlt.
    unfold pbind at 1. unfold n2p_item. rewrite Ha.
    unfold pbind at 1. unfold set_list.
    destruct (trim_paths_run node a t (set_at h a) p2m h Hlt)
      as (h1 & Hr & Hl & Ho & Hs).
    unfold pbind at 1. rewrite Hr.
    destruct (trim_p2m_get node t (set_at h a) p2m node (0, 0) Hp2m) as (Hp2m1 & _).
    assert (Hval1 : forall b, In b (values n2p) -> (b < List.length (sets h1))%nat)
      by (intros b Hb; rewrite Hl; now apply Hval).
    destruct (IH (trim_p2m node t (set_at h a) p2m) h1 Hnd'
                (fun x Hx => Hincl x (or_intror Hx)) Hval1 Hp2m1)
      as (h' & p2m' & Hrun & Hlen & Hnd2 & Hlive & Hget).
    exists h', p2m'. split; [exact Hrun|]. split; [congruence|].
    split; [exact Hnd2|].
    assert (Hlive1 : forall x, live h1 n2p x =
              if eqb x node then trim_set t (set_at h a) (set_at h a) else live h n2p x).
    { intro x. unfold live. destruct (eqb_spec x node) as [->|Hne].
      - now rewrite Ha.
      - destruct (dict_get n2p x) as [b|] eqn:Eb; [|reflexivity].
        apply Ho. intro E. subst b. apply Hne.
        exact (dict_get_injective n2p x node a Hinj Eb Ha). }
    split.
    + intro x. rewrite Hlive, Hlive1. change (mem x (node :: rest))
        with (eqb x node || mem x rest).
      destruct (eqb_spec x node) as [->|Hne]; simpl.
      * apply mem_notin in Hnotin. rewrite Hnotin.
        rewrite trim_set_self. unfold live. now rewrite Ha.
      * reflexivity.
    + intros n p. rewrite Hget.
      destruct (trim_p2m_get node t (set_at h a) p2m n p Hp2m) as (_ & ->).
      rewrite Hlive1. change (mem n (node :: rest)) with (eqb n node || mem n rest).
      destruct (eqb_spec n node) as [->|Hne]; simpl.
      * apply mem_notin in Hnotin. rewrite Hnotin. simpl.
        unfold live. rewrite Ha. reflexivity.
      * destruct (mem n rest && (snd p - fst p <? t) && mem p (live h n2p n));
          reflexivity.
Qed.

(** Trimming never raises; it filters the set of every node and drops
    the module-index entries of exactly the live blocks it removes. *)
Lemma trimShortModules_run (t : Z) (n2p : NodeToPath) (p2m : PathToModule) (h : Heap) :
  wf_index h n2p p2m ->
  exists h' p2m',
    trimShortModules n2p p2m t h = (h', Ok (n2p, p2m')) /\
    wf_index h' n2p p2m' /\
    (forall node, live h' n2p node =
       filter (fun y => negb (snd y - fst y <? t)) (live h n2p node)) /\
    (forall n p, dict_get p2m' (n, p) =
       if (snd p - fst p <? t) && mem p (live h n2p n)
       then None else dict_get p2m (n, p)).
Proof.
  intros (Hk & Hv & Ha & Hp). unfold trimShortModules.
  destruct (trim_nodes_run t n2p Hv (keys n2p) p2m h Hk (incl_refl _) Ha Hp)
    as (h' & p2m' & Hrun & Hlen' & Hnd & Hlive & Hget).
  exists h', p2m'. split; [exact Hrun|].
  assert (Hlen : forall x, In x (values n2p) -> (x < List.length (sets h'))%nat)
    by (intros x Hx; rewrite Hlen'; now apply Ha).
  split; [repeat split; assumption|]. split.
  - intro node. rewrite Hlive. destruct (mem node (keys n2p)) eqn:Em; [reflexivity|].
    apply mem_notin in Em. apply dict_get_notin in Em. unfold live. now rewrite Em.
  - intros n p. rewrite Hget. destruct (mem n (keys n2p)) eqn:Em; [reflexivity|].
    apply mem_notin in Em. apply dict_get_notin in Em. unfold live. rewrite Em.
    simpl. now rewrite andb_false_r.
Qed.

(** ** The driver of a component *)

(** C1 on the code. On [overlap_graph] the third alignment is a
    module-versus-module edge. The second alignment had its source
    path cut back to [(100, 250)] in [recursiveModuleVSModuleChecking]
    while the bit arrays lost one letter only ([offset] is computed
    after [sourceToDestPath] is overwritten, so it is [0]); the module
    it built pairs the 150 positions of [sA] with 198 letters. The
    chop of that module for the third alignment, 160 letters into its
    [sB] block, therefore puts the cut of the [sA] block at 260, and
    [(100, 260)] is registered next to the live block [(250, 300)]. *)
Theorem live_blocks_overlap_after_edge :
  exists h st,
    scc_loop 3 overlap_graph (scc_start overlap_graph) empty_heap = (h, Ok st) /\
    live h (nodeToPathDic st) ("sA"%string, (1, 300)) =
      [(1, 100); (250, 300); (100, 260)] /\
    ~ pairwise_disjoint (live h (nodeToPathDic st) ("sA"%string, (1, 300))).
Proof.
  eexists _, _. split; [vm_compute; reflexivity|].
  assert (Hlive : forall l, l = [(1, 100); (250, 300); (100, 260)] ->
                            ~ pairwise_disjoint l).
  { intros l -> Hd. inversion Hd as [|a l' _ Hrest]; subst.
    inversion Hrest as [|b l'' Hb _]; subst.
    inversion Hb as [|c l3 Hbc _]; subst.
    destruct Hbc as [Hbc|Hbc]; simpl in Hbc; lia. }
  split; [vm_compute; reflexivity|].
  apply Hlive. vm_compute. reflexivity.
Qed.

(** ** When the driver trims *)

(** A pass on an alignment that was seen before changes neither the
    heap nor the two indexes. *)
Lemma scc_step_visited (S : AlignmentGraph) (st : scc_state) (edge : Node * Node)
  (h : Heap) (sourceToDestPath destToSourcePath : Interval)
  (sourceToDestArray destToSourceArray : bitarray)
  (edgeList : list (Node * Node)) (counterDic : dict (Node * Node) nat) :
  scc_fetch S st edge =
    Ok (sourceToDestPath, sourceToDestArray, (destToSourcePath, destToSourceArray),
        edgeList, counterDic) ->
  mem (edge_pair (fst edge) (snd edge) sourceToDestPath destToSourcePath)
    (visitedEdgePair st) = true ->
  scc_step S st edge h =
    (h, Ok (scc_after st edgeList counterDic (visitedEdgePair st)
              (scc_nodeList st, nodeToPathDic st, nodePathToModuleDic st))).
Proof.
  intros Hf Hm. unfold scc_step, pbind, lift. rewrite Hf. cbv beta iota.
  rewrite Hm. reflexivity.
Qed.

(** A pass on a new alignment: the trimming runs first when the
    counter has reached a multiple of 500, and not otherwise. *)
Lemma scc_step_new (S : AlignmentGraph) (st : scc_state) (edge : Node * Node)
  (h : Heap) (sourceToDestPath destToSourcePath : Interval)
  (sourceToDestArray destToSourceArray : bitarray)
  (edgeList : list (Node * Node)) (counterDic : dict (Node * Node) nat) :
  scc_fetch S st edge =
    Ok (sourceToDestPath, sourceToDestArray, (destToSourcePath, destToSourceArray),
        edgeList, counterDic) ->
  let key := edge_pair (fst edge) (snd edge) sourceToDestPath destToSourcePath in
  mem key (visitedEdgePair st) = false ->
  scc_step S st edge h =
    ('(n2p, p2m) <-
       (if (numberOfEdges st + 2) mod 500 =? 0
        then trimShortModules (nodeToPathDic st) (nodePathToModuleDic st) 10
        else ret (nodeToPathDic st, nodePathToModuleDic st)) ;;
     r <- scc_dispatch (fst edge) (snd edge) sourceToDestPath sourceToDestArray
            destToSourcePath destToSourceArray (scc_nodeList st) n2p p2m ;;
     ret (scc_after st edgeList counterDic (set_add key (visitedEdgePair st)) r)) h.
Proof.
  intros Hf key Hm. unfold scc_step. unfold pbind at 1. unfold lift. rewrite Hf.
  cbv beta iota. fold key. rewrite Hm. reflexivity.
Qed.

Lemma main_scc_last_trim (S : AlignmentGraph) (h h1 : Heap) (st : scc_state) :
  scc_loop (List.length (scc_edgeList (scc_start S))) S (scc_start S) h = (h1, Ok st) ->
  main_scc S h =
    ('(n2p, p2m) <- trimShortModules (nodeToPathDic st) (nodePathToModuleDic st) 10 ;;
     ret (emitted_modules p2m)) h1.
Proof.
  intro Hloop. unfold main_scc. unfold pbind at 1. cbv zeta. now rewrite Hloop.
Qed.

(** C6, as the code has it. [trimShortModules] with the length 10 takes
    out of both indexes exactly the live blocks shorter than 10 and
    leaves the others as they are. In a pass of the driver it runs when
    the counter of directed edges has reached a multiple of 500 and the
    alignment was not seen before, ahead of the dispatch of that
    alignment; a pass on an alignment seen before ends without it,
    whatever the counter. It runs once more after the last pass. *)
Theorem trimShortModules_when_and_what :
  (forall (h : Heap) (n2p : NodeToPath) (p2m : PathToModule),
     wf_index h n2p p2m ->
     exists h' p2m',
       trimShortModules n2p p2m 10 h = (h', Ok (n2p, p2m')) /\
       (forall node, live h' n2p node =
          filter (fun path => negb (snd path - fst path <? 10)) (live h n2p node)) /\
       (forall node path, dict_get p2m' (node, path) =
          if (snd path - fst path <? 10) && mem path (live h n2p node)
          then None else dict_get p2m (node, path))) /\
  (forall (S : AlignmentGraph) (st : scc_state) (edge : Node * Node) (h : Heap)
     (sourceToDestPath destToSourcePath : Interval)
     (sourceToDestArray destToSourceArray : bitarray)
     (edgeList : list (Node * Node)) (counterDic : dict (Node * Node) nat),
     scc_fetch S st edge =
       Ok (sourceToDestPath, sourceToDestArray, (destToSourcePath, destToSourceArray),
           edgeList, counterDic) ->
     let key := edge_pair (fst edge) (snd edge) sourceToDestPath destToSourcePath in
     let dispatch n2p p2m :=
       (r <- scc_dispatch (fst edge) (snd edge) sourceToDestPath sourceToDestArray
               destToSourcePath destToSourceArray (scc_nodeList st) n2p p2m ;;
        ret (scc_after st edgeList counterDic (set_add key (visitedEdgePair st)) r))%py in
     scc_step S st edge h =
       if mem key (visitedEdgePair st)
       then (h, Ok (scc_after st edgeList counterDic (visitedEdgePair st)
                      (scc_nodeList st, nodeToPathDic st, nodePathToModuleDic st)))
       else if (numberOfEdges st + 2) mod 500 =? 0
       then ('(n2p, p2m) <-
               trimShortModules (nodeToPathDic st) (nodePathToModuleDic st) 10 ;;
             dispatch n2p p2m) h
       else dispatch (nodeToPathDic st) (nodePathToModuleDic st) h) /\
  (forall (S : AlignmentGraph) (h h1 : Heap) (st : scc_state),
     scc_loop (List.length (scc_edgeList (scc_start S))) S (scc_start S) h
       = (h1, Ok st) ->
     main_scc S h =
       ('(n2p, p2m) <-
          trimShortModules (nodeToPathDic st) (nodePathToModuleDic st) 10 ;;
        ret (emitted_modules p2m)) h1).
Proof.
  split; [|split].
  - intros h n2p p2m Hwf.
    destruct (trimShortModules_run 10 n2p p2m h Hwf) as (h' & p2m' & Hrun & _ & Hl & Hg).
    exists h', p2m'. auto.
  - intros S st edge h sp dp sa da edgeList counterDic Hf key dispatch.
    destruct (mem key (visitedEdgePair st)) eqn:Hm.
    + exact (scc_step_visited S st edge h sp dp sa da edgeList counterDic Hf Hm).
    + rewrite (scc_step_new S st edge h sp dp sa da edgeList counterDic Hf Hm).
      fold key. unfold dispatch.
      destruct ((numberOfEdges st + 2) mod 500 =? 0); [|reflexivity].
      unfold pbind.
      destruct (trimShortModules (nodeToPathDic st) (nodePathToModuleDic st) 10 h)
        as [h' [[n2p p2m]|e]]; reflexivity.
  - apply main_scc_last_trim.
Qed.

Ltac distinct_entries :=
  repeat (apply NoDup_cons;
          [simpl; intuition (discriminate || congruence)|]);
  apply NoDup_nil.

Lemma trimShortModules_when_and_what_witness :
  let a : Node := ("seqA"%string, (1, 105)) in
  let b : Node := ("seqB"%string, (1, 100)) in
  let h0 := {| sets := [[(1, 100); (100, 105)]]; next_mid := 1 |} in
  let m0 := {| mid := 0; graph := add_node empty_graph (a, (1, 100), Plus) |} in
  let n2p0 : NodeToPath := [(a, 0%nat)] in
  let p2m0 : PathToModule := [((a, (1, 100)), m0); ((a, (100, 105)), m0)] in
  let st0 := scc_start repeat_graph in
  (exists h' p2m',
     trimShortModules n2p0 p2m0 10 h0 = (h', Ok (n2p0, p2m')) /\
     live h' n2p0 a = [(1, 100)] /\
     dict_get p2m' (a, (100, 105)) = None /\
     dict_get p2m' (a, (1, 100)) = Some m0) /\
  (exists edgeList counterDic,
     scc_fetch repeat_graph st0 (a, b) =
       Ok ((1, 100), ones 100, ((1, 100), ones 100), edgeList, counterDic) /\
     scc_step repeat_graph st0 (a, b) empty_heap =
       (r <- scc_dispatch a b (1, 100) (ones 100) (1, 100) (ones 100)
               (scc_nodeList st0) [] [] ;;
        ret (scc_after st0 edgeList counterDic
               [edge_pair a b (1, 100) (1, 100)] r))%py empty_heap) /\
  (exists h1 st,
     scc_loop (List.length (scc_edgeList st0)) repeat_graph st0 empty_heap
       = (h1, Ok st) /\
     main_scc repeat_graph empty_heap =
       ('(n2p, p2m) <-
          trimShortModules (nodeToPathDic st) (nodePathToModuleDic st) 10 ;;
        ret (emitted_modules p2m))%py h1).
Proof.
  intros a b h0 m0 n2p0 p2m0 st0.
  destruct trimShortModules_when_and_what as (Hwhat & Hwhen & Hlast).
  split; [|split].
  - assert (Hwf : wf_index h0 n2p0 p2m0).
    { repeat split; try distinct_entries.
      intros x [<-|[]]. simpl. lia. }
    destruct (Hwhat h0 n2p0 p2m0 Hwf) as (h' & p2m' & Hrun & Hlive & Hget).
    exists h', p2m'. split; [exact Hrun|]. split; [|split].
    + rewrite Hlive. reflexivity.
    + rewrite Hget. reflexivity.
    + rewrite Hget. reflexivity.
  - eexists _, _.
    assert (Hf : scc_fetch repeat_graph st0 (a, b) =
                 Ok ((1, 100), ones 100, ((1, 100), ones 100), _, _))
      by (vm_compute; reflexivity).
    split; [exact Hf|].
    rewrite (Hwhen repeat_graph st0 (a, b) empty_heap _ _ _ _ _ _ Hf).
    reflexivity.
  - eexists _, _.
    assert (Hl : scc_loop (List.length (scc_edgeList st0)) repeat_graph st0 empty_heap
                 = (_, Ok _)) by (vm_compute; reflexivity).
    split; [exact Hl|]. exact (Hlast repeat_graph empty_heap _ _ Hl).
Defined.

(** C6, the schedule as the specification words it, fails. On
    [repeat_graph] the 250th
    pass takes the counter of directed edges to 500 on an alignment
    that was seen in the first pass: the pass changes neither the heap
    nor the indexes, and the block [(100, 105)] of [seqA], five long,
    that [trimShortModules] would take out is still live after it. *)
Lemma trimShortModules_when_and_what_counterexample :
  let a : Node := ("seqA"%string, (1, 105)) in
  let b : Node := ("seqB"%string, (1, 100)) in
  exists h st st',
    scc_loop 249 repeat_graph (scc_start repeat_graph) empty_heap = (h, Ok st) /\
    scc_step repeat_graph st (a, b) h = (h, Ok st') /\
    numberOfEdges st' = 500 /\
    live h (nodeToPathDic st') a = [(1, 100); (100, 105)] /\
    exists h' n2p' p2m',
      trimShortModules (nodeToPathDic st) (nodePathToModuleDic st) 10 h
        = (h', Ok (n2p', p2m')) /\
      live h' n2p' a = [(1, 100)].
Proof.
  intros a b. eexists _, _, _.
  split; [vm_compute; reflexivity|].
  split; [vm_compute; reflexivity|].
  split; [vm_compute; reflexivity|].
  split; [vm_compute; reflexivity|].
  eexists _, _, _. split; vm_compute; reflexivity.
Qed.

(** ** The lines written for a component *)

Lemma length_insert_sorted {A : Type} (leb : A -> A -> bool) (x : A) (l : list A) :
  List.length (insert_sorted leb x l) = S (List.length l).
Proof.
  induction l as [|y t IH]; simpl; [reflexivity|].
  destruct (leb x y); simpl; [reflexivity|]. now rewrite IH.
Qed.

Lemma length_sorted {A : Type} (leb : A -> A -> bool) (l : list A) :
  List.length (sorted leb l) = List.length l.
Proof.
  unfold sorted. induction l as [|y t IH]; simpl; [reflexivity|].
  now rewrite length_insert_sorted, IH.
Qed.

Lemma main_scc_Ok (S : AlignmentGraph) (h h' : Heap) (lines : list (list BlockVertex)) :
  main_scc S h = (h', Ok lines) ->
  exists h1 st n2p p2m,
    scc_loop (List.length (scc_edgeList (scc_start S))) S (scc_start S) h
      = (h1, Ok st) /\
    trimShortModules (nodeToPathDic st) (nodePathToModuleDic st) 10 h1
      = (h', Ok (n2p, p2m)) /\
    lines = emitted_modules p2m.
Proof.
  unfold main_scc, pbind. cbv zeta.
  destruct (scc_loop _ S (scc_start S) h) as [h1 [st|e]] eqn:El; [|discriminate].
  destruct (trimShortModules _ _ 10 h1) as [h2 [[n2p p2m]|e]] eqn:Et; [|discriminate].
  unfold ret. intro E. injection E as <- <-. now exists h1, st, n2p, p2m.
Qed.

(** How the lines of a component come about. They are taken from the
    modules of the index after the last trimming, as sorted tuples of
    block-vertices: each tuple once, those of at least two
    block-vertices only. The test on the number of block-vertices comes
    first; the blocks with [lo > hi] are taken out of a tuple
    afterwards, so every block-vertex on a line has [lo <= hi]. *)
Lemma main_scc_emits (S : AlignmentGraph) (h h' : Heap)
  (lines : list (list BlockVertex)) :
  main_scc S h = (h', Ok lines) ->
  exists (h1 : Heap) (st : scc_state) (n2p : NodeToPath) (p2m : PathToModule)
         (tuples : list (list BlockVertex)),
    scc_loop (List.length (scc_edgeList (scc_start S))) S (scc_start S) h
      = (h1, Ok st) /\
    trimShortModules (nodeToPathDic st) (nodePathToModuleDic st) 10 h1
      = (h', Ok (n2p, p2m)) /\
    NoDup tuples /\
    (forall t, In t tuples <->
       exists m, In m (values p2m) /\
                 t = sorted (leb_of compare_block) (nodes (graph m)) /\
                 (2 <= List.length (nodes (graph m)))%nat) /\
    lines =
      map (filter (fun block => fst (bv_path block) <=? snd (bv_path block))) tuples /\
    (forall line block, In line lines -> In block line ->
       fst (bv_path block) <= snd (bv_path block)).
Proof.
  intro Hmain. destruct (main_scc_Ok S h h' lines Hmain) as (h1 & st & n2p & p2m & Hl & Ht & ->).
  exists h1, st, n2p, p2m.
  exists (filter (fun m => 1 <? len m)
            (dedup (map (fun m => sorted (leb_of compare_block) (nodes (graph m)))
                      (values p2m)))).
  split; [exact Hl|]. split; [exact Ht|]. split; [|split; [|split]].
  - apply NoDup_filter, NoDup_dedup.
  - intro t. rewrite filter_In, In_dedup, in_map_iff. split.
    + intros [(m & <- & Hm) Hlen]. exists m. split; [exact Hm|]. split; [reflexivity|].
      unfold len in Hlen. rewrite length_sorted in Hlen. apply Z.ltb_lt in Hlen. lia.
    + intros (m & Hm & -> & Hlen). split; [now exists m|].
      unfold len. rewrite length_sorted. apply Z.ltb_lt. lia.
  - reflexivity.
  - intros line block Hline Hblock. unfold emitted_modules in Hline.
    apply in_map_iff in Hline as (t & <- & _).
    apply filter_In in Hblock as [_ Hle]. now apply Z.leb_le.
Qed.

(** C7 at [overlap_graph], a component of four alignments. When the
    loop is over, the module of [sB (461, 500)] holds this block and
    [sA (260, 250)], a block with [lo > hi] that the third alignment
    left behind. After the last trimming the module passes the test on
    the number of its block-vertices with two; its block with [lo > hi]
    is then left out, and the line that is written for it holds the
    single block-vertex [sB (461, 500)]. *)
Theorem main_scc_single_block_line :
  let sA : Node := ("sA"%string, (1, 300)) in
  let sB : Node := ("sB"%string, (201, 500)) in
  (exists h st m,
     scc_loop 8 overlap_graph (scc_start overlap_graph) empty_heap = (h, Ok st) /\
     dict_get (nodePathToModuleDic st) (sB, (461, 500)) = Some m /\
     nodes (graph m) = [(sB, (461, 500), Plus); (sA, (260, 250), Plus)]) /\
  (exists h' lines,
     main_scc overlap_graph empty_heap = (h', Ok lines) /\
     In [(sB, (461, 500), Plus)] lines).
Proof.
  intros sA sB. split.
  - eexists _, _, _. split; [vm_compute; reflexivity|].
    split; vm_compute; reflexivity.
  - eexists _, _. split; [vm_compute; reflexivity|]. subst sA sB. simpl. tauto.
Qed.

(** ** The bitscore cut *)

(** C9, as the code has it. [blastToDf] keeps, in their order, the rows
    whose two accessions differ and whose bit score is at least the
    threshold times [int((qEnd - qStart) * constant + 3)]: the length
    is the span of the alignment on the query, the sum is cut to an
    integer, and the products and the sum are in double precision. *)
Theorem blastToDf_keeps (df : list BlastRow) (threshold constant : spec_float) :
  blastToDf df threshold constant =
    filter (fun row =>
              negb (eqb (subjectAccVer row) (queryAccVer row)) &&
              Float64.leb
                (Float64.mul threshold
                   (Float64.of_Z
                      (Float64.to_int
                         (Float64.add
                            (Float64.mul (Float64.of_Z (qEnd row - qStart row)) constant)
                            (Float64.of_Z 3)))))
                (Float64.of_Z (bitScore row))) df /\
  forall row,
    In row (blastToDf df threshold constant) <->
    In row df /\
    subjectAccVer row <> queryAccVer row /\
    Float64.leb
      (Float64.mul threshold (Float64.of_Z (scoreThreshold constant row)))
      (Float64.of_Z (bitScore row)) = true.
Proof.
  split.
  - unfold blastToDf. now rewrite filter_filter_and.
  - intro row. unfold blastToDf. rewrite !filter_In, negb_true_iff, eqb_neq.
    unfold passes_cut. tauto.
Qed.

(** C9, as the specification words it, fails. An alignment of 120
    columns that spans
    the positions 1 to 100 of the query, with the bit score 70: the
    code compares 70 with [0.4 * 165], the specification with
    [0.4 * (1.6446838 * 120 + 3)], which is more than 80. *)
Lemma blastToDf_keeps_counterexample :
  let row :=
    {| queryAccVer := "q"; subjectAccVer := "s"; alignmentLength := 120;
       qStart := 1; qEnd := 100; sStart := 1; sEnd := 120; bitScore := 70;
       qSeq := repeat one 50 ++ repeat "0"%char 20 ++ repeat one 50;
       sSeq := repeat one 120 |} in
  scoreThreshold Float64.constant row = 165 /\
  blastToDf [row] Float64.default_threshold Float64.constant = [row] /\
  spec_passes_cut 4 10 row = false.
Proof.
  repeat split; vm_compute; reflexivity.
Qed.

(** ** The handlers of [moduleModulePartition] *)

(** Nothing is ever appended to [pathRecord], so no block of a module
    is found to overlap a visited one, and the loop of the second
    handler removes no module. *)
Lemma has_overlapping_blocks_empty (module : list BlockVertex) :
  has_overlapping_blocks module [] = Ok false.
Proof.
  induction module as [|b t IH]; simpl; [reflexivity|exact IH].
Qed.

Lemma prune_overlapping_noop (modules : list ModuleObj)
  (n2p : NodeToPath) (p2m : PathToModule) (h : Heap) :
  prune_overlapping modules n2p p2m h = (h, Ok (n2p, p2m)).
Proof.
  induction modules as [|m t IH]; simpl; [reflexivity|].
  unfold pbind, lift. rewrite has_overlapping_blocks_empty. exact IH.
Qed.

(** A computation that creates objects but writes to no set that was
    there before. *)
Definition only_allocates {A : Type} (c : Py A) : Prop :=
  forall h, exists extra, sets (fst (c h)) = sets h ++ extra.

Lemma only_allocates_ret {A : Type} (a : A) : only_allocates (ret a).
Proof. intro h. exists []. simpl. now rewrite app_nil_r. Qed.

Lemma only_allocates_raise {A : Type} (e : PyExn) : only_allocates (@raise A e).
Proof. intro h. exists []. simpl. now rewrite app_nil_r. Qed.

Lemma only_allocates_lift {A : Type} (r : result A) : only_allocates (lift r).
Proof. intro h. exists []. simpl. now rewrite app_nil_r. Qed.

Lemma only_allocates_new_object (g : Module) : only_allocates (new_object g).
Proof. intro h. exists []. simpl. now rewrite app_nil_r. Qed.

Lemma only_allocates_set_list (a : nat) : only_allocates (set_list a).
Proof. intro h. exists []. simpl. now rewrite app_nil_r. Qed.

Lemma only_allocates_n2p_item (n2p : NodeToPath) (node : Node) :
  only_allocates (n2p_item n2p node).
Proof.
  intro h. unfold n2p_item. destruct (dict_get n2p node).
  - exists []. simpl. now rewrite app_nil_r.
  - now exists [[]].
Qed.

Lemma only_allocates_bind {A B : Type} (c : Py A) (k : A -> Py B) :
  only_allocates c -> (forall a, only_allocates (k a)) -> only_allocates (pbind c k).
Proof.
  intros Hc Hk h. unfold pbind. destruct (Hc h) as [x Hx].
  destruct (c h) as [h1 [a|e]]; simpl in Hx.
  - destruct (Hk a h1) as [y Hy]. exists (x ++ y). now rewrite Hy, Hx, app_assoc.
  - now exists x.
Qed.

Ltac allocates :=
  repeat first
    [ apply only_allocates_ret
    | apply only_allocates_raise
    | apply only_allocates_lift
    | apply only_allocates_new_object
    | apply only_allocates_set_list
    | apply only_allocates_n2p_item
    | assumption
    | apply only_allocates_bind; [|intro]
    | match goal with
      | |- only_allocates (match ?x with _ => _ end) => destruct x
      end ].

Lemma only_allocates_bedtoolCall (node : Node) (n2p : NodeToPath) (path : Interval) :
  only_allocates (bedtoolCall node n2p path).
Proof. unfold bedtoolCall. allocates. Qed.

Lemma only_allocates_partitionToTwoModules_obj (blockNode : BlockVertex) (k : Z)
  (module : ModuleObj) :
  only_allocates (partitionToTwoModules_obj blockNode k module).
Proof. unfold partitionToTwoModules_obj. allocates. Qed.

Lemma only_allocates_three_way_chop (blockNode : BlockVertex) (a b : Z)
  (module : ModuleObj) :
  only_allocates (three_way_chop blockNode a b module).
Proof.
  unfold three_way_chop. destruct blockNode as [[name [lo hi]] direction].
  apply only_allocates_bind; [apply only_allocates_partitionToTwoModules_obj|].
  intro l. destruct l as [|f0 [|f1 [|]]]; try apply only_allocates_raise.
  apply only_allocates_bind; [apply only_allocates_partitionToTwoModules_obj|].
  intro l. allocates.
Qed.

Lemma only_allocates_left_right (d : Direction) (l : list ModuleObj) :
  only_allocates (left_right d l).
Proof. unfold left_right. allocates. Qed.

Lemma only_allocates_chopModulesAndUpdateGraph (fuel : nat) :
  forall listOfModules node path direction currentPartitionBlockDic
         currentModuleUpdateDic nodeToPathDic nodePathToModuleDic,
    only_allocates
      (chopModulesAndUpdateGraph fuel listOfModules node path direction
         currentPartitionBlockDic currentModuleUpdateDic
         nodeToPathDic nodePathToModuleDic).
Proof.
  induction fuel as [|fuel IH]; intros modules node [pathStart pathEnd] direction
    pbd mud n2p p2m; [apply only_allocates_raise|].
  cbn [chopModulesAndUpdateGraph].
  induction modules as [|m later IHl]; [apply only_allocates_ret|].
  destruct (qualifiedBlocks m node pathStart pathEnd) as [|[[sourceNode [bs be]] bd] rest];
    [exact IHl|].
  repeat match goal with
         | |- only_allocates (if ?b then _ else _) => destruct b
         | |- only_allocates (match ?x with _ => _ end) => destruct x
         | |- only_allocates (pbind _ _) => apply only_allocates_bind; [|intro]
         | |- only_allocates (partitionToTwoModules_obj _ _ _) =>
             apply only_allocates_partitionToTwoModules_obj
         | |- only_allocates (three_way_chop _ _ _ _) =>
             apply only_allocates_three_way_chop
         | |- only_allocates (left_right _ _) => apply only_allocates_left_right
         | |- only_allocates (bedtoolCall _ _ _) => apply only_allocates_bedtoolCall
         | |- only_allocates (chopModulesAndUpdateGraph fuel _ _ _ _ _ _ _ _) => apply IH
         | |- only_allocates (ret _) => apply only_allocates_ret
         | |- only_allocates (raise _) => apply only_allocates_raise
         | |- only_allocates (lift _) => apply only_allocates_lift
         end.
Qed.

Lemma dict_get_app {K V : Type} `{EqbSpec K} (d1 d2 : dict K V) (k : K) :
  dict_get (d1 ++ d2) k =
    match dict_get d1 k with Some v => Some v | None => dict_get d2 k end.
Proof.
  induction d1 as [|[k' v] t IH]; simpl; [reflexivity|].
  now destruct (eqb k' k).
Qed.

(** The refs of an index stay what they are when the heap grows. *)
Lemma live_extend (h h' : Heap) (n2p : NodeToPath) (extra : list (list Interval)) :
  sets h' = sets h ++ extra ->
  (forall a, In a (values n2p) -> (a < List.length (sets h))%nat) ->
  forall node, live h' n2p node = live h n2p node.
Proof.
  intros Hs Hr node. unfold live. destruct (dict_get n2p node) as [a|] eqn:E; [|reflexivity].
  unfold set_at. rewrite Hs. apply app_nth1. apply Hr.
  now apply dict_get_values with (k := node).
Qed.

Lemma bedtoolCall_run (node : Node) (n2p : NodeToPath) (path : Interval)
  (h h1 : Heap) (n2p1 : NodeToPath) (pairs : list (Node * Interval)) :
  (forall a, In a (values n2p) -> (a < List.length (sets h))%nat) ->
  bedtoolCall node n2p path h = (h1, Ok (n2p1, pairs)) ->
  (forall x, live h1 n2p1 x = live h n2p x) /\
  (forall a, In a (values n2p1) -> (a < List.length (sets h1))%nat).
Proof.
  intros Hr. unfold bedtoolCall, pbind, n2p_item, set_list, ret.
  destruct (dict_get n2p node) as [a|] eqn:E; intro Hb; injection Hb as <- <- _.
  - split; [reflexivity|exact Hr].
  - apply dict_get_notin in E. rewrite (dict_set_notin _ _ _ E). split.
    + intro x. unfold live. rewrite dict_get_app.
      destruct (dict_get n2p x) as [b|] eqn:Ex.
      * unfold set_at. simpl. apply app_nth1. apply Hr.
        now apply dict_get_values with (k := x).
      * simpl. destruct (eqb node x); [|reflexivity].
        unfold set_at. simpl. rewrite app_nth2 by lia. now rewrite Nat.sub_diag.
    + intros b Hb. unfold values in Hb. rewrite map_app in Hb. simpl.
      rewrite length_app. simpl. apply in_app_or in Hb as [Hb|[<-|[]]]; [|simpl; lia].
      specialize (Hr b Hb). lia.
Qed.

Lemma try_except_raise {A : Type} (c handler : Py A) (h h' : Heap) (e : PyExn) :
  c h = (h', Raise e) -> e <> OutOfFuel -> try_except c handler h = handler h'.
Proof.
  intros Hc He. unfold try_except. rewrite Hc. destruct e; congruence.
Qed.

(** C5 at [reverse_graph]. The fifth alignment is a module-versus-module
    edge from [sB] to [sD]. Before it the live block of [sD] is
    [(1, 100)]. The chop of the destination side goes through and is
    registered: the block [sD (1, 100)] gives way to [(1, 40)] and
    [(40, 100)], with one module more. The copies of the two
    dictionaries are taken after that, and the reconciliation of
    [sD (1, 40)] then raises, in the chop of the module of
    [sB (300, 499)]. When the handler has run, the dictionaries are
    those copies: the live blocks of [sD] are [(1, 40)] and [(40, 100)],
    the keys of the module index are not those of before the edge, and
    no module has been pruned. *)
Theorem moduleModulePartition_no_rollback :
  let sB : Node := ("sB"%string, (201, 500)) in
  let sD : Node := ("sD"%string, (1, 100)) in
  exists h st,
    scc_loop 4 reverse_graph (scc_start reverse_graph) empty_heap = (h, Ok st) /\
    exists hc n2pc p2mc block cm cp sa sb hb n2pb pairs cms hr,
      dest_side_chop sD (1, 40) Plus (nodeToPathDic st) (nodePathToModuleDic st) h
        = (hc, Ok ([(block, cm)], n2pc, p2mc)) /\
      corresponding_path (460, 499) (1, 40) (bv_path block) Plus Plus
        (ones 40) (ones 40) = Ok (Some (cp, sa, sb)) /\
      bedtoolCall sB n2pc cp hc = (hb, Ok (n2pb, pairs)) /\
      modules_of p2mc pairs = Ok cms /\
      recursiveModuleVSModuleChecking (S (Z.to_nat (snd cp - fst cp))) cms sB sD
        cp (bv_path block) Plus Plus cm n2pb p2mc sa sb hb
        = (hr, Raise (ValueError "source seg not in seg dic")) /\
      moduleModulePartition sB sD (460, 499) (1, 40) Plus Plus
        (nodeToPathDic st) (nodePathToModuleDic st) (ones 40) (ones 40) h
        = (hr, Ok (n2pb, p2mc)) /\
      live h (nodeToPathDic st) sD = [(1, 100)] /\
      live hr n2pb sD = [(1, 40); (40, 100)] /\
      keys (nodePathToModuleDic st) <> keys p2mc /\
      List.length (dedup (values p2mc))
        = S (List.length (dedup (values (nodePathToModuleDic st)))).
Proof.
  intros sB sD. eexists _, _. split; [vm_compute; reflexivity|].
  eexists _, _, _, _, _, _, _, _, _, _, _, _, _.
  split; [vm_compute; reflexivity|].
  split; [vm_compute; reflexivity|].
  split; [vm_compute; reflexivity|].
  split; [vm_compute; reflexivity|].
  split; [vm_compute; reflexivity|].
  split; [vm_compute; reflexivity|].
  split; [vm_compute; reflexivity|].
  split; [vm_compute; reflexivity|].
  split; [vm_compute; discriminate|].
  vm_compute. reflexivity.
Qed.

(** * Further properties of the code *)

(** ** Bit arrays of aligned sequences *)

(** [seqToBinary] keeps the length of the aligned sequence and writes
    ['0'] and ['1'] only. Column [i] is ['1'] exactly when character
    [i] is not the gap character ['-'], whatever else it is, so the
    number of ones is the length of the sequence less the number of
    its gap characters. *)
Theorem seqToBinary_counts (seq : string) :
  len (seqToBinary seq) = Z.of_nat (String.length seq) /\
  Forall (fun c => c = "0"%char \/ c = one) (seqToBinary seq) /\
  (forall (i : nat) (c : ascii),
     nth_error (list_ascii_of_string seq) i = Some c ->
     (nth_error (seqToBinary seq) i = Some one <-> c <> "-"%char)) /\
  count_ones (seqToBinary seq) =
    Z.of_nat (String.length seq)
    - Z.of_nat (count_occ ascii_dec (list_ascii_of_string seq) "-"%char).
Proof.
  assert (Hlen : String.length seq = List.length (list_ascii_of_string seq)).
  { induction seq as [|c s IH]; simpl; [reflexivity|]. now rewrite IH. }
  unfold seqToBinary, len. split; [|split; [|split]].
  - rewrite length_map. now rewrite Hlen.
  - apply Forall_forall. intros c Hc. apply in_map_iff in Hc as (x & <- & _).
    destruct (Ascii.eqb x "-"); [now left | now right].
  - intros i c Hc. rewrite nth_error_map, Hc. cbn [option_map].
    destruct (Ascii.eqb_spec c "-") as [->|Hne]; split;
      try congruence; try discriminate.
  - rewrite Hlen. clear Hlen.
    induction (list_ascii_of_string seq) as [|c t IH]; [reflexivity|].
    cbn [map count_ones count_occ List.length]. rewrite IH.
    destruct (Ascii.eqb_spec c "-") as [->|Hne].
    + destruct (ascii_dec "-" "-") as [_|Hn]; [|congruence].
      change (Ascii.eqb "0" one) with false. cbn [List.length]. lia.
    + destruct (ascii_dec c "-") as [He|_]; [congruence|].
      change (Ascii.eqb one one) with true. lia.
Qed.

(** ** Reverse complement *)

Lemma complement_Ok (l : list ascii) :
  Forall (fun c => In c (keys revComp_dic)) l ->
  exists t, complement l = Ok t /\ List.length t = List.length l.
Proof.
  induction 1 as [|c l Hc _ (t & Ht & Hl)]; [now exists []|].
  cbn [complement]. rewrite Ht.
  destruct (dict_get_in revComp_dic c Hc) as [v Hv].
  unfold dict_item. rewrite Hv. cbn. exists (v :: t). split; [reflexivity|].
  simpl. now rewrite Hl.
Qed.

Lemma complement_Raise (l : list ascii) :
  Exists (fun c => ~ In c (keys revComp_dic)) l -> complement l = Raise KeyError.
Proof.
  induction l as [|c l IH]; intro H; [inversion H|].
  cbn [complement]. unfold dict_item.
  destruct (dict_get revComp_dic c) as [v|] eqn:Ev; [|reflexivity].
  cbn. inversion H as [? ? Hc|? ? Hl]; subst.
  - apply dict_get_notin in Hc. congruence.
  - now rewrite (IH Hl).
Qed.

Lemma in_keys_dec (c : ascii) :
  {In c (keys revComp_dic)} + {~ In c (keys revComp_dic)}.
Proof. apply in_dec, Ascii.ascii_dec. Qed.

(** [revComp] returns a string of the same length when every character
    of the sequence is one of the eleven keys of its dictionary, and
    raises [KeyError] as soon as one is not (a lower-case letter, a
    gap). *)
Theorem revComp_keys (seq : string) :
  (Forall (fun c => In c (keys revComp_dic)) (list_ascii_of_string seq) ->
   exists t, revComp seq = Ok t /\ String.length t = String.length seq) /\
  (Exists (fun c => ~ In c (keys revComp_dic)) (list_ascii_of_string seq) ->
   revComp seq = Raise KeyError) /\
  (Forall (fun c => In c (keys revComp_dic)) (list_ascii_of_string seq) \/
   Exists (fun c => ~ In c (keys revComp_dic)) (list_ascii_of_string seq)).
Proof.
  assert (Hlen : forall s, String.length s = List.length (list_ascii_of_string s)).
  { induction s as [|c s IH]; simpl; [reflexivity|now rewrite IH]. }
  split; [|split].
  - intro Hall. unfold revComp.
    destruct (complement_Ok (rev (list_ascii_of_string seq))) as (t & Ht & Hl).
    { apply Forall_rev, Hall. }
    rewrite Ht. cbn. exists (string_of_list_ascii t). split; [reflexivity|].
    rewrite !Hlen, list_ascii_of_string_of_list_ascii, Hl. apply length_rev.
  - intro Hex. unfold revComp. rewrite complement_Raise; [reflexivity|].
    apply Exists_exists in Hex as (c & Hc & Hn). apply Exists_exists.
    exists c. split; [now apply in_rev in Hc|exact Hn].
  - destruct (Forall_Exists_dec (fun c => In c (keys revComp_dic)) in_keys_dec
                (list_ascii_of_string seq)) as [H|H]; [now left|now right].
Qed.

Lemma revComp_keys_witness :
  (exists t, revComp "ACGTN" = Ok t /\ String.length t = 5%nat) /\
  revComp "ACg" = Raise KeyError.
Proof.
  destruct (revComp_keys "ACGTN") as (Hok & _ & _).
  destruct (revComp_keys "ACg") as (_ & Hraise & _).
  split.
  - apply Hok. repeat constructor; simpl; tauto.
  - apply Hraise. apply Exists_cons_tl, Exists_cons_tl, Exists_cons_hd.
    simpl. intuition discriminate.
Defined.

(** The complement of a base among A, C, G and T. *)
Lemma complement_bases (l : list ascii) :
  Forall (fun c => In c ["A"; "C"; "G"; "T"]%char) l ->
  exists t, complement l = Ok t /\
            Forall (fun c => In c ["A"; "C"; "G"; "T"]%char) t /\
            complement (rev t) = Ok (rev l).
Proof.
  assert (Hsnoc : forall a b x y, complement a = Ok b ->
            dict_item revComp_dic x = Ok y ->
            complement (a ++ [x]) = Ok (b ++ [y])).
  { induction a as [|c a IH]; intros b x y Ha Hx.
    - injection Ha as <-. cbn [app complement]. now rewrite Hx.
    - cbn [app complement] in *.
      destruct (dict_item revComp_dic c) as [v|e]; [|discriminate]. cbn in *.
      destruct (complement a) as [t|e] eqn:Et; [|discriminate]. cbn in Ha.
      injection Ha as <-. now rewrite (IH t x y eq_refl Hx). }
  induction 1 as [|c l Hc _ (t & Ht & Hb & Hr)]; [exists []; repeat split; constructor|].
  cbn [complement]. rewrite Ht.
  simpl in Hc. destruct Hc as [<-|[<-|[<-|[<-|[]]]]]; cbn;
    eexists; (split; [reflexivity|]);
    (split; [constructor; [simpl; tauto|exact Hb]|]);
    cbn [rev]; apply Hsnoc; try exact Hr; reflexivity.
Qed.

(** On a sequence of the four bases [revComp] is an involution. *)
Theorem revComp_involution (seq : string) :
  Forall (fun c => In c ["A"; "C"; "G"; "T"]%char) (list_ascii_of_string seq) ->
  exists t, revComp seq = Ok t /\ revComp t = Ok seq.
Proof.
  intro Hb. unfold revComp.
  destruct (complement_bases (rev (list_ascii_of_string seq))) as (t & Ht & _ & Hr).
  { apply Forall_rev, Hb. }
  rewrite Ht. cbn. exists (string_of_list_ascii t). split; [reflexivity|].
  rewrite list_ascii_of_string_of_list_ascii, Hr. cbn.
  now rewrite rev_involutive, string_of_list_ascii_of_string.
Qed.

Lemma revComp_involution_witness :
  exists t, revComp "GATTACA" = Ok t /\ revComp t = Ok "GATTACA"%string.
Proof.
  apply revComp_involution. repeat constructor; simpl; tauto.
Defined.


(** ** Merging overlapping intervals *)

Lemma checkOverlap_cases (aNode bNode : Interval) :
  let '(aStart, aEnd) := aNode in
  let '(bStart, bEnd) := bNode in
  checkOverlap aNode bNode =
    if ((bStart >=? aStart) && (bStart <=? aEnd)) ||
       ((aStart >=? bStart) && (aStart <=? bEnd)) ||
       (((bEnd >=? aEnd) && (bEnd <=? aStart)) ||
        ((aEnd >=? bEnd) && (aEnd <=? bStart))) ||
       (((aStart >=? bEnd) && (aStart <=? bStart)) ||
        ((bEnd >=? aStart) && (bEnd <=? aEnd)))
    then (true, (Z.min (Z.min (Z.min aStart bStart) aEnd) bEnd,
                 Z.max (Z.max (Z.max aStart bStart) aEnd) bEnd))
    else (false, aNode).
Proof.
  destruct aNode as [aStart aEnd], bNode as [bStart bEnd].
  unfold checkOverlap, list_min, list_max. cbn [fold_left].
  destruct (((bStart >=? aStart) && (bStart <=? aEnd)) ||
            ((aStart >=? bStart) && (aStart <=? bEnd))); [reflexivity|].
  destruct (((bEnd >=? aEnd) && (bEnd <=? aStart)) ||
            ((aEnd >=? bEnd) && (aEnd <=? bStart))); [reflexivity|].
  destruct (((aStart >=? bEnd) && (aStart <=? bStart)) ||
            ((bEnd >=? aStart) && (bEnd <=? aEnd))); reflexivity.
Qed.

(** [checkOverlap] takes its two intervals in either orientation. It
    answers [True] exactly when the two stretches of positions meet,
    then with the smallest and the largest of the four ends; otherwise
    it gives back its first interval. *)
Theorem checkOverlap_meets (aNode bNode : Interval) :
  let lo := fun x : Interval => Z.min (fst x) (snd x) in
  let hi := fun x : Interval => Z.max (fst x) (snd x) in
  (fst (checkOverlap aNode bNode) = true <->
   Z.max (lo aNode) (lo bNode) <= Z.min (hi aNode) (hi bNode)) /\
  (fst (checkOverlap aNode bNode) = true ->
   snd (checkOverlap aNode bNode)
     = (Z.min (lo aNode) (lo bNode), Z.max (hi aNode) (hi bNode))) /\
  (fst (checkOverlap aNode bNode) = false ->
   snd (checkOverlap aNode bNode) = aNode).
Proof.
  pose proof (checkOverlap_cases aNode bNode) as Hc.
  destruct aNode as [aStart aEnd], bNode as [bStart bEnd]. rewrite Hc. clear Hc.
  cbn [fst snd].
  match goal with |- context [if ?c then _ else _] => destruct c eqn:E end;
    cbn [fst snd].
  - rewrite !orb_true_iff, !andb_true_iff, !Z.geb_le, !Z.leb_le in E.
    split; [split; [intros _; lia | reflexivity]|].
    split; [intros _; f_equal; lia | discriminate].
  - rewrite !orb_false_iff, !andb_false_iff, !Z.geb_leb, !Z.leb_gt in E.
    split; [split; [discriminate | intro; exfalso; lia]|].
    split; [discriminate | reflexivity].
Qed.

Lemma checkOverlap_meets_witness :
  fst (checkOverlap (5, 1) (3, 9)) = true /\
  snd (checkOverlap (5, 1) (3, 9)) = (1, 9).
Proof.
  destruct (checkOverlap_meets (5, 1) (3, 9)) as (Hiff & Htrue & _).
  assert (Ht : fst (checkOverlap (5, 1) (3, 9)) = true)
    by (apply Hiff; simpl; lia).
  split; [exact Ht | exact (Htrue Ht)].
Defined.

Lemma checkOverlap_outcome (aNode bNode : Interval) :
  (fst (checkOverlap aNode bNode) = true ->
   snd (checkOverlap aNode bNode)
     = (Z.min (Z.min (fst aNode) (snd aNode)) (Z.min (fst bNode) (snd bNode)),
        Z.max (Z.max (fst aNode) (snd aNode)) (Z.max (fst bNode) (snd bNode)))) /\
  (fst (checkOverlap aNode bNode) = false ->
   snd (checkOverlap aNode bNode) = aNode).
Proof.
  pose proof (checkOverlap_cases aNode bNode) as Hc.
  destruct aNode as [aStart aEnd], bNode as [bStart bEnd]. rewrite Hc. clear Hc.
  cbn [fst snd].
  match goal with |- context [if ?c then _ else _] => destruct c end;
    cbn [fst snd].
  - split; [intros _; f_equal; lia | discriminate].
  - split; [discriminate | reflexivity].
Qed.

Section RowsFacts.
Context {Row : Type}.
Variables columnStart columnEnd : Row -> Z.

Let interval_of (row : Row) : Interval := (columnStart row, columnEnd row).

Lemma merge_following_run (following : list Row) :
  forall (curNode : Interval) (offset : Z),
  exists (node : Interval) (k : nat),
    merge_following columnStart columnEnd curNode offset following
      = (node, offset + 1 + Z.of_nat k) /\
    (k <= List.length following)%nat /\
    within curNode node /\
    (forall m row, (m < k)%nat -> nth_error following m = Some row ->
                   within (interval_of row) node) /\
    (forall row, nth_error following k = Some row ->
                 fst (checkOverlap node (interval_of row)) = false).
Proof.
  induction following as [|nextRow rest IH]; intros curNode offset.
  - exists curNode, 0%nat. cbn [merge_following]. rewrite Z.add_0_r.
    split; [reflexivity|]. split; [apply Nat.le_refl|].
    split; [unfold within; lia|].
    split; [intros m row Hm; lia|]. intros row Hrow. discriminate.
  - cbn [merge_following].
    destruct (checkOverlap_outcome curNode (interval_of nextRow)) as (Htrue & Hfalse).
    fold (interval_of nextRow).
    destruct (checkOverlap curNode (interval_of nextRow)) as [overlap merged] eqn:Ec.
    cbn [fst snd] in Htrue, Hfalse. destruct overlap.
    + specialize (Htrue eq_refl). clear Hfalse.
      destruct (IH merged (offset + 1)) as (node & k & Hrun & Hk & Hin & Hrows & Hstop).
      exists node, (S k). rewrite Hrun. split; [f_equal; lia|].
      split; [simpl; lia|].
      assert (Hcur : within curNode merged /\ within (interval_of nextRow) merged).
      { subst merged. unfold within. cbn [fst snd]. lia. }
      destruct Hcur as [Hcur Hnext].
      split; [unfold within in *; lia|]. split.
      * intros [|m] row Hm Hrow.
        -- injection Hrow as <-. unfold within in *. lia.
        -- apply (Hrows m row); [lia|exact Hrow].
      * intros row Hrow. apply Hstop. exact Hrow.
    + specialize (Hfalse eq_refl). subst merged. clear Htrue.
      exists curNode, 0%nat. split; [f_equal; lia|].
      split; [simpl; lia|]. split; [unfold within; lia|].
      split; [intros m row Hm; lia|].
      intros row Hrow. injection Hrow as <-. now rewrite Ec.
Qed.

(** [recursiveCheckOvelap] at a row of the data frame returns a node
    and a number of rows, at least one and not past the end of the
    frame: the row itself and the rows after it that were merged. Each
    of these rows lies in the node, and the row that follows them, if
    there is one, does not meet the node. *)
Theorem recursiveCheckOvelap_run (currentIndex : nat) (df : list Row) :
  (currentIndex < List.length df)%nat ->
  exists (node : Interval) (offset : nat),
    recursiveCheckOvelap columnStart columnEnd currentIndex df
      = Ok (node, Z.of_nat offset) /\
    (1 <= offset)%nat /\
    (currentIndex + offset <= List.length df)%nat /\
    (forall j row, (currentIndex <= j < currentIndex + offset)%nat ->
                   nth_error df j = Some row ->
                   within (columnStart row, columnEnd row) node) /\
    (forall row, nth_error df (currentIndex + offset) = Some row ->
                 fst (checkOverlap node (columnStart row, columnEnd row)) = false).
Proof.
  intro Hi. unfold recursiveCheckOvelap.
  destruct (nth_error df currentIndex) as [row0|] eqn:E0;
    [|apply nth_error_None in E0; lia].
  destruct (merge_following_run (skipn (S currentIndex) df)
              (columnStart row0, columnEnd row0) 0)
    as (node & k & Hrun & Hk & Hin & Hrows & Hstop).
  exists node, (S k). rewrite Hrun. rewrite length_skipn in Hk.
  assert (Hnth : forall m, nth_error (skipn (S currentIndex) df) m
                           = nth_error df (S currentIndex + m)).
  { intro m. apply nth_error_skipn. }
  split; [do 2 f_equal; lia|]. split; [lia|]. split; [lia|]. split.
  - intros j row Hj Hrow.
    destruct (Nat.eq_dec j currentIndex) as [->|Hne].
    + rewrite E0 in Hrow. injection Hrow as <-. exact Hin.
    + apply (Hrows (j - S currentIndex)%nat row); [lia|].
      rewrite Hnth. replace (S currentIndex + (j - S currentIndex))%nat with j by lia.
      exact Hrow.
  - intros row Hrow. apply Hstop. rewrite Hnth.
    replace (S currentIndex + k)%nat with (currentIndex + S k)%nat by lia. exact Hrow.
Qed.

(** Past the last row the look-up of the row itself raises. *)
Lemma recursiveCheckOvelap_out_of_bounds (currentIndex : nat) (df : list Row) :
  (List.length df <= currentIndex)%nat ->
  recursiveCheckOvelap columnStart columnEnd currentIndex df = Raise IndexError.
Proof.
  intro Hi. unfold recursiveCheckOvelap.
  now rewrite (proj2 (nth_error_None df currentIndex) Hi).
Qed.

End RowsFacts.

Lemma recursiveCheckOvelap_run_witness :
  let df := [(1, 100); (50, 250); (240, 300); (400, 500)] in
  exists node offset,
    recursiveCheckOvelap fst snd 0 df = Ok (node, Z.of_nat offset) /\
    (1 <= offset)%nat /\ (0 + offset <= 4)%nat.
Proof.
  intro df.
  destruct (recursiveCheckOvelap_run fst snd 0 df) as (node & offset & Hrun & H1 & H2 & _).
  - simpl. lia.
  - exists node, offset. auto.
Defined.

(** ** Overlap of two paths *)

(** For two intervals with [start < end], [checkPathOverlap] always
    returns a triple: when the intervals share more than a boundary it
    gives their common part with its length (not their union), and
    otherwise [(False, None, -1)]. *)
Theorem checkPathOverlap_common_part (moduleBlockPath genePath : Interval) :
  fst moduleBlockPath < snd moduleBlockPath ->
  fst genePath < snd genePath ->
  let left := Z.max (fst moduleBlockPath) (fst genePath) in
  let right := Z.min (snd moduleBlockPath) (snd genePath) in
  checkPathOverlap moduleBlockPath genePath =
    if left <? right
    then Ok (true, Some (left, right), right - left)
    else Ok (false, None, -1).
Proof.
  destruct moduleBlockPath as [blockStart blockEnd], genePath as [geneStart geneEnd].
  cbv zeta. cbn [fst snd]. intros Hb Hg. unfold checkPathOverlap.
  destruct (Z.max blockStart geneStart <? Z.min blockEnd geneEnd) eqn:E.
  - apply Z.ltb_lt in E.
    destruct (((blockStart <=? geneStart) && (blockEnd <=? geneStart)) ||
              ((geneEnd <=? blockStart) && (geneEnd <=? blockEnd))) eqn:E0.
    { rewrite orb_true_iff, !andb_true_iff, !Z.leb_le in E0. lia. }
    destruct ((geneStart >=? blockStart) && (geneEnd <=? blockEnd)) eqn:E1.
    { rewrite andb_true_iff, Z.geb_le, Z.leb_le in E1.
      now rewrite Z.max_r, Z.min_r by lia. }
    destruct ((geneStart <=? blockStart) && (geneEnd >=? blockEnd)) eqn:E2.
    { rewrite andb_true_iff, Z.geb_le, Z.leb_le in E2.
      now rewrite Z.max_l, Z.min_l by lia. }
    destruct ((blockStart >=? geneStart) && (blockStart <=? geneEnd)
              && (blockEnd >=? geneEnd)) eqn:E3.
    { rewrite !andb_true_iff, !Z.geb_le, Z.leb_le in E3.
      now rewrite Z.max_l, Z.min_r by lia. }
    destruct ((geneStart >=? blockStart) && (blockEnd >=? geneStart)
              && (geneEnd >=? blockEnd)) eqn:E4.
    { rewrite !andb_true_iff, !Z.geb_le in E4.
      now rewrite Z.max_r, Z.min_l by lia. }
    rewrite andb_false_iff, Z.geb_leb, !Z.leb_gt in E1, E2.
    rewrite !andb_false_iff, !Z.geb_leb, !Z.leb_gt in E3, E4. lia.
  - apply Z.ltb_ge in E.
    destruct (((blockStart <=? geneStart) && (blockEnd <=? geneStart)) ||
              ((geneEnd <=? blockStart) && (geneEnd <=? blockEnd))) eqn:E0;
      [reflexivity|].
    rewrite orb_false_iff, !andb_false_iff, !Z.leb_gt in E0. lia.
Qed.

Lemma checkPathOverlap_common_part_witness :
  checkPathOverlap (100, 260) (250, 300) = Ok (true, Some (250, 260), 10) /\
  checkPathOverlap (1, 100) (100, 260) = Ok (false, None, -1).
Proof.
  split.
  - rewrite (checkPathOverlap_common_part (100, 260) (250, 300)); [reflexivity|simpl; lia..].
  - rewrite (checkPathOverlap_common_part (1, 100) (100, 260)); [reflexivity|simpl; lia..].
Defined.

(** ** Cutting a node at the ends of paths *)

Lemma insert_sorted_In {A : Type} (leb : A -> A -> bool) (x y : A) (l : list A) :
  In y (insert_sorted leb x l) <-> y = x \/ In y l.
Proof.
  induction l as [|z t IH]; simpl; [intuition|].
  destruct (leb x z); simpl; [intuition|]. rewrite IH. intuition.
Qed.

Lemma sorted_In {A : Type} (leb : A -> A -> bool) (y : A) (l : list A) :
  In y (sorted leb l) <-> In y l.
Proof.
  unfold sorted. induction l as [|z t IH]; simpl; [tauto|].
  rewrite insert_sorted_In, IH. intuition.
Qed.

Lemma insert_sorted_NoDup {A : Type} (leb : A -> A -> bool) (x : A) (l : list A) :
  ~ In x l -> NoDup l -> NoDup (insert_sorted leb x l).
Proof.
  induction l as [|z t IH]; simpl; intros Hx Hnd; [repeat constructor; tauto|].
  destruct (leb x z).
  - constructor; [simpl; tauto|exact Hnd].
  - inversion Hnd as [|? ? Hz Ht]; subst. constructor.
    + rewrite insert_sorted_In. intuition.
    + apply IH; tauto.
Qed.

Lemma sorted_NoDup {A : Type} (leb : A -> A -> bool) (l : list A) :
  NoDup l -> NoDup (sorted leb l).
Proof.
  unfold sorted. induction 1 as [|x t Hx _ IH]; simpl; [constructor|].
  apply insert_sorted_NoDup; [|exact IH].
  change (~ In x (sorted leb t)). now rewrite sorted_In.
Qed.

Lemma insert_sorted_chain (x : Z) (l : list Z) :
  chain_le l -> chain_le (insert_sorted Z.leb x l).
Proof.
  induction l as [|a t IH]; intro Hl; [exact I|].
  cbn [insert_sorted]. destruct (Z.leb_spec x a) as [Hxa|Hxa].
  - split; [exact Hxa|exact Hl].
  - destruct t as [|b t'].
    + cbn. split; [lia|exact I].
    + destruct Hl as [Hab Ht]. specialize (IH Ht). cbn [insert_sorted] in *.
      destruct (Z.leb_spec x b); (split; [lia|assumption]).
Qed.

Lemma sorted_chain (l : list Z) : chain_le (sorted Z.leb l).
Proof.
  unfold sorted. induction l as [|a t IH]; [exact I|].
  simpl. now apply insert_sorted_chain.
Qed.

Lemma chain_le_NoDup_ascending (l : list Z) :
  chain_le l -> NoDup l -> ascending l.
Proof.
  induction l as [|a [|b t] IH]; intros Hc Hnd; try exact I.
  destruct Hc as [Hab Ht]. inversion Hnd as [|? ? Ha Hnd']; subst.
  split; [|now apply IH].
  assert (a <> b) by (intros ->; apply Ha; now left). lia.
Qed.

Lemma sorted_dedup_ascending (l : list Z) : ascending (sorted Z.leb (dedup l)).
Proof.
  apply chain_le_NoDup_ascending; [apply sorted_chain|].
  apply sorted_NoDup, NoDup_dedup.
Qed.

Lemma ascending_head (a : Z) (t : list Z) :
  ascending (a :: t) -> forall x, In x t -> a < x.
Proof.
  revert a. induction t as [|b t IH]; intros a Ha x Hx; [destruct Hx|].
  destruct Ha as [Hab Ht]. destruct Hx as [<-|Hx]; [exact Hab|].
  specialize (IH b Ht x Hx). lia.
Qed.

Lemma ascending_tail (a : Z) (t : list Z) : ascending (a :: t) -> ascending t.
Proof. destruct t; [intros; exact I|intros [_ H]; exact H]. Qed.

Lemma consecutive_In (l : list Z) (p : Interval) :
  In p (consecutive l) -> In (fst p) l /\ In (snd p) l.
Proof.
  induction l as [|a [|b t] IH]; intro Hp; try destruct Hp.
  - subst p. simpl. tauto.
  - destruct (IH H) as [H1 H2]. split; right; assumption.
Qed.

Lemma consecutive_adjacent (l : list Z) : adjacent (consecutive l).
Proof.
  induction l as [|a [|b [|c t]] IH]; try exact I.
  split; [reflexivity|exact IH].
Qed.

Lemma consecutive_proper (l : list Z) :
  ascending l -> Forall (fun p => fst p < snd p) (consecutive l).
Proof.
  induction l as [|a [|b t] IH]; intro Ha; try constructor.
  - exact (proj1 Ha).
  - apply IH. exact (proj2 Ha).
Qed.

Lemma consecutive_disjoint (l : list Z) :
  ascending l -> pairwise_disjoint (consecutive l).
Proof.
  induction l as [|a [|b t] IH]; intro Ha; [constructor..|].
  change (consecutive (a :: b :: t)) with ((a, b) :: consecutive (b :: t)).
  constructor.
  - apply Forall_forall. intros q Hq. left. cbn [snd].
    destruct (consecutive_In _ _ Hq) as [Hf _].
    destruct Hf as [<-|Hf]; [lia|].
    pose proof (ascending_head b t (proj2 Ha) _ Hf). lia.
  - apply IH. exact (proj2 Ha).
Qed.

Lemma consecutive_ends (l : list Z) (lo hi : Z) :
  ascending l -> In lo l -> In hi l -> lo < hi ->
  (forall x, In x l -> lo <= x <= hi) ->
  exists first last,
    hd_error (consecutive l) = Some first /\ fst first = lo /\
    hd_error (rev (consecutive l)) = Some last /\ snd last = hi.
Proof.
  revert lo. induction l as [|a [|b t] IH]; intros lo Ha Hlo Hhi Hlt Hall.
  - destruct Hlo.
  - simpl in Hlo, Hhi. lia.
  - assert (Ea : a = lo).
    { destruct Hlo as [E|Hlo]; [exact E|].
      pose proof (ascending_head a (b :: t) Ha lo Hlo).
      pose proof (Hall a (or_introl eq_refl)). lia. }
    subst a. destruct t as [|c t'].
    + exists (lo, b), (lo, b). cbn. repeat split.
      destruct Hhi as [E|[E|[]]]; [lia|exact E].
    + destruct (IH b (proj2 Ha)) as (first & last & _ & _ & Hl & Hs).
      * now left.
      * destruct Hhi as [E|Hhi]; [lia|exact Hhi].
      * destruct Hhi as [E|[E|Hhi]]; [lia| |].
        -- subst hi. pose proof (Hall c (or_intror (or_intror (or_introl eq_refl)))).
           destruct Ha as [_ [Hbc _]]. lia.
        -- destruct Ha as [_ Hb]. pose proof (ascending_head b (c :: t') Hb hi Hhi). lia.
      * intros x Hx. split.
        -- destruct Hx as [<-|Hx]; [lia|].
           destruct Ha as [_ Hb]. pose proof (ascending_head b (c :: t') Hb x Hx). lia.
        -- apply Hall. now right.
      * exists (lo, b), last. split; [reflexivity|]. split; [reflexivity|].
        split; [|exact Hs].
        change (consecutive (lo :: b :: c :: t'))
          with ((lo, b) :: consecutive (b :: c :: t')).
        cbn [rev]. destruct (rev (consecutive (b :: c :: t'))); [discriminate|exact Hl].
Qed.

Lemma cut_points_In (listOfCutpoint : list Interval) (start : list Z) (x : Z) :
  In x (fold_left (fun acc position => acc ++ [fst position; snd position])
          listOfCutpoint start) <->
  In x start \/ exists p, In p listOfCutpoint /\ (x = fst p \/ x = snd p).
Proof.
  revert start. induction listOfCutpoint as [|q t IH]; intro start; cbn [fold_left].
  - split; [tauto|]. intros [H|(p & [] & _)]. exact H.
  - rewrite IH, in_app_iff. cbn [In]. split.
    + intros [[H|[H|[H|[]]]]|(p & Hp & Hx)].
      * now left.
      * right. exists q. split; [now left|]. now left.
      * right. exists q. split; [now left|]. now right.
      * right. exists p. split; [now right|]. exact Hx.
    + intros [H|(p & [<-|Hp] & Hx)].
      * left. now left.
      * left. right. destruct Hx as [->| ->]; tauto.
      * right. now exists p.
Qed.

(** The blocks [multiChopNodePartition] returns follow one another
    from left to right: each has [start < end], each starts where the
    one before it ends, and no two of them overlap. When the node has
    [start < end] and every cut point lies in it, the first block
    starts with the node and the last block ends with it. *)
Theorem multiChopNodePartition_tiles (listOfCutpoint : list Interval)
  (whole : Interval) :
  let blocks := multiChopNodePartition listOfCutpoint whole in
  Forall (fun block => fst block < snd block) blocks /\
  adjacent blocks /\
  pairwise_disjoint blocks /\
  (fst whole < snd whole ->
   (forall p, In p listOfCutpoint ->
              fst whole <= fst p <= snd whole /\ fst whole <= snd p <= snd whole) ->
   exists first last,
     hd_error blocks = Some first /\ fst first = fst whole /\
     hd_error (rev blocks) = Some last /\ snd last = snd whole).
Proof.
  cbv zeta. unfold multiChopNodePartition.
  set (points := fold_left _ listOfCutpoint _).
  pose proof (sorted_dedup_ascending points) as Hasc.
  split; [now apply consecutive_proper|].
  split; [apply consecutive_adjacent|].
  split; [now apply consecutive_disjoint|].
  intros Hlt Hcuts.
  assert (Hin : forall x, In x (sorted Z.leb (dedup points)) <->
                          In x [fst whole; snd whole] \/
                          exists p, In p listOfCutpoint /\ (x = fst p \/ x = snd p)).
  { intro x. rewrite sorted_In, In_dedup. apply cut_points_In. }
  apply consecutive_ends; try assumption.
  - apply Hin. left. now left.
  - apply Hin. left. right. now left.
  - intros x Hx. apply Hin in Hx as [[<-|[<-|[]]]|(p & Hp & [->| ->])];
      try lia; destruct (Hcuts p Hp); lia.
Qed.

Lemma multiChopNodePartition_tiles_witness :
  exists first last,
    hd_error (multiChopNodePartition [(1, 10); (15, 20); (25, 35)] (1, 50))
      = Some first /\ fst first = 1 /\
    hd_error (rev (multiChopNodePartition [(1, 10); (15, 20); (25, 35)] (1, 50)))
      = Some last /\ snd last = 50.
Proof.
  destruct (multiChopNodePartition_tiles [(1, 10); (15, 20); (25, 35)] (1, 50))
    as (_ & _ & _ & Hends).
  apply Hends; [simpl; lia|].
  intros p Hp. simpl in Hp. intuition (subst; simpl; lia).
Defined.

(** A path inside its node cuts the node into at most three blocks:
    what is left of the path, the path, what is right of it. *)
Theorem nodePartition_blocks (position node : Interval) :
  fst node <= fst position -> fst position < snd position ->
  snd position <= snd node ->
  nodePartition position node =
    (if fst node <? fst position then [(fst node, fst position)] else []) ++
    [position] ++
    (if snd position <? snd node then [(snd position, snd node)] else []).
Proof.
  destruct position as [ps pe], node as [ns ne]. cbn [fst snd]. intros H1 H2 H3.
  unfold nodePartition, sorted. cbn [fst snd dedup mem existsb].
  unfold eqb, Eqb_Z.
  repeat match goal with
         | |- context [Z.eqb ?a ?b] =>
             destruct (Z.eqb_spec a b); try lia; subst; cbn [orb dedup mem existsb]
         end;
  cbn [fold_right insert_sorted];
  repeat match goal with
         | |- context [Z.leb ?a ?b] =>
             destruct (Z.leb_spec a b); try lia; cbn [insert_sorted]
         end;
  repeat match goal with
         | |- context [Z.ltb ?a ?b] => destruct (Z.ltb_spec a b); try lia
         end;
  reflexivity.
Qed.

Lemma nodePartition_blocks_witness :
  nodePartition (50, 250) (1, 300) = [(1, 50); (50, 250); (250, 300)] /\
  nodePartition (1, 100) (1, 100) = [(1, 100)].
Proof.
  split.
  - rewrite (nodePartition_blocks (50, 250) (1, 300)); [reflexivity|simpl; lia..].
  - rewrite (nodePartition_blocks (1, 100) (1, 100)); [reflexivity|simpl; lia..].
Defined.

(** ** The two indexes *)

Lemma dict_get_set {K V : Type} `{EqbSpec K} (d : dict K V) (k k' : K) (v : V) :
  dict_get (dict_set d k v) k' = if eqb k k' then Some v else dict_get d k'.
Proof.
  induction d as [|[k0 v0] t IH]; simpl.
  - reflexivity.
  - destruct (eqb_spec k0 k) as [->|Hne]; simpl.
    + destruct (eqb k k'); reflexivity.
    + rewrite IH. destruct (eqb_spec k0 k') as [->|Hne'].
      * destruct (eqb_spec k k'); [congruence|reflexivity].
      * reflexivity.
Qed.

Lemma keys_dict_set_new {K V : Type} `{EqbSpec K} (d : dict K V) (k : K) (v : V) :
  NoDup (keys d) -> NoDup (keys (dict_set d k v)).
Proof.
  intro Hnd. destruct (in_dec (fun a b => match eqb_spec a b with
                                          | ReflectT _ e => left e
                                          | ReflectF _ n => right n end) k (keys d))
    as [Hin|Hn].
  - now rewrite keys_dict_set.
  - rewrite dict_set_notin by exact Hn. rewrite keys_app. simpl.
    apply NoDup_app; [exact Hnd|repeat constructor; tauto|].
    intros x Hx [<-|[]]. contradiction.
Qed.

Lemma has_block_In (blocks : list BlockVertex) (node : Node) (path : Interval) :
  has_block blocks node path = true <-> exists d, In (node, path, d) blocks.
Proof.
  unfold has_block. rewrite existsb_exists. split.
  - intros ([[n p] d] & Hin & Hb). unfold bv_name, bv_path in Hb. cbn in Hb.
    apply andb_true_iff in Hb as [Hn Hp].
    apply eqb_eq in Hn, Hp. subst. now exists d.
  - intros (d & Hin). exists (node, path, d). split; [exact Hin|].
    unfold bv_name, bv_path. cbn. now rewrite !eqb_refl.
Qed.

Lemma n2p_item_run (n2p : NodeToPath) (p2m : PathToModule) (node : Node) (h : Heap) :
  wf_index h n2p p2m ->
  exists h1 n2p1 a,
    n2p_item n2p node h = (h1, Ok (n2p1, a)) /\
    wf_index h1 n2p1 p2m /\
    dict_get n2p1 node = Some a /\
    (forall x, live h1 n2p1 x = live h n2p x).
Proof.
  intros (Hk & Hv & Hr & Hp). unfold n2p_item.
  destruct (dict_get n2p node) as [a|] eqn:E.
  - exists h, n2p, a. repeat split; assumption.
  - exists {| sets := sets h ++ [[]]; next_mid := next_mid h |},
           (dict_set n2p node (List.length (sets h))), (List.length (sets h)).
    split; [reflexivity|].
    pose proof E as Hn. apply dict_get_notin in Hn.
    split; [|split].
    + split; [now apply keys_dict_set_new|].
      rewrite (dict_set_notin _ _ _ Hn). unfold values. rewrite map_app. cbn [map snd sets].
      split; [|split; [|exact Hp]].
      * apply NoDup_app; [exact Hv|repeat constructor; tauto|].
        intros x Hx [<-|[]]. specialize (Hr _ Hx). lia.
      * intros x Hx. rewrite length_app. cbn.
        apply in_app_or in Hx as [Hx|[<-|[]]]; [specialize (Hr _ Hx)|]; lia.
    + rewrite dict_get_set. now rewrite eqb_refl.
    + intro x. unfold live. rewrite dict_get_set.
      destruct (eqb_spec node x) as [<-|Hne].
      * rewrite E. unfold set_at. cbn. rewrite app_nth2 by lia.
        now rewrite Nat.sub_diag.
      * destruct (dict_get n2p x) as [b|] eqn:Ex; [|reflexivity].
        unfold set_at. cbn. apply app_nth1. apply Hr.
        now apply dict_get_values with (k := x).
Qed.

Lemma set_write_run (n2p : NodeToPath) (p2m : PathToModule) (node : Node)
  (a : nat) (s : list Interval) (h : Heap) :
  wf_index h n2p p2m -> dict_get n2p node = Some a ->
  exists h1,
    set_write a s h = (h1, Ok tt) /\
    wf_index h1 n2p p2m /\
    live h1 n2p node = s /\
    (forall x, x <> node -> live h1 n2p x = live h n2p x).
Proof.
  intros (Hk & Hv & Hr & Hp) Ha. unfold set_write. eexists. split; [reflexivity|].
  assert (Hin : (a < List.length (sets h))%nat)
    by (apply Hr; now apply dict_get_values with (k := node)).
  split; [|split].
  - repeat split; try assumption. intros x Hx. cbn. rewrite length_list_update. now apply Hr.
  - unfold live. rewrite Ha. unfold set_at. cbn. rewrite nth_list_update, Nat.eqb_refl.
    apply Nat.ltb_lt in Hin. now rewrite Hin.
  - intros x Hx. unfold live. destruct (dict_get n2p x) as [b|] eqn:Ex; [|reflexivity].
    unfold set_at. cbn. rewrite nth_list_update.
    destruct (Nat.eqb_spec a b) as [<-|Hne]; [|reflexivity].
    exfalso. apply Hx. exact (dict_get_injective n2p x node a Hv Ex Ha).
Qed.

Lemma removeOldModule_loop_run (blocks : list BlockVertex) :
  forall (n2p : NodeToPath) (p2m : PathToModule) (h : Heap),
    wf_index h n2p p2m ->
    exists h' n2p' p2m',
      removeOldModule_loop blocks n2p p2m h = (h', Ok (n2p', p2m')) /\
      wf_index h' n2p' p2m' /\
      (forall x, live h' n2p' x =
         filter (fun p => negb (has_block blocks x p)) (live h n2p x)) /\
      (forall x p, dict_get p2m' (x, p) =
         if has_block blocks x p then None else dict_get p2m (x, p)).
Proof.
  induction blocks as [|[[n q] d] rest IH]; intros n2p p2m h Hwf.
  - exists h, n2p, p2m. split; [reflexivity|]. split; [exact Hwf|]. split.
    + intro x. cbn. induction (live h n2p x) as [|y t IHt]; [reflexivity|].
      cbn. now rewrite <- IHt.
    + reflexivity.
  - cbn [removeOldModule_loop]. unfold pbind.
    destruct (n2p_item_run n2p p2m n h Hwf) as (h1 & n2p1 & a & Hitem & Hwf1 & Ha & Hl1).
    rewrite Hitem. unfold set_discard_at.
    destruct (set_write_run n2p1 p2m n a (discard q (set_at h1 a)) h1 Hwf1 Ha)
      as (h2 & Hw & Hwf2 & Hn & Ho).
    rewrite Hw.
    assert (Hwf3 : wf_index h2 n2p1 (dict_pop p2m (n, q))).
    { destruct Hwf2 as (H1 & H2 & H3 & H4). repeat split; try assumption.
      now apply NoDup_dict_pop. }
    destruct (IH n2p1 (dict_pop p2m (n, q)) h2 Hwf3)
      as (h' & n2p' & p2m' & Hrun & Hwf' & Hlive & Hget).
    exists h', n2p', p2m'. split; [exact Hrun|]. split; [exact Hwf'|]. split.
    + intro x. rewrite Hlive. unfold has_block. cbn [existsb bv_name bv_path fst snd].
      destruct (eqb_spec n x) as [<-|Hne].
      * rewrite Hn. replace (set_at h1 a) with (live h n2p n)
          by (rewrite <- Hl1; unfold live; now rewrite Ha).
        unfold discard. rewrite filter_filter_and. apply filter_ext. intro y.
        cbn. destruct (eqb_spec y q) as [->|Hy].
        -- now rewrite eqb_refl.
        -- destruct (eqb_spec q y); [congruence|reflexivity].
      * rewrite (Ho x) by congruence. rewrite Hl1. reflexivity.
    + intros x p. rewrite Hget. unfold has_block. cbn [existsb bv_name bv_path fst snd].
      destruct (existsb _ rest) eqn:Er.
      * now rewrite orb_true_r.
      * rewrite orb_false_r.
        rewrite dict_get_pop by (destruct Hwf as (_ & _ & _ & Hp); exact Hp).
        reflexivity.
Qed.

(** [removeOldModule] never raises. After it the blocks of the module
    are live no longer and have no module, and every other block is
    as before. *)
Theorem removeOldModule_removes (oldModule : ModuleObj) (n2p : NodeToPath)
  (p2m : PathToModule) (h : Heap) :
  wf_index h n2p p2m ->
  exists h' n2p' p2m',
    removeOldModule oldModule n2p p2m h = (h', Ok (n2p', p2m')) /\
    wf_index h' n2p' p2m' /\
    (forall node path,
       In path (live h' n2p' node) <->
       In path (live h n2p node) /\
       ~ exists d, In (node, path, d) (nodes (graph oldModule))) /\
    (forall node path,
       (exists d, In (node, path, d) (nodes (graph oldModule))) ->
       dict_get p2m' (node, path) = None) /\
    (forall node path,
       ~ (exists d, In (node, path, d) (nodes (graph oldModule))) ->
       dict_get p2m' (node, path) = dict_get p2m (node, path)).
Proof.
  intro Hwf. unfold removeOldModule.
  destruct (removeOldModule_loop_run (nodes (graph oldModule)) n2p p2m h Hwf)
    as (h' & n2p' & p2m' & Hrun & Hwf' & Hlive & Hget).
  exists h', n2p', p2m'. split; [exact Hrun|]. split; [exact Hwf'|]. split; [|split].
  - intros node path. rewrite Hlive, filter_In, negb_true_iff.
    rewrite <- has_block_In. destruct (has_block _ node path); intuition congruence.
  - intros node path Hb. apply has_block_In in Hb. now rewrite Hget, Hb.
  - intros node path Hb. rewrite Hget.
    destruct (has_block _ node path) eqn:E; [|reflexivity].
    apply has_block_In in E. contradiction.
Qed.

Ltac no_repeats :=
  repeat (apply NoDup_cons; [simpl; intuition (discriminate || congruence)|]);
  apply NoDup_nil.

Lemma removeOldModule_removes_witness :
  let m := {| mid := 0; graph := sample_module |} in
  let h := {| sets := [[(1, 10); (10, 100)]; [(1, 10)]]; next_mid := 1 |} in
  let n2p : NodeToPath := [(seqA, 0%nat); (seqB, 1%nat)] in
  let p2m : PathToModule := [((seqA, (1, 10)), m); ((seqB, (1, 10)), m)] in
  exists h' n2p' p2m',
    removeOldModule m n2p p2m h = (h', Ok (n2p', p2m')) /\
    dict_get p2m' (seqA, (1, 10)) = None /\
    (In (10, 100) (live h' n2p' seqA) <-> In (10, 100) (live h n2p seqA) /\
       ~ exists d, In (seqA, (10, 100), d) (nodes (graph m))).
Proof.
  intros m h n2p p2m.
  assert (Hwf : wf_index h n2p p2m).
  { repeat split; try no_repeats. intros a Ha. simpl in Ha. simpl. intuition (subst; lia). }
  destruct (removeOldModule_removes m n2p p2m h Hwf)
    as (h' & n2p' & p2m' & Hrun & _ & Hlive & Hgone & _).
  exists h', n2p', p2m'. split; [exact Hrun|]. split.
  - apply Hgone. exists Plus. simpl. tauto.
  - apply Hlive.
Defined.

Lemma set_add_In {A : Type} `{EqbSpec A} (x y : A) (s : list A) :
  In y (set_add x s) <-> y = x \/ In y s.
Proof.
  unfold set_add. destruct (mem x s) eqn:E.
  - apply mem_In in E. split; [tauto|]. intros [->|Hy]; assumption.
  - rewrite in_app_iff. simpl. intuition.
Qed.

Lemma updateNewModule_loop_run (newModule : ModuleObj) (trimLength : Z)
  (blocks : list BlockVertex) :
  forall (n2p : NodeToPath) (p2m : PathToModule) (h : Heap),
    wf_index h n2p p2m ->
    exists h' n2p' p2m',
      updateNewModule_loop newModule trimLength blocks n2p p2m h
        = (h', Ok (n2p', p2m')) /\
      wf_index h' n2p' p2m' /\
      (forall x p, In p (live h' n2p' x) <->
         In p (live h n2p x) \/
         has_block (leading_blocks trimLength blocks) x p = true) /\
      (forall x p, dict_get p2m' (x, p) =
         if has_block (leading_blocks trimLength blocks) x p
         then Some newModule else dict_get p2m (x, p)).
Proof.
  induction blocks as [|[[n q] d] rest IH]; intros n2p p2m h Hwf.
  - exists h, n2p, p2m. split; [reflexivity|]. split; [exact Hwf|].
    split; [intros x p; cbn; intuition discriminate|reflexivity].
  - cbn [updateNewModule_loop leading_blocks bv_path fst snd].
    destruct (snd q - fst q <? trimLength).
    + exists h, n2p, p2m. split; [reflexivity|]. split; [exact Hwf|].
      split; [intros x p; cbn; intuition discriminate|reflexivity].
    + unfold pbind.
      destruct (n2p_item_run n2p p2m n h Hwf) as (h1 & n2p1 & a & Hitem & Hwf1 & Ha & Hl1).
      rewrite Hitem. unfold set_add_at.
      destruct (set_write_run n2p1 p2m n a (set_add q (set_at h1 a)) h1 Hwf1 Ha)
        as (h2 & Hw & Hwf2 & Hn & Ho).
      rewrite Hw.
      assert (Hwf3 : wf_index h2 n2p1 (dict_set p2m (n, q) newModule)).
      { destruct Hwf2 as (H1 & H2 & H3 & H4). repeat split; try assumption.
        now apply keys_dict_set_new. }
      destruct (IH n2p1 (dict_set p2m (n, q) newModule) h2 Hwf3)
        as (h' & n2p' & p2m' & Hrun & Hwf' & Hlive & Hget).
      exists h', n2p', p2m'. split; [exact Hrun|]. split; [exact Hwf'|]. split.
      * intros x p. rewrite Hlive. unfold has_block at 2.
        cbn [existsb bv_name bv_path fst snd]. fold (has_block (leading_blocks trimLength rest) x p).
        rewrite orb_true_iff, andb_true_iff, !eqb_eq.
        destruct (eqb_spec n x) as [<-|Hne].
        -- rewrite Hn, set_add_In.
           replace (set_at h1 a) with (live h n2p n)
             by (rewrite <- Hl1; unfold live; now rewrite Ha).
           intuition.
        -- rewrite (Ho x) by congruence. rewrite Hl1. intuition.
      * intros x p. rewrite Hget. unfold has_block at 2.
        cbn [existsb bv_name bv_path fst snd].
        fold (has_block (leading_blocks trimLength rest) x p).
        destruct (has_block (leading_blocks trimLength rest) x p).
        -- now rewrite orb_true_r.
        -- rewrite orb_false_r, dict_get_set. reflexivity.
Qed.

Lemma leading_blocks_all (trimLength : Z) (blocks : list BlockVertex) :
  Forall (fun b => trimLength <= snd (bv_path b) - fst (bv_path b)) blocks ->
  leading_blocks trimLength blocks = blocks.
Proof.
  induction 1 as [|b t Hb _ IH]; [reflexivity|].
  cbn [leading_blocks]. apply Z.ltb_ge in Hb. now rewrite Hb, IH.
Qed.

(** [updateNewModule] never raises. It registers the blocks of the
    module that come ahead of the first block shorter than
    [trimLength], all of the blocks when none is shorter: these
    become live and are looked up to the module, and nothing else
    changes. *)
Theorem updateNewModule_registers (newModule : ModuleObj) (n2p : NodeToPath)
  (p2m : PathToModule) (trimLength : Z) (h : Heap) :
  wf_index h n2p p2m ->
  let registered := leading_blocks trimLength (nodes (graph newModule)) in
  exists h' n2p' p2m',
    updateNewModule newModule n2p p2m trimLength h = (h', Ok (n2p', p2m')) /\
    wf_index h' n2p' p2m' /\
    (forall node path,
       In path (live h' n2p' node) <->
       In path (live h n2p node) \/ exists d, In (node, path, d) registered) /\
    (forall node path,
       (exists d, In (node, path, d) registered) ->
       dict_get p2m' (node, path) = Some newModule) /\
    (forall node path,
       ~ (exists d, In (node, path, d) registered) ->
       dict_get p2m' (node, path) = dict_get p2m (node, path)) /\
    (Forall (fun b => trimLength <= snd (bv_path b) - fst (bv_path b))
       (nodes (graph newModule)) ->
     registered = nodes (graph newModule)).
Proof.
  intros Hwf registered. unfold updateNewModule.
  destruct (updateNewModule_loop_run newModule trimLength (nodes (graph newModule))
              n2p p2m h Hwf) as (h' & n2p' & p2m' & Hrun & Hwf' & Hlive & Hget).
  exists h', n2p', p2m'. split; [exact Hrun|]. split; [exact Hwf'|].
  split; [|split; [|split]].
  - intros node path. rewrite Hlive, has_block_In. reflexivity.
  - intros node path Hb. apply has_block_In in Hb. fold registered in Hget.
    now rewrite Hget, Hb.
  - intros node path Hb. rewrite Hget. fold registered.
    destruct (has_block registered node path) eqn:E; [|reflexivity].
    apply has_block_In in E. contradiction.
  - apply leading_blocks_all.
Qed.

Lemma updateNewModule_registers_witness :
  let m := {| mid := 0; graph := sample_module |} in
  exists h' n2p' p2m',
    updateNewModule m [] [] 5 empty_heap = (h', Ok (n2p', p2m')) /\
    In (1, 10) (live h' n2p' seqB) /\
    dict_get p2m' (seqB, (1, 10)) = Some m.
Proof.
  intro m.
  assert (Hwf : wf_index empty_heap [] []).
  { repeat split; try constructor. intros a []. }
  destruct (updateNewModule_registers m [] [] 5 empty_heap Hwf)
    as (h' & n2p' & p2m' & Hrun & _ & Hlive & Hget & _ & _).
  exists h', n2p', p2m'. split; [exact Hrun|].
  assert (Hb : exists d, In (seqB, (1, 10), d)
                           (leading_blocks 5 (nodes (graph m)))).
  { exists Minus. simpl. tauto. }
  split; [apply Hlive; now right | now apply Hget].
Defined.

(** Registering a module and then removing it leaves the indexes as
    they were, when none of its blocks was registered before. *)
Theorem register_then_remove (module : ModuleObj) (n2p : NodeToPath)
  (p2m : PathToModule) (trimLength : Z) (h : Heap) :
  wf_index h n2p p2m ->
  (forall node path d, In (node, path, d) (nodes (graph module)) ->
     ~ In path (live h n2p node) /\ dict_get p2m (node, path) = None) ->
  exists h1 n2p1 p2m1 h2 n2p2 p2m2,
    updateNewModule module n2p p2m trimLength h = (h1, Ok (n2p1, p2m1)) /\
    removeOldModule module n2p1 p2m1 h1 = (h2, Ok (n2p2, p2m2)) /\
    (forall node path,
       In path (live h2 n2p2 node) <-> In path (live h n2p node)) /\
    (forall node path, dict_get p2m2 (node, path) = dict_get p2m (node, path)).
Proof.
  intros Hwf Hfresh. unfold updateNewModule, removeOldModule.
  set (blocks := nodes (graph module)) in *.
  destruct (updateNewModule_loop_run module trimLength blocks n2p p2m h Hwf)
    as (h1 & n2p1 & p2m1 & Hup & Hwf1 & Hl1 & Hg1).
  destruct (removeOldModule_loop_run blocks n2p1 p2m1 h1 Hwf1)
    as (h2 & n2p2 & p2m2 & Hrm & _ & Hl2 & Hg2).
  exists h1, n2p1, p2m1, h2, n2p2, p2m2. split; [exact Hup|]. split; [exact Hrm|].
  assert (Hlead : forall x p, has_block (leading_blocks trimLength blocks) x p = true ->
                              has_block blocks x p = true).
  { intros x p. rewrite !has_block_In. intros (d & Hd). exists d.
    clear -Hd. induction blocks as [|b t IH]; [destruct Hd|].
    cbn [leading_blocks] in Hd. destruct (_ <? _); [destruct Hd|].
    destruct Hd as [->|Hd]; [now left|right; now apply IH]. }
  split.
  - intros node path. rewrite Hl2, filter_In, negb_true_iff, Hl1. split.
    + intros [[Hin|Hb] Hn]; [exact Hin|]. apply Hlead in Hb. congruence.
    + intro Hin. split; [now left|].
      destruct (has_block blocks node path) eqn:E; [|reflexivity].
      apply has_block_In in E as (d & Hd). destruct (Hfresh _ _ _ Hd). contradiction.
  - intros node path. rewrite Hg2, Hg1.
    destruct (has_block blocks node path) eqn:E.
    + apply has_block_In in E as (d & Hd). now destruct (Hfresh _ _ _ Hd).
    + destruct (has_block (leading_blocks trimLength blocks) node path) eqn:E';
        [apply Hlead in E'; congruence|reflexivity].
Qed.

Lemma register_then_remove_witness :
  let m := {| mid := 0; graph := sample_module |} in
  exists h1 n2p1 p2m1 h2 n2p2 p2m2,
    updateNewModule m [] [] 5 empty_heap = (h1, Ok (n2p1, p2m1)) /\
    removeOldModule m n2p1 p2m1 h1 = (h2, Ok (n2p2, p2m2)) /\
    (forall node path, In path (live h2 n2p2 node) <-> In path (live empty_heap [] node)) /\
    (forall node path, dict_get p2m2 (node, path) = dict_get [] (node, path)).
Proof.
  intro m. apply register_then_remove.
  - repeat split; try constructor. intros a [].
  - intros node path d _. split; [intros []|reflexivity].
Defined.

(** Trimming a second time changes nothing. *)
Theorem trimShortModules_idempotent (n2p : NodeToPath) (p2m : PathToModule)
  (trimLength : Z) (h : Heap) :
  wf_index h n2p p2m ->
  exists h1 p2m1 h2 p2m2,
    trimShortModules n2p p2m trimLength h = (h1, Ok (n2p, p2m1)) /\
    trimShortModules n2p p2m1 trimLength h1 = (h2, Ok (n2p, p2m2)) /\
    (forall node, live h2 n2p node = live h1 n2p node) /\
    (forall node path, dict_get p2m2 (node, path) = dict_get p2m1 (node, path)).
Proof.
  intro Hwf.
  destruct (trimShortModules_run trimLength n2p p2m h Hwf)
    as (h1 & p2m1 & Hr1 & Hwf1 & Hl1 & Hg1).
  destruct (trimShortModules_run trimLength n2p p2m1 h1 Hwf1)
    as (h2 & p2m2 & Hr2 & _ & Hl2 & Hg2).
  exists h1, p2m1, h2, p2m2. split; [exact Hr1|]. split; [exact Hr2|]. split.
  - intro node. rewrite Hl2, Hl1, filter_filter_and. apply filter_ext.
    intro y. now destruct (snd y - fst y <? trimLength).
  - intros node path. rewrite Hg2.
    destruct (snd path - fst path <? trimLength) eqn:E; [|reflexivity].
    destruct (mem path (live h1 n2p node)) eqn:Em; [|reflexivity].
    apply mem_In in Em. rewrite Hl1 in Em. apply filter_In in Em as [_ Hlong].
    rewrite E in Hlong. discriminate.
Qed.

Lemma trimShortModules_idempotent_witness :
  let h := {| sets := [[(1, 100); (100, 105)]]; next_mid := 1 |} in
  let m := {| mid := 0; graph := add_node empty_graph (seqA, (1, 100), Plus) |} in
  let n2p : NodeToPath := [(seqA, 0%nat)] in
  let p2m : PathToModule := [((seqA, (1, 100)), m); ((seqA, (100, 105)), m)] in
  exists h1 p2m1 h2 p2m2,
    trimShortModules n2p p2m 10 h = (h1, Ok (n2p, p2m1)) /\
    trimShortModules n2p p2m1 10 h1 = (h2, Ok (n2p, p2m2)) /\
    (forall node, live h2 n2p node = live h1 n2p node) /\
    (forall node path, dict_get p2m2 (node, path) = dict_get p2m1 (node, path)).
Proof.
  intros h m n2p p2m. apply trimShortModules_idempotent.
  repeat split; try no_repeats. intros a [<-|[]]. simpl. lia.
Defined.

(** The chop of the destination side reads the two indexes and writes
    to neither: every interval set that was there is the same
    afterwards, whether the chop returns or raises. *)
Theorem chopModulesAndUpdateGraph_reads_only (fuel : nat)
  (listOfModules : list ModuleObj) (node : Node) (path : Interval)
  (direction : Direction)
  (currentPartitionBlockDic : dict BlockVertex ModuleObj)
  (currentModuleUpdateDic : dict ModuleObj (list ModuleObj))
  (n2p : NodeToPath) (p2m : PathToModule) (h : Heap) :
  let h' := fst (chopModulesAndUpdateGraph fuel listOfModules node path direction
                   currentPartitionBlockDic currentModuleUpdateDic n2p p2m h) in
  (forall a, (a < List.length (sets h))%nat -> set_at h' a = set_at h a) /\
  ((forall a, In a (values n2p) -> (a < List.length (sets h))%nat) ->
   forall x, live h' n2p x = live h n2p x).
Proof.
  cbv zeta.
  destruct (only_allocates_chopModulesAndUpdateGraph fuel listOfModules node path
              direction currentPartitionBlockDic currentModuleUpdateDic n2p p2m h)
    as [extra Hx].
  split.
  - intros a Ha. unfold set_at. rewrite Hx. now apply app_nth1.
  - intros Hr x. exact (live_extend h _ n2p extra Hx Hr x).
Qed.

Lemma chopModulesAndUpdateGraph_reads_only_witness :
  let m := {| mid := 0; graph := sample_module |} in
  let h := {| sets := [[(1, 10)]; [(1, 10)]]; next_mid := 1 |} in
  let n2p : NodeToPath := [(seqA, 0%nat); (seqB, 1%nat)] in
  let p2m : PathToModule := [((seqA, (1, 10)), m); ((seqB, (1, 10)), m)] in
  live (fst (chopModulesAndUpdateGraph 10 [m] seqA (1, 5) Plus [] [] n2p p2m h)) n2p seqA
  = live h n2p seqA.
Proof.
  intros m h n2p p2m.
  apply (chopModulesAndUpdateGraph_reads_only 10 [m] seqA (1, 5) Plus [] [] n2p p2m h).
  intros a Ha. simpl in Ha. simpl. intuition (subst; lia).
Defined.

(** ** Passes of the driver *)

Lemma list_remove_length {A : Type} `{Eqb A} (x : A) (l l' : list A) :
  list_remove x l = Ok l' -> List.length l = S (List.length l').
Proof.
  revert l'. induction l as [|y t IH]; intros l' Hr; [discriminate|].
  cbn [list_remove] in Hr. destruct (eqb y x).
  - injection Hr as <-. reflexivity.
  - destruct (list_remove x t) as [t'|e]; [|discriminate].
    injection Hr as <-. simpl. now rewrite (IH t' eq_refl).
Qed.

Lemma scc_step_progress (S0 : AlignmentGraph) (st st' : scc_state)
  (edge : Node * Node) (h h' : Heap) :
  scc_step S0 st edge h = (h', Ok st') ->
  List.length (scc_edgeList st) = S (S (List.length (scc_edgeList st'))) /\
  numberOfEdges st' = numberOfEdges st + 2.
Proof.
  unfold scc_step. unfold pbind at 1. unfold lift.
  destruct (scc_fetch S0 st edge) as [[[[[sp sa] [dp da]] edgeList] counterDic]|e] eqn:Ef;
    [|discriminate].
  assert (Hlen : List.length (scc_edgeList st) = S (S (List.length edgeList))).
  { unfold scc_fetch in Ef. destruct edge as [u v].
    destruct (get_weight S0 u v _) as [[p1 a1]|e]; [|discriminate]. cbn in Ef.
    destruct (list_remove (u, v) (scc_edgeList st)) as [l1|e] eqn:E1; [|discriminate].
    cbn in Ef.
    destruct (get_weight S0 v u _) as [[p2 a2]|e]; [|discriminate]. cbn in Ef.
    destruct (list_remove (v, u) l1) as [l2|e] eqn:E2; [|discriminate].
    cbn in Ef. injection Ef as _ _ _ _ <- _.
    rewrite (list_remove_length _ _ _ E1), (list_remove_length _ _ _ E2). reflexivity. }
  destruct (mem _ (visitedEdgePair st)).
  - unfold ret. intro E. injection E as _ <-. split; [exact Hlen|reflexivity].
  - unfold pbind.
    match goal with
    | |- context [(if ?c then ?a else ?b) h] =>
        destruct ((if c then a else b) h) as [h1 [[n2p p2m]|e]]; [|discriminate]
    end.
    destruct (scc_dispatch _ _ _ _ _ _ _ n2p p2m h1) as [h2 [r|e]]; [|discriminate].
    unfold ret. intro E. injection E as _ <-. split; [exact Hlen|reflexivity].
Qed.

(** Every pass of the loop of [main] that does not raise takes two
    directed edges off the edge list and adds two to the counter. When
    the passes are over, the edge list is empty and the counter has
    gone up by the number of directed edges there were. *)
Theorem scc_loop_uses_every_edge (passes : nat) (S0 : AlignmentGraph) :
  forall (st st' : scc_state) (h h' : Heap),
    (List.length (scc_edgeList st) <= 2 * passes)%nat ->
    scc_loop passes S0 st h = (h', Ok st') ->
    scc_edgeList st' = [] /\
    numberOfEdges st' = numberOfEdges st + Z.of_nat (List.length (scc_edgeList st)).
Proof.
  induction passes as [|n IH]; intros st st' h h' Hlen Hrun.
  - cbn in Hrun. injection Hrun as _ <-.
    destruct (scc_edgeList st); [split; [reflexivity|simpl; lia]|simpl in Hlen; lia].
  - cbn [scc_loop] in Hrun. destruct (scc_edgeList st) as [|edge rest] eqn:El.
    + injection Hrun as _ <-. rewrite El. split; [reflexivity|simpl; lia].
    + unfold pbind in Hrun.
      destruct (scc_step S0 st edge h) as [h1 [st1|e]] eqn:Es; [|discriminate].
      destruct (scc_step_progress S0 st st1 edge h h1 Es) as [Hl Hc].
      rewrite El in Hl.
      destruct (IH st1 st' h1 h') as [He Hn]; [simpl in Hl, Hlen; lia|exact Hrun|].
      split; [exact He|]. rewrite Hn, Hc, Hl. lia.
Qed.

Lemma scc_loop_uses_every_edge_witness :
  exists h' st',
    scc_loop 8 overlap_graph (scc_start overlap_graph) empty_heap = (h', Ok st') /\
    scc_edgeList st' = [] /\ numberOfEdges st' = 8.
Proof.
  eexists _, _.
  assert (Hrun : scc_loop 8 overlap_graph (scc_start overlap_graph) empty_heap
                 = (_, Ok _)) by (vm_compute; reflexivity).
  split; [exact Hrun|].
  refine (scc_loop_uses_every_edge 8 overlap_graph _ _ _ _ _ Hrun).
  vm_compute. lia.
Defined.

(** ** The key under which an alignment is remembered *)

Lemma compare_interval_sym (a b : Interval) :
  compare_interval b a = CompOpp (compare_interval a b).
Proof.
  unfold compare_interval. rewrite (Z.compare_antisym (fst a) (fst b)).
  destruct (fst a ?= fst b); cbn; [apply Z.compare_antisym|reflexivity..].
Qed.

Lemma compare_interval_eq (a b : Interval) : compare_interval a b = Eq -> a = b.
Proof.
  unfold compare_interval. destruct a as [a1 a2], b as [b1 b2]. cbn [fst snd].
  destruct (a1 ?= b1) eqn:E1; try discriminate.
  intro E2. apply Z.compare_eq in E1, E2. congruence.
Qed.

Lemma compare_node_sym (a b : Node) :
  compare_node b a = CompOpp (compare_node a b).
Proof.
  unfold compare_node. rewrite (String.compare_antisym (fst a) (fst b)).
  destruct (String.compare (fst b) (fst a)); cbn;
    [apply compare_interval_sym|reflexivity..].
Qed.

Lemma compare_node_eq (a b : Node) : compare_node a b = Eq -> a = b.
Proof.
  unfold compare_node. destruct a as [a1 a2], b as [b1 b2]. cbn [fst snd].
  destruct (String.compare a1 b1) eqn:E1; try discriminate.
  intro E2. apply String.compare_eq_iff in E1. apply compare_interval_eq in E2.
  congruence.
Qed.

(** The key of an alignment does not depend on the side it is read
    from: the edge from [u] to [v] and the edge from [v] to [u] of one
    alignment have the same key, and so has the same alignment
    reported with its two sequences exchanged. *)
Theorem edge_pair_symmetric (sourceNode destNode : Node)
  (sourceToDestPath destToSourcePath : Interval) :
  edge_pair sourceNode destNode sourceToDestPath destToSourcePath =
  edge_pair destNode sourceNode destToSourcePath sourceToDestPath.
Proof.
  unfold edge_pair, sorted_edge_pair. cbn [fst snd].
  rewrite (compare_node_sym sourceNode destNode).
  rewrite (compare_interval_sym (sorted_pair sourceToDestPath)
             (sorted_pair destToSourcePath)).
  destruct (compare_node sourceNode destNode) eqn:En; cbn [CompOpp]; try reflexivity.
  destruct (compare_interval (sorted_pair sourceToDestPath)
              (sorted_pair destToSourcePath)) eqn:Ei; cbn [CompOpp]; try reflexivity.
  apply compare_node_eq in En. apply compare_interval_eq in Ei. congruence.
Qed.

(** ** Modules and their blocks *)

Section NodesGrow.
Context {N W : Type} `{EqbSpec N}.

Lemma nodes_add_nodes_from (ns : list N) :
  forall (G : MultiDiGraph N W) (m : N),
    In m (nodes (add_nodes_from G ns)) <-> In m (nodes G) \/ In m ns.
Proof.
  unfold add_nodes_from. induction ns as [|n t IH]; intros G m; cbn [fold_left].
  - simpl. tauto.
  - rewrite IH, nodes_add_node. simpl. intuition.
Qed.

Lemma nodes_add_edges (es : list (N * N * nat * W)) :
  forall (G : MultiDiGraph N W) (m : N),
    In m (nodes G) ->
    In m (nodes (fold_left
                   (fun R e => let '(u, v, key, w) := e in add_edge_key R u v key w)
                   es G)).
Proof.
  induction es as [|[[[u v] k] w] t IH]; intros G m Hm; cbn [fold_left]; [exact Hm|].
  apply IH. apply nodes_add_edge_key. tauto.
Qed.

Lemma nodes_compose (G G' : MultiDiGraph N W) (m : N) :
  In m (nodes G) \/ In m (nodes G') -> In m (nodes (compose G G')).
Proof.
  intro Hm. unfold compose. apply nodes_add_edges.
  rewrite !nodes_add_nodes_from. tauto.
Qed.

Lemma nodes_subgraph (G : MultiDiGraph N W) (nbunch : list N) :
  nodes (subgraph G nbunch) = filter (fun n => mem n nbunch) (nodes G).
Proof.
  unfold subgraph, nodes, keys. rewrite map_map. cbn [fst].
  induction G as [|[u nbrs] t IH]; [reflexivity|].
  cbn [filter map fst]. destruct (mem u nbunch); cbn [map fst]; now rewrite IH.
Qed.

End NodesGrow.

Lemma nodes_signReverse (module : Module) (b : BlockVertex) :
  In b (nodes module) -> In (nodeMapping b) (nodes (signReverse module)).
Proof.
  intro Hb. unfold signReverse.
  set (step := fun reverseSign edge => _).
  assert (Hgrow : forall es (G : Module) m, In m (nodes G) -> In m (nodes (fold_left step es G))).
  { induction es as [|[[[u v] k] w] t IH]; intros G m Hm; cbn [fold_left]; [exact Hm|].
    apply IH. unfold step. apply nodes_add_edge_key. tauto. }
  apply Hgrow. apply nodes_add_nodes_from. right. now apply in_map.
Qed.

Lemma reverseModuleOnDirection_loop_found (node : Node) (path : Interval)
  (direction : Direction) (blocks : list BlockVertex) (same : bool) :
  reverseModuleOnDirection_loop node path direction blocks = Some same ->
  exists block,
    In block blocks /\ bv_name block = node /\
    fst (bv_path block) - 10 <= fst path < fst (bv_path block) + 10 /\
    snd (bv_path block) - 30 <= snd path < snd (bv_path block) + 30 /\
    (bv_dir block = direction <-> same = true).
Proof.
  induction blocks as [|[[n p] d] rest IH]; [discriminate|].
  cbn [reverseModuleOnDirection_loop].
  destruct (eqb node n && in_range (fst path) (fst p - 10) (fst p + 10)
            && in_range (snd path) (snd p - 30) (snd p + 30)) eqn:E.
  - intro Hs. injection Hs as <-. exists (n, p, d).
    unfold in_range in E. rewrite !andb_true_iff, !Z.leb_le, !Z.ltb_lt, eqb_eq in E.
    split; [now left|]. unfold bv_name, bv_path, bv_dir. cbn [fst snd].
    repeat split; try tauto; try lia.
    + intuition congruence.
    + intros ->. apply eqb_refl.
    + intro Hd. now apply eqb_eq in Hd.
  - intro Hs. destruct (IH Hs) as (block & Hin & Hrest). exists block.
    split; [now right|exact Hrest].
Qed.

Lemma reverseModuleOnDirection_loop_none (node : Node) (path : Interval)
  (direction : Direction) (blocks : list BlockVertex) :
  reverseModuleOnDirection_loop node path direction blocks = None <->
  forall block, In block blocks ->
    ~ (bv_name block = node /\
       fst (bv_path block) - 10 <= fst path < fst (bv_path block) + 10 /\
       snd (bv_path block) - 30 <= snd path < snd (bv_path block) + 30).
Proof.
  induction blocks as [|[[n p] d] rest IH]; [split; [intros _ b []|reflexivity]|].
  cbn [reverseModuleOnDirection_loop].
  destruct (eqb node n && in_range (fst path) (fst p - 10) (fst p + 10)
            && in_range (snd path) (snd p - 30) (snd p + 30)) eqn:E.
  - split; [discriminate|]. intro Hall. exfalso. apply (Hall (n, p, d)); [now left|].
    unfold in_range in E. rewrite !andb_true_iff, !Z.leb_le, !Z.ltb_lt, eqb_eq in E.
    unfold bv_name, bv_path. cbn [fst snd]. intuition.
  - rewrite IH. split.
    + intros Hall block [<-|Hin]; [|now apply Hall].
      unfold bv_name, bv_path. cbn [fst snd]. intros (Hn & H1 & H2).
      unfold in_range in E. rewrite !andb_false_iff, !Z.leb_gt, !Z.ltb_ge, eqb_neq in E.
      intuition (try congruence; lia).
    + intros Hall block Hin. apply Hall. now right.
Qed.

(** [reverseModuleOnDirection] looks for a block of the node that the
    path nearly matches: the path starts at most 10 before and less
    than 10 after the start of the block, and ends at most 30 before
    and less than 30 after its end. It returns [None] exactly when the
    module has no such block; otherwise it returns the module or its
    sign reverse, and what it returns holds such a block in the
    direction asked for. It never raises. *)
Theorem reverseModuleOnDirection_orients (node : Node) (path : Interval)
  (direction : Direction) (module : ModuleObj) (h : Heap) :
  exists h' r,
    reverseModuleOnDirection node path direction module h = (h', Ok r) /\
    match r with
    | None =>
        forall block, In block (nodes (graph module)) ->
          ~ (bv_name block = node /\
             fst (bv_path block) - 10 <= fst path < fst (bv_path block) + 10 /\
             snd (bv_path block) - 30 <= snd path < snd (bv_path block) + 30)
    | Some m =>
        (graph m = graph module \/ graph m = signReverse (graph module)) /\
        exists p,
          In (node, p, direction) (nodes (graph m)) /\
          fst p - 10 <= fst path < fst p + 10 /\
          snd p - 30 <= snd path < snd p + 30
    end.
Proof.
  unfold reverseModuleOnDirection.
  destruct (reverseModuleOnDirection_loop node path direction (nodes (graph module)))
    as [[|]|] eqn:E.
  - exists h, (Some module). split; [reflexivity|]. split; [now left|].
    destruct (reverseModuleOnDirection_loop_found _ _ _ _ _ E)
      as ([[n p] d] & Hin & Hn & H1 & H2 & Hd).
    unfold bv_name, bv_path, bv_dir in *. cbn [fst snd] in *. subst n.
    exists p. rewrite <- (proj2 Hd eq_refl). auto.
  - eexists _, (Some _). split; [reflexivity|]. cbn [graph]. split; [now right|].
    destruct (reverseModuleOnDirection_loop_found _ _ _ _ _ E)
      as ([[n p] d] & Hin & Hn & H1 & H2 & Hd).
    unfold bv_name, bv_path, bv_dir in *. cbn [fst snd] in *. subst n.
    exists p. split; [|auto].
    apply nodes_signReverse in Hin. unfold nodeMapping, bv_name, bv_path, bv_dir in Hin.
    cbn [fst snd] in Hin.
    replace direction with (flip d); [exact Hin|].
    destruct d, direction; cbn; try reflexivity; exfalso;
      (assert (Hx : false = true) by (apply Hd; reflexivity)); discriminate.
  - exists h, None. split; [reflexivity|].
    exact (proj1 (reverseModuleOnDirection_loop_none node path direction _) E).
Qed.

Lemma add_edge_opt_nodes (G G' : Module) (u v : option BlockVertex) (w : bitarray)
  (b : BlockVertex) :
  add_edge_opt G u v w = Ok G' -> In b (nodes G) -> In b (nodes G').
Proof.
  unfold add_edge_opt. destruct u as [u|], v as [v|]; try discriminate.
  intros E Hb. injection E as <-. apply nodes_add_edge. tauto.
Qed.

(** [joinTwoModules] loses no block. When it returns, the union holds
    every block of the first module, and every block of the second
    module at a place the first module does not hold, as it is or with
    its direction reversed. *)
Theorem joinTwoModules_keeps_blocks (moduleA moduleB : ModuleObj)
  (nodeA : Node) (pathA : Interval) (aDirection : Direction)
  (nodeB : Node) (pathB : Interval) (bDirection : Direction)
  (arrayA arrayB : bitarray) (h h' : Heap) (moduleUnion : ModuleObj) :
  joinTwoModules moduleA moduleB nodeA pathA aDirection nodeB pathB bDirection
    arrayA arrayB h = (h', Ok moduleUnion) ->
  (forall b, In b (nodes (graph moduleA)) -> In b (nodes (graph moduleUnion))) /\
  (forall b, In b (nodes (graph moduleB)) ->
     has_block (nodes (graph moduleA)) (bv_name b) (bv_path b) = false ->
     In b (nodes (graph moduleUnion)) \/ In (nodeMapping b) (nodes (graph moduleUnion))).
Proof.
  unfold joinTwoModules, pbind, lift.
  set (leftOver := filter _ (nodes (graph moduleB))).
  assert (Hleft : forall b, In b (nodes (graph moduleB)) ->
            has_block (nodes (graph moduleA)) (bv_name b) (bv_path b) = false ->
            In b leftOver).
  { intros b Hb Hn. apply filter_In. split; [exact Hb|].
    apply negb_true_iff. apply not_true_is_false. intro Hm. apply mem_In in Hm.
    apply in_map_iff in Hm as ([[n p] d] & Hnp & Hin). unfold bv_name, bv_path in *.
    cbn [fst snd] in *. injection Hnp as Hn1 Hp1.
    assert (Ht : has_block (nodes (graph moduleA)) (fst (fst b)) (snd (fst b)) = true).
    { apply has_block_In. exists d. now rewrite <- Hn1, <- Hp1. }
    unfold bv_name, bv_path in Hn. congruence. }
  destruct leftOver as [|l0 lrest] eqn:El.
  - unfold new_object. intro E. injection E as _ <-. cbn [graph]. split; [tauto|].
    intros b Hb Hn. destruct (Hleft b Hb Hn).
  - rewrite <- El in *. clear El.
    set (Bu := subgraph (graph moduleB) leftOver).
    assert (HBu : forall b, In b leftOver -> In b (nodes Bu)).
    { intros b Hb. unfold Bu. rewrite nodes_subgraph. apply filter_In.
      split; [|now apply mem_In]. unfold leftOver in Hb.
      now apply filter_In in Hb as [Hb _]. }
    match goal with
    | |- context [bind ?c _] => destruct c as [[U0 target]|e] eqn:Ec; [|discriminate]
    end.
    cbn [bind].
    assert (HU0 : (forall b, In b (nodes (graph moduleA)) -> In b (nodes U0)) /\
                  (forall b, In b leftOver ->
                             In b (nodes U0) \/ In (nodeMapping b) (nodes U0))).
    { repeat match type of Ec with
             | (if ?c then _ else _) = _ => destruct c
             | bind ?r _ = _ => destruct r; [cbn [bind] in Ec|discriminate]
             end; injection Ec as <- _;
      (split; [intros b Hb; apply nodes_compose; now left|]);
      intros b Hb; specialize (HBu b Hb).
      - left. apply nodes_compose. now right.
      - right. apply nodes_compose. right. now apply nodes_signReverse.
      - right. apply nodes_compose. right. now apply nodes_signReverse.
      - left. apply nodes_compose. now right. }
    destruct (add_edge_opt U0 _ target _) as [U1|e] eqn:E1; [|discriminate].
    cbn [bind].
    destruct (add_edge_opt U1 target _ _) as [U2|e] eqn:E2; [|discriminate].
    unfold new_object. intro E. injection E as _ <-. cbn [graph].
    destruct HU0 as [HA HB]. split.
    + intros b Hb. eapply add_edge_opt_nodes; [exact E2|].
      eapply add_edge_opt_nodes; [exact E1|]. now apply HA.
    + intros b Hb Hn. destruct (HB b (Hleft b Hb Hn)) as [H1|H1]; [left|right];
        (eapply add_edge_opt_nodes; [exact E2|]);
        (eapply add_edge_opt_nodes; [exact E1|]); exact H1.
Qed.

Lemma joinTwoModules_keeps_blocks_witness :
  let a := {| mid := 0; graph := sample_module |} in
  let b := {| mid := 1; graph := add_node empty_graph (seqC, (1, 10), Minus) |} in
  exists h' u,
    joinTwoModules a b seqA (1, 10) Plus seqC (1, 10) Plus (ones 10) (ones 10)
      {| sets := []; next_mid := 2 |} = (h', Ok u) /\
    In (seqB, (1, 10), Minus) (nodes (graph u)) /\
    (In (seqC, (1, 10), Minus) (nodes (graph u)) \/
     In (nodeMapping (seqC, (1, 10), Minus)) (nodes (graph u))).
Proof.
  intros a b. eexists _, _.
  assert (Hrun : joinTwoModules a b seqA (1, 10) Plus seqC (1, 10) Plus
                   (ones 10) (ones 10) {| sets := []; next_mid := 2 |} = (_, Ok _))
    by (vm_compute; reflexivity).
  split; [exact Hrun|].
  destruct (joinTwoModules_keeps_blocks _ _ _ _ _ _ _ _ _ _ _ _ _ Hrun) as [HA HB].
  split.
  - apply HA. simpl. tauto.
  - apply (HB (seqC, (1, 10), Minus)); [simpl; tauto|reflexivity].
Defined.

(** ** Cutting a bit array at two offsets *)

Lemma choppedIndex_at (mask : bitarray) (k : Z) :
  1 <= k <= count_ones mask ->
  exists p : nat,
    choppedIndex mask k = Ok (Z.of_nat (S p)) /\
    (p < List.length mask)%nat /\
    count_ones (firstn (S p) mask) = k /\
    (forall q : nat, (q <= p)%nat -> count_ones (firstn q mask) <= k - 1).
Proof.
  intro Hk. unfold choppedIndex.
  destruct (Z.eqb_spec k 0) as [->|_]; [lia|].
  rewrite nth_item_found by lia.
  destruct (indices_from_nth mask 0 (Z.to_nat (k - 1))) as (p & Hn & Hp & Hc & Hq);
    [lia|].
  exists p. rewrite Hn. split; [f_equal; lia|]. split; [exact Hp|].
  split; [lia|]. intros q Hqp. specialize (Hq q Hqp). lia.
Qed.

Lemma firstn_plus {A : Type} (a b : nat) (l : list A) :
  firstn (a + b) l = firstn a l ++ firstn b (skipn a l).
Proof.
  revert l. induction a as [|a IH]; intro l; [reflexivity|].
  destruct l as [|x t]; [now rewrite !firstn_nil|].
  cbn. now rewrite IH.
Qed.

(** Between 1 and the number of ones, [choppedIndex] grows with the
    offset, and the columns between the cuts at two offsets hold as
    many ones as the offsets are apart. *)
Theorem choppedIndex_increasing (mask : bitarray) (k k' : Z) :
  1 <= k -> k < k' -> k' <= count_ones mask ->
  exists j j' : Z,
    choppedIndex mask k = Ok j /\
    choppedIndex mask k' = Ok j' /\
    1 <= j /\ j < j' /\ j' <= len mask /\
    count_ones (slice j j' mask) = k' - k.
Proof.
  intros H1 H2 H3.
  destruct (choppedIndex_at mask k) as (p & Hc & Hp & Hcp & Hq); [lia|].
  destruct (choppedIndex_at mask k') as (p' & Hc' & Hp' & Hcp' & Hq'); [lia|].
  assert (Hlt : (p < p')%nat).
  { destruct (Nat.lt_ge_cases p p') as [Hl|Hge]; [exact Hl|exfalso].
    destruct (Nat.eq_dec p p') as [->|Hne]; [lia|].
    specialize (Hq (S p')). assert (S p' <= p)%nat by lia. specialize (Hq H). lia. }
  exists (Z.of_nat (S p)), (Z.of_nat (S p')).
  split; [exact Hc|]. split; [exact Hc'|]. unfold len.
  split; [lia|]. split; [lia|]. split; [lia|].
  unfold slice, slice_bound, len.
  destruct (Z.ltb_spec (Z.of_nat (S p)) 0); [lia|].
  destruct (Z.ltb_spec (Z.of_nat (S p')) 0); [lia|].
  rewrite !Z.min_r, !Z.max_r by lia.
  replace (Z.to_nat (Z.of_nat (S p') - Z.of_nat (S p))) with (S p' - S p)%nat by lia.
  rewrite Nat2Z.id.
  assert (Hsplit : firstn (S p') mask =
                   firstn (S p) mask ++ firstn (S p' - S p) (skipn (S p) mask)).
  { rewrite <- firstn_plus. f_equal. lia. }
  rewrite Hsplit, count_ones_app in Hcp'. lia.
Qed.

Lemma choppedIndex_increasing_witness :
  exists j j',
    choppedIndex (bits "1101001") 2 = Ok j /\
    choppedIndex (bits "1101001") 4 = Ok j' /\
    1 <= j /\ j < j' /\ j' <= 7 /\
    count_ones (slice j j' (bits "1101001")) = 2.
Proof.
  apply (choppedIndex_increasing (bits "1101001") 2 4); [lia|lia|vm_compute; discriminate].
Defined.

(** ** The case of two nodes *)

Lemma new_object_run (g : Module) (n2p : NodeToPath) (p2m : PathToModule) (h : Heap) :
  wf_index h n2p p2m ->
  exists h1 m,
    new_object g h = (h1, Ok m) /\ graph m = g /\
    wf_index h1 n2p p2m /\ (forall x, live h1 n2p x = live h n2p x).
Proof.
  intro Hwf. unfold new_object. eexists _, _. split; [reflexivity|].
  split; [reflexivity|]. split; [exact Hwf|reflexivity].
Qed.

Lemma register_node_blocks_run (node : Node) (path : Interval) (module : ModuleObj)
  (blocks : list Interval) :
  forall (n2p : NodeToPath) (p2m : PathToModule) (h : Heap),
    wf_index h n2p p2m ->
    exists h' n2p' p2m',
      register_node_blocks node blocks path module n2p p2m h
        = (h', Ok (n2p', p2m')) /\
      wf_index h' n2p' p2m' /\
      (forall x p, In p (live h' n2p' x) <->
                   In p (live h n2p x) \/ (x = node /\ In p blocks)) /\
      (forall x p, x <> node \/ ~ In p blocks ->
                   dict_get p2m' (x, p) = dict_get p2m (x, p)) /\
      (forall p, In p blocks ->
         exists m, dict_get p2m' (node, p) = Some m /\
                   (p = path -> m = module) /\
                   (p <> path -> graph m = add_node empty_graph (node, p, Plus))).
Proof.
  induction blocks as [|element rest IH]; intros n2p p2m h Hwf.
  - exists h, n2p, p2m. split; [reflexivity|]. split; [exact Hwf|].
    split; [intros x p; simpl; tauto|]. split; [reflexivity|intros p []].
  - cbn [register_node_blocks]. unfold pbind at 1.
    assert (Hc : exists h0 corrs,
               (if eqb element path then ret module
                else new_object (add_node empty_graph (node, element, Plus))) h
               = (h0, Ok corrs) /\
               wf_index h0 n2p p2m /\ (forall x, live h0 n2p x = live h n2p x) /\
               (element = path -> corrs = module) /\
               (element <> path ->
                graph corrs = add_node empty_graph (node, element, Plus))).
    { destruct (eqb_spec element path) as [->|Hne].
      - exists h, module. split; [reflexivity|]. split; [exact Hwf|].
        split; [reflexivity|]. split; [reflexivity|congruence].
      - destruct (new_object_run (add_node empty_graph (node, element, Plus)) n2p p2m h Hwf)
          as (h0 & m & Hn & Hg & Hw & Hl).
        exists h0, m. split; [exact Hn|]. split; [exact Hw|].
        split; [exact Hl|]. split; [congruence|intros _; exact Hg]. }
    destruct Hc as (h0 & corrs & Hrun0 & Hwf0 & Hl0 & Hsame & Hother). rewrite Hrun0.
    unfold pbind at 1.
    destruct (n2p_item_run n2p p2m node h0 Hwf0) as (h1 & n2p1 & a & Hitem & Hwf1 & Ha & Hl1).
    rewrite Hitem. unfold pbind at 1. unfold set_add_at.
    destruct (set_write_run n2p1 p2m node a (set_add element (set_at h1 a)) h1 Hwf1 Ha)
      as (h2 & Hw & Hwf2 & Hn & Ho).
    rewrite Hw.
    assert (Hwf3 : wf_index h2 n2p1 (dict_set p2m (node, element) corrs)).
    { destruct Hwf2 as (H1 & H2 & H3 & H4). repeat split; try assumption.
      now apply keys_dict_set_new. }
    destruct (IH n2p1 (dict_set p2m (node, element) corrs) h2 Hwf3)
      as (h' & n2p' & p2m' & Hrun & Hwf' & Hlive & Hkeep & Hnew).
    exists h', n2p', p2m'. split; [exact Hrun|]. split; [exact Hwf'|].
    assert (Hset : forall x p, (x, p) <> (node, element) ->
              dict_get (dict_set p2m (node, element) corrs) (x, p) = dict_get p2m (x, p)).
    { intros x p Hne. rewrite dict_get_set.
      destruct (eqb_spec (node, element) (x, p)); [congruence|reflexivity]. }
    split; [|split].
    + intros x p. rewrite Hlive. cbn [In].
      destruct (eqb_spec node x) as [<-|Hne].
      * rewrite Hn, set_add_In.
        replace (set_at h1 a) with (live h n2p node)
          by (rewrite <- Hl0, <- Hl1; unfold live; now rewrite Ha).
        intuition.
      * rewrite (Ho x) by congruence. rewrite Hl1, Hl0. intuition congruence.
    + intros x p Hxp. rewrite Hkeep; [apply Hset|]; cbn [In] in Hxp.
      * intro E. injection E as -> ->. intuition.
      * intuition.
    + intros p Hp.
      destruct (in_dec (fun a b : Interval =>
                          match eqb_spec a b with
                          | ReflectT _ e => left e
                          | ReflectF _ n => right n end) p rest) as [Hin|Hnin].
      * exact (Hnew p Hin).
      * destruct Hp as [<-|Hp]; [|contradiction].
        exists corrs. rewrite Hkeep by (now right). rewrite dict_get_set, eqb_refl.
        split; [reflexivity|]. split; assumption.
Qed.

(** The case of two nodes in [main]. Both nodes are cut at the ends of
    their paths. Afterwards the live blocks of each node are those it
    had and its pieces; the piece of a node that is its path belongs to
    the new module of the two aligned blocks, every other piece to a
    module of that block alone; and the other entries of the module
    index are as before. *)
Theorem nodeNodePartition_registers (sourceNode destNode : Node)
  (sourceToDestPath destToSourcePath : Interval)
  (sourceDirection destDirection : Direction)
  (n2p : NodeToPath) (p2m : PathToModule)
  (sourceToDestArray destToSourceArray : bitarray) (h : Heap) :
  wf_index h n2p p2m ->
  sourceNode <> destNode ->
  let sourceBlocks := nodePartition sourceToDestPath (snd sourceNode) in
  let destBlocks := nodePartition destToSourcePath (snd destNode) in
  exists h' n2p' p2m' module,
    nodeNodePartition sourceNode destNode sourceToDestPath destToSourcePath
      sourceDirection destDirection n2p p2m sourceToDestArray destToSourceArray h
      = (h', Ok (n2p', p2m')) /\
    wf_index h' n2p' p2m' /\
    (forall b, In b (nodes (graph module)) <->
               b = (sourceNode, sourceToDestPath, sourceDirection) \/
               b = (destNode, destToSourcePath, destDirection)) /\
    (forall x p, In p (live h' n2p' x) <->
       In p (live h n2p x) \/ (x = sourceNode /\ In p sourceBlocks) \/
       (x = destNode /\ In p destBlocks)) /\
    (forall p, In p sourceBlocks ->
       exists m, dict_get p2m' (sourceNode, p) = Some m /\
                 (p = sourceToDestPath -> m = module) /\
                 (p <> sourceToDestPath ->
                  graph m = add_node empty_graph (sourceNode, p, Plus))) /\
    (forall p, In p destBlocks ->
       exists m, dict_get p2m' (destNode, p) = Some m /\
                 (p = destToSourcePath -> m = module) /\
                 (p <> destToSourcePath ->
                  graph m = add_node empty_graph (destNode, p, Plus))) /\
    (forall x p, ~ (x = sourceNode /\ In p sourceBlocks) ->
                 ~ (x = destNode /\ In p destBlocks) ->
                 dict_get p2m' (x, p) = dict_get p2m (x, p)).
Proof.
  intros Hwf Hne sourceBlocks destBlocks. unfold nodeNodePartition. cbv zeta.
  fold sourceBlocks destBlocks. unfold pbind at 1.
  set (s := (sourceNode, sourceToDestPath, sourceDirection)).
  set (d := (destNode, destToSourcePath, destDirection)).
  destruct (new_object_run
              (add_edge (add_edge empty_graph s d sourceToDestArray) d s destToSourceArray)
              n2p p2m h Hwf) as (h0 & module & Hnew & Hg & Hwf0 & Hl0).
  rewrite Hnew. unfold pbind at 1.
  destruct (register_node_blocks_run sourceNode sourceToDestPath module sourceBlocks
              n2p p2m h0 Hwf0) as (h1 & n2p1 & p2m1 & Hr1 & Hwf1 & Hl1 & Hk1 & Hn1).
  rewrite Hr1.
  destruct (register_node_blocks_run destNode destToSourcePath module destBlocks
              n2p1 p2m1 h1 Hwf1) as (h2 & n2p2 & p2m2 & Hr2 & Hwf2 & Hl2 & Hk2 & Hn2).
  exists h2, n2p2, p2m2, module. split; [exact Hr2|]. split; [exact Hwf2|].
  split; [|split; [|split; [|split]]].
  - intro b. rewrite Hg, !nodes_add_edge. unfold nodes. simpl. intuition.
  - intros x p. rewrite Hl2, Hl1, Hl0. tauto.
  - intros p Hp. destruct (Hn1 p Hp) as (m & Hm & Hrest). exists m.
    split; [|exact Hrest]. rewrite Hk2; [exact Hm|]. left. congruence.
  - exact Hn2.
  - intros x p Hs Hd. rewrite Hk2, Hk1; [reflexivity| |].
    + destruct (eqb_spec x sourceNode); [right; tauto|now left].
    + destruct (eqb_spec x destNode); [right; tauto|now left].
Qed.

Lemma nodeNodePartition_registers_witness :
  let a : Node := ("sA"%string, (1, 300)) in
  let b : Node := ("sB"%string, (201, 500)) in
  exists h' n2p' p2m' module,
    nodeNodePartition a b (1, 100) (201, 300) Plus Plus [] [] (ones 100) (ones 100)
      empty_heap = (h', Ok (n2p', p2m')) /\
    (forall p, In p (live h' n2p' a) <-> In p [(1, 100); (100, 300)]) /\
    dict_get p2m' (a, (1, 100)) = Some module /\
    dict_get p2m' (b, (201, 300)) = Some module.
Proof.
  intros a b.
  assert (Hwf : wf_index empty_heap [] []).
  { repeat split; try constructor. intros x []. }
  destruct (nodeNodePartition_registers a b (1, 100) (201, 300) Plus Plus [] []
              (ones 100) (ones 100) empty_heap Hwf)
    as (h' & n2p' & p2m' & module & Hrun & _ & _ & Hlive & Hs & Hd & _);
    [discriminate|].
  exists h', n2p', p2m', module. split; [exact Hrun|]. split; [|split].
  - intro p. rewrite Hlive. change (nodePartition (1, 100) (snd a)) with [(1, 100); (100, 300)].
    split.
    + intros [[]|[[_ Hp]|[Hab _]]]; [exact Hp|discriminate].
    + intro Hp. right. left. now split.
  - destruct (Hs (1, 100)) as (m & Hm & Heq & _); [simpl; tauto|].
    now rewrite Hm, (Heq eq_refl).
  - destruct (Hd (201, 300)) as (m & Hm & Heq & _); [simpl; tauto|].
    now rewrite Hm, (Heq eq_refl).
Defined.
